(** * sqlserver-mysql: the CSV to INSERT converter of [main.go]

    A shallow embedding of [main.go] and of the parts of the Go standard
    library it runs on ([os.File], [bytes.Reader], [io.MultiReader],
    [bufio.Reader], [encoding/csv]), with the open-file table, the file
    system and the console as explicit state.

    A file handle is an index into the table of open files, so that the
    handle [ReadInputFile] closes and the handle inside the reader it
    returns are one file.  A reader is a value that each read turns into
    the reader left; the functions of [main.go] hand it on the way the Go
    code shares the object. *)

From Stdlib Require Import Strings.String Strings.Ascii Strings.Byte.
From Stdlib Require Import Lists.List Arith Lia Bool.
From stdpp Require Import base option list gmap strings.

Import ListNotations.

(** ** Bytes and strings

    A Go [string] and a Go [[]byte] hold the same data; [string(b)] and
    [[]byte(s)] convert between them without changing a byte. *)

Abbreviation bytes := (list byte).

Definition str (b : bytes) : string := string_of_list_byte b.
Definition bytes_of (s : string) : bytes := list_byte_of_string s.

Definition nl : string := String (ascii_of_nat 10) EmptyString.

Definition LF : byte := x0a.
Definition CR : byte := x0d.
Definition COMMA : byte := x2c.
Definition QUOTE : byte := x22.

(** [bytes.IndexByte]: the position of the first [c] in [l]. *)
Fixpoint IndexByte (l : bytes) (c : byte) : option nat :=
  match l with
  | [] => None
  | x :: t => if Byte.eqb x c then Some 0 else S <$> IndexByte t c
  end.

(** [strings.Join]. *)
Fixpoint Join (elems : list string) (sep : string) : string :=
  match elems with
  | [] => ""
  | [e] => e
  | e :: rest => e +:+ sep +:+ Join rest sep
  end.

(** ** Errors

    Errors are kept structured; their text is not rendered.  A
    [csv.ParseError] keeps the line its record starts on and its cause.
    [Errorf p e] is [fmt.Errorf(p + ": %s", e)]; [Usage] is the error of
    [ParseArgs]. *)

Inductive errno := ENOENT | ErrClosed | ErrInvalid.

Inductive csvErr := ErrBareQuote | ErrQuote | ErrFieldCount.

Inductive error :=
| EOF
| ErrNoProgress
| ErrBufferFull
| PathError (op path : string) (cause : errno)
| ParseError (startLine : nat) (cause : csvErr)
| Errorf (prefix : string) (cause : error)
| Usage.

(** [err == io.EOF] *)
Definition isEOF (err : option error) : bool :=
  match err with Some EOF => true | _ => false end.

Definition isBufferFull (err : option error) : bool :=
  match err with Some ErrBufferFull => true | _ => false end.

(** ** Open files, file system, console *)

(** An open file: its path, the bytes from the current offset to the end,
    and whether [Close] has been called on it. *)
Record file := File {
  f_name : string;
  f_rest : bytes;
  f_closed : bool
}.

(** The table of the process's open files; a file handle is an index
    into it, so that two holders of a handle see one file. *)
Abbreviation fdtable := (list file).

Inductive logline :=
| FailedToReadRow (i : nat) (err : error)   (* "failed to read row %d: %s\n" *)
| PrintErr (err : error)                     (* fmt.Println(err) *)
| Generated (tableName : string).            (* "SQL file %s.SQL has been generated successfully.\n" *)

Record world := World {
  files : gmap string bytes;
  handles : fdtable;
  console : list logline
}.

Definition set_handles (hs : fdtable) (w : world) : world :=
  World (files w) hs (console w).

Definition Println (l : logline) (w : world) : world :=
  World (files w) (handles w) (console w ++ [l]).

(** [os.Open] *)
Definition Open (name : string) (w : world) : (nat + error) * world :=
  match files w !! name with
  | None => (inr (PathError "open" name ENOENT), w)
  | Some data =>
      (inl (length (handles w)),
       set_handles (handles w ++ [File name data false]) w)
  end.

(** [File.Close] of package os; its result is dropped by [defer]. *)
Definition Close (fd : nat) (hs : fdtable) : fdtable :=
  match hs !! fd with
  | None => hs
  | Some f => <[fd := File (f_name f) (f_rest f) true]> hs
  end.

(** ** io.Reader *)

#[warnings="-register-all"]
Inductive reader :=
| BytesReader (s : bytes)             (* bytes.Reader: the unread bytes *)
| FileReader (fd : nat)               (* an os.File *)
| MultiReader (readers : list reader). (* io.MultiReader *)

(** [File.Read] of package os with a buffer of [n] bytes: the bytes read
    and the error.  A closed file fails before anything else is looked
    at; a regular file gives all it has, up to [n] bytes. *)
Definition FileRead (fd n : nat) (hs : fdtable) : bytes * option error * fdtable :=
  match hs !! fd with
  | None => ([], Some (PathError "read" "" ErrInvalid), hs)
  | Some f =>
      if f_closed f then ([], Some (PathError "read" (f_name f) ErrClosed), hs)
      else if n =? 0 then ([], None, hs)
      else match f_rest f with
           | [] => ([], Some EOF, hs)
           | _ =>
               (take n (f_rest f), None,
                <[fd := File (f_name f) (drop n (f_rest f)) false]> hs)
           end
  end.

(** [Reader.Read] of package bytes. *)
Definition BytesRead (s : bytes) (n : nat) : bytes * option error * bytes :=
  match s with
  | [] => ([], Some EOF, [])
  | _ => (take n s, None, drop n s)
  end.

(** [Read(p)] with [len(p) = n].  For a MultiReader: read the first
    reader; at its EOF drop it; return as soon as bytes or an error other
    than EOF came, with EOF hidden while readers remain. *)
Fixpoint Read (r : reader) (n : nat) (hs : fdtable) {struct r}
  : bytes * option error * reader * fdtable :=
  match r with
  | BytesReader s =>
      let '(p, err, s') := BytesRead s n in (p, err, BytesReader s', hs)
  | FileReader fd =>
      let '(p, err, hs') := FileRead fd n hs in (p, err, FileReader fd, hs')
  | MultiReader rs =>
      (fix multi (rs : list reader) (hs : fdtable) {struct rs} :=
         match rs with
         | [] => ([], Some EOF, MultiReader [], hs)
         | r0 :: rest =>
             let '(p, err, r0', hs') := Read r0 n hs in
             let rs' := if isEOF err then rest else r0' :: rest in
             if negb (length p =? 0) || negb (isEOF err) then
               (p,
                (if isEOF err && negb (length rs' =? 0) then None else err),
                MultiReader rs', hs')
             else multi rest hs'
         end) rs hs
  end.

(** The loop of [multiReader.Read] on its own, for reasoning. *)
Fixpoint multiRead (n : nat) (rs : list reader) (hs : fdtable)
  : bytes * option error * reader * fdtable :=
  match rs with
  | [] => ([], Some EOF, MultiReader [], hs)
  | r0 :: rest =>
      let '(p, err, r0', hs') := Read r0 n hs in
      let rs' := if isEOF err then rest else r0' :: rest in
      if negb (length p =? 0) || negb (isEOF err) then
        (p,
         (if isEOF err && negb (length rs' =? 0) then None else err),
         MultiReader rs', hs')
      else multiRead n rest hs'
  end.

(** [io.ReadAll]: read until EOF or an error; the bytes read, and the
    error unless it is EOF.  It is how the content of a stream is
    observed; [rounds] bounds the number of reads. *)
Fixpoint ioReadAll (rounds : nat) (r : reader) (hs : fdtable) (acc : bytes)
  : option (bytes * option error * reader * fdtable) :=
  match rounds with
  | 0 => None
  | S k =>
      let '(p, err, r', hs') := Read r 512 hs in
      match err with
      | Some e => Some (acc ++ p, (if isEOF err then None else Some e), r', hs')
      | None => ioReadAll k r' hs' (acc ++ p)
      end
  end.

(** ** bufio.Reader

    The buffered, not yet consumed bytes ([buf[r:w]]), the pending error
    and the reader underneath.  [size] is [len(buf)]. *)

Record bufio := Bufio {
  rd : reader;
  buf : bytes;
  berr : option error;
  size : nat
}.

Definition defaultBufSize : nat := 4096.
Definition maxConsecutiveEmptyReads : nat := 100.

(** [bufio.NewReader] *)
Definition NewBufio (r : reader) : bufio := Bufio r [] None defaultBufSize.

(** The read loop of [fill]: up to [i] tries for new data. *)
Fixpoint fill_loop (i : nat) (b : bufio) (hs : fdtable) : bufio * fdtable :=
  match i with
  | 0 => (Bufio (rd b) (buf b) (Some ErrNoProgress) (size b), hs)
  | S i' =>
      let '(p, err, r', hs') := Read (rd b) (size b - length (buf b)) hs in
      let b' := Bufio r' (buf b ++ p) (berr b) (size b) in
      match err with
      | Some e => (Bufio r' (buf b ++ p) (Some e) (size b), hs')
      | None => if 0 <? length p then (b', hs') else fill_loop i' b' hs'
      end
  end.

(** [fill]: one chunk of new data behind the buffered bytes. *)
Definition fill (b : bufio) (hs : fdtable) : bufio * fdtable :=
  fill_loop maxConsecutiveEmptyReads b hs.

(** [ReadSlice(delim)].  Each round either finds the delimiter, hands
    out a pending error, reports a full buffer, or fills; a fill adds a
    byte or sets the error, so [size + 2] rounds are enough
    ([ReadSlice_Some]); [None] stands for rounds used up.  The search
    restarts at the head of the buffer; Go skips the part it has already
    searched, which holds no delimiter. *)
Fixpoint ReadSlice_loop (rounds : nat) (delim : byte) (b : bufio) (hs : fdtable)
  : option (bytes * option error * bufio * fdtable) :=
  match rounds with
  | 0 => None
  | S k =>
      match IndexByte (buf b) delim with
      | Some i =>
          Some (take (S i) (buf b), None,
                Bufio (rd b) (drop (S i) (buf b)) (berr b) (size b), hs)
      | None =>
          match berr b with
          | Some e => Some (buf b, Some e, Bufio (rd b) [] None (size b), hs)
          | None =>
              if size b <=? length (buf b) then
                Some (buf b, Some ErrBufferFull, Bufio (rd b) [] None (size b), hs)
              else
                let '(b', hs') := fill b hs in ReadSlice_loop k delim b' hs'
          end
      end
  end.

Definition ReadSlice (delim : byte) (b : bufio) (hs : fdtable)
  : option (bytes * option error * bufio * fdtable) :=
  ReadSlice_loop (size b + 2) delim b hs.

(** An upper bound on the bytes a reader can still deliver.  The loops of
    the CSV reader below take their rounds from it: each round of theirs
    consumes a byte, so that they end within them ([csvRead_Some]). *)
Fixpoint avail (r : reader) (hs : fdtable) {struct r} : nat :=
  match r with
  | BytesReader s => length s
  | FileReader fd =>
      match hs !! fd with
      | Some f => if f_closed f then 0 else length (f_rest f)
      | None => 0
      end
  | MultiReader rs =>
      (fix sum (rs : list reader) : nat :=
         match rs with
         | [] => 0
         | r0 :: rest => avail r0 hs + sum rest
         end) rs
  end.

Definition pending (b : bufio) (hs : fdtable) : nat :=
  length (buf b) + avail (rd b) hs.

(** ** encoding/csv

    A [csv.Reader] as [csv.NewReader] sets it up: Comma is [','], no
    Comment, LazyQuotes, TrimLeadingSpace and ReuseRecord are off. *)

Record csvReader := CsvReader {
  r : bufio;
  FieldsPerRecord : nat;
  numLine : nat
}.

(** [csv.NewReader] *)
Definition NewReader (rdr : reader) : csvReader :=
  CsvReader (NewBufio rdr) 0 0.

(** The loop of [readLine] that gathers a line longer than the buffer. *)
Fixpoint readLine_more (rounds : nat) (b : bufio) (hs : fdtable)
  : option (bytes * option error * bufio * fdtable) :=
  match rounds with
  | 0 => None
  | S k =>
      '(line, err, b1, hs1) ← ReadSlice LF b hs;
      if isBufferFull err then
        '(more, err', b2, hs2) ← readLine_more k b1 hs1;
        Some (line ++ more, err', b2, hs2)
      else Some (line, err, b1, hs1)
  end.

Definition byteAt (l : bytes) (i : nat) : byte := default x00 (l !! i).

(** [lengthNL]: 1 when the line ends in a newline, else 0. *)
Definition lengthNL (line : bytes) : nat :=
  if (0 <? length line) && Byte.eqb (byteAt line (length line - 1)) LF
  then 1 else 0.

(** [readLine]: the next line with its newline; a last line without one
    loses a trailing carriage return and its EOF; CR LF becomes LF. *)
Definition readLine (b : bufio) (nline : nat) (hs : fdtable)
  : option (bytes * option error * bufio * nat * fdtable) :=
  '(line, err, b', hs') ← readLine_more (S (pending b hs)) b hs;
  let readSize := length line in
  let '(line, err) :=
    if (0 <? readSize) && isEOF err then
      (if Byte.eqb (byteAt line (readSize - 1)) CR
       then take (readSize - 1) line else line, None)
    else (line, err) in
  let n := length line in
  let line :=
    if (2 <=? n) && Byte.eqb (byteAt line (n - 2)) CR
       && Byte.eqb (byteAt line (n - 1)) LF
    then take (n - 2) line ++ [LF] else line in
  Some (line, err, b', S nline, hs').

(** The first loop of [readRecord]: read lines until one is not empty. *)
Fixpoint skipEmpty (rounds : nat) (b : bufio) (nline : nat) (hs : fdtable)
  : option (bytes * option error * bufio * nat * fdtable) :=
  match rounds with
  | 0 => None
  | S k =>
      '(line, errRead, b', nline', hs') ← readLine b nline hs;
      match errRead with
      | None =>
          if length line =? lengthNL line then skipEmpty k b' nline' hs'
          else Some (line, errRead, b', nline', hs')
      | Some _ => Some (line, errRead, b', nline', hs')
      end
  end.

(** Where the field loop of [readRecord] stands: at the start of a field,
    or inside a quoted field whose bytes so far are [cur]. *)
Inductive fieldMode := FieldStart | InQuotes (cur : bytes).

(** What the field loop hands on: the fields gathered, the parse error,
    the read error, and the reader. *)
Record parsed := Parsed {
  p_fields : list string;
  p_err : option error;
  p_errRead : option error;
  p_r : bufio;
  p_numLine : nat;
  p_handles : fdtable
}.

(** The loop [parseField] of [readRecord] together with its inner loop
    over a quoted field. *)
Fixpoint parseField (rounds : nat) (mode : fieldMode) (recLine : nat)
    (line : bytes) (errRead : option error) (fields : list string)
    (b : bufio) (nline : nat) (hs : fdtable) : option parsed :=
  match rounds with
  | 0 => None
  | S k =>
      match mode with
      | FieldStart =>
          match line with
          | q :: rest =>
              if Byte.eqb q QUOTE then
                parseField k (InQuotes []) recLine rest errRead fields b nline hs
              else
                let i := IndexByte line COMMA in
                let field :=
                  match i with
                  | Some i => take i line
                  | None => take (length line - lengthNL line) line
                  end in
                match IndexByte field QUOTE with
                | Some _ =>
                    Some (Parsed fields (Some (ParseError recLine ErrBareQuote))
                            errRead b nline hs)
                | None =>
                    match i with
                    | Some i =>
                        parseField k FieldStart recLine (drop (S i) line) errRead
                          (fields ++ [str field]) b nline hs
                    | None =>
                        Some (Parsed (fields ++ [str field]) None errRead b nline hs)
                    end
                end
          | [] =>
              (* an empty field at the end of the line or of the input *)
              Some (Parsed (fields ++ [str []]) None errRead b nline hs)
          end
      | InQuotes cur =>
          match IndexByte line QUOTE with
          | Some i =>
              let cur := cur ++ take i line in
              let line := drop (S i) line in
              match line with
              | c :: rest =>
                  if Byte.eqb c QUOTE then
                    parseField k (InQuotes (cur ++ [QUOTE])) recLine rest errRead
                      fields b nline hs
                  else if Byte.eqb c COMMA then
                    parseField k FieldStart recLine rest errRead
                      (fields ++ [str cur]) b nline hs
                  else if lengthNL line =? length line then
                    Some (Parsed (fields ++ [str cur]) None errRead b nline hs)
                  else
                    Some (Parsed fields (Some (ParseError recLine ErrQuote))
                            errRead b nline hs)
              | [] =>
                  Some (Parsed (fields ++ [str cur]) None errRead b nline hs)
              end
          | None =>
              match line with
              | _ :: _ =>
                  let cur := cur ++ line in
                  match errRead with
                  | Some _ => Some (Parsed fields None errRead b nline hs)
                  | None =>
                      '(line', errRead', b', nline', hs') ← readLine b nline hs;
                      parseField k (InQuotes cur) recLine line'
                        (if isEOF errRead' then None else errRead')
                        fields b' nline' hs'
                  end
              | [] =>
                  match errRead with
                  | None =>
                      Some (Parsed fields (Some (ParseError recLine ErrQuote))
                              errRead b nline hs)
                  | Some _ =>
                      Some (Parsed (fields ++ [str cur]) None errRead b nline hs)
                  end
              end
          end
      end
  end.

(** What [readRecord] has before it looks at the number of fields: end
    of input, or the fields of a record, its error so far, and the line
    it starts on. *)
Inductive raw :=
| RawEOF
| RawRecord (dst : list string) (err : option error) (recLine : nat).

(** The first part of [readRecord]: skip empty lines and split the next
    line into fields. *)
Definition parseRecord (b : bufio) (nline : nat) (hs : fdtable)
  : option (raw * bufio * nat * fdtable) :=
  '(line, errRead, b1, n1, hs1) ← skipEmpty (S (pending b hs)) b nline hs;
  if isEOF errRead then Some (RawEOF, b1, n1, hs1)
  else
    p ← parseField (S (length line + pending b1 hs1)) FieldStart n1 line errRead
          [] b1 n1 hs1;
    let err := match p_err p with Some e => Some e | None => p_errRead p end in
    Some (RawRecord (p_fields p) err n1, p_r p, p_numLine p, p_handles p).

(** The last part of [readRecord], "check or update the expected fields
    per record": the error to return and the new [FieldsPerRecord]. *)
Definition checkFields (fieldsPerRecord : nat) (dst : list string)
    (err : option error) (recLine : nat) : option error * nat :=
  if 0 <? fieldsPerRecord then
    (if negb (length dst =? fieldsPerRecord) && negb (bool_decide (is_Some err))
     then Some (ParseError recLine ErrFieldCount) else err,
     fieldsPerRecord)
  else (err, length dst).

Definition readRecord (c : csvReader) (hs : fdtable)
  : option (list string * option error * csvReader * fdtable) :=
  '(rec, b', n', hs') ← parseRecord (r c) (numLine c) hs;
  match rec with
  | RawEOF => Some ([], Some EOF, CsvReader b' (FieldsPerRecord c) n', hs')
  | RawRecord dst err recLine =>
      let '(err, fpr) := checkFields (FieldsPerRecord c) dst err recLine in
      Some (dst, err, CsvReader b' fpr n', hs')
  end.

(** [Reader.Read] of package csv. *)
Definition csvRead (c : csvReader) (hs : fdtable)
  : option (list string * option error * csvReader * fdtable) :=
  readRecord c hs.

(** [Reader.ReadAll] of package csv: all records up to EOF, or the first
    error. *)
Fixpoint ReadAll_loop (rounds : nat) (c : csvReader) (hs : fdtable)
    (records : list (list string))
  : option (list (list string) * option error * fdtable) :=
  match rounds with
  | 0 => None
  | S k =>
      '(record, err, c', hs') ← readRecord c hs;
      if isEOF err then Some (records, None, hs')
      else match err with
           | Some e => Some ([], Some e, hs')
           | None => ReadAll_loop k c' hs' (records ++ [record])
           end
  end.

Definition ReadAll (c : csvReader) (hs : fdtable)
  : option (list (list string) * option error * fdtable) :=
  ReadAll_loop (S (pending (r c) hs)) c hs [].

(** ** main.go *)

(** What a call does: it returns, it panics (an index out of range), or
    its loop is still running when the rounds allowed are used up.  The
    row loop of [GenerateSQL] is the one loop of the program that may run
    for ever; it takes its rounds as an argument. *)
Inductive result (A : Type) :=
| Returns (a : A)
| Panics
| Running.
Arguments Returns {A} a.
Arguments Panics {A}.
Arguments Running {A}.

Record Args := mkArgs {
  TableName : string;
  InputFileName : string;
  SchemaFileName : string
}.

Record Schema := mkSchema {
  ColumnFrom : string;
  DataTypeFrom : string;
  ColumnTo : string;
  DataTypeTo : string
}.

Definition ParseArgs (args : list string) : Args + error :=
  if length args <? 4 then inr Usage
  else inl (mkArgs (default "" (args !! 1)) (default "" (args !! 2))
              (default "" (args !! 3))).

(** The loop of [ReadSchema] over the records; [None] is the panic of
    [column[k]] on a record with fewer than four fields. *)
Fixpoint schemaOfRecords (schema : list (list string)) (result : list Schema)
  : option (list Schema) :=
  match schema with
  | [] => Some result
  | column :: rest =>
      c0 ← column !! 0; c1 ← column !! 1; c2 ← column !! 2; c3 ← column !! 3;
      schemaOfRecords rest (result ++ [mkSchema c0 c1 c2 c3])
  end.

(** [ReadSchema]; reading the file always ends ([ReadSchema_ends]). *)
Definition ReadSchema (schemaFileName : string) (w : world)
  : result ((list Schema + error) * world) :=
  match Open schemaFileName w with
  | (inr err, w1) => Returns (inr (Errorf "failed to open schema file" err), w1)
  | (inl schemaFile, w1) =>
      (* defer schemaFile.Close() *)
      match ReadAll (NewReader (FileReader schemaFile)) (handles w1) with
      | None => Running
      | Some (_, Some err, hs2) =>
          Returns (inr (Errorf "failed to read schema file" err),
                   set_handles (Close schemaFile hs2) w1)
      | Some (schema, None, hs2) =>
          match schemaOfRecords schema [] with
          | None => Panics
          | Some result =>
              Returns (inl result, set_handles (Close schemaFile hs2) w1)
          end
      end
  end.

(** [data[0] == 0xEF && data[1] == 0xBB && data[2] == 0xBF] on at least
    three bytes: return [data[3:]]. *)
Definition removeBOM (data : bytes) : bytes :=
  if (3 <=? length data) && Byte.eqb (byteAt data 0) xef
     && Byte.eqb (byteAt data 1) xbb && Byte.eqb (byteAt data 2) xbf
  then drop 3 data else data.

(** [copy(b, p)] for [len(p) <= len(b)]: [p] over the head of [b]. *)
Definition copyInto (b p : bytes) : bytes := p ++ drop (length p) b.

(** The body of [ReadInputFile] from the peek on, with the file open. *)
Definition ReadInputFile_body (inputFile : nat) (hs : fdtable)
  : (reader + error) * fdtable :=
  let b := [x00; x00; x00] in
  let '(p, err, hs') := FileRead inputFile (length b) hs in
  let b := copyInto b p in
  match err with
  | Some e => (inr (Errorf "failed to read first 3 bytes of input file" e), hs')
  | None =>
      let b := removeBOM b in
      (inl (MultiReader [BytesReader b; FileReader inputFile]), hs')
  end.

(** [ReadInputFile]: the deferred [inputFile.Close()] runs when the body
    returns, and so before the caller has the reader. *)
Definition ReadInputFile (inputFileName : string) (w : world)
  : (reader + error) * world :=
  match Open inputFileName w with
  | (inr err, w1) => (inr (Errorf "failed to open input file" err), w1)
  | (inl inputFile, w1) =>
      let '(res, hs') := ReadInputFile_body inputFile (handles w1) in
      (res, set_handles (Close inputFile hs') w1)
  end.

(** [ParseHeaders]; the reader comes back as the CSV reader's buffer
    left it. *)
Definition ParseHeaders (rdr : reader) (hs : fdtable)
  : option ((list string + error) * reader * fdtable) :=
  let csvReader := NewReader rdr in
  '(headers, err, c', hs') ← csvRead csvReader hs;
  match err with
  | Some e =>
      Some (inr (Errorf "failed to read headers from input file" e), rd (r c'), hs')
  | None => Some (inl headers, rd (r c'), hs')
  end.

(** The loop [for i, header := range headers] *)
Fixpoint MapHeaders_loop (i : nat) (headers : list string)
    (headerIndexMap : gmap string nat) : gmap string nat :=
  match headers with
  | [] => headerIndexMap
  | header :: rest => MapHeaders_loop (S i) rest (<[header := i]> headerIndexMap)
  end.

Definition MapHeadersToSchema (headers : list string) (schema : list Schema)
  : gmap string nat :=
  MapHeaders_loop 0 headers ∅.

(** [m[k]] on a Go map: the zero value when [k] is not a key. *)
Definition mapIndex (m : gmap string nat) (k : string) : nat :=
  default 0 (m !! k).

Definition convertData (value srcType destType : string) : string :=
  if String.eqb srcType "int" then
    if String.eqb destType "BIGINT" then value
    else if String.eqb destType "VARCHAR" then value
    else value
  else if String.eqb srcType "nvarchar" || String.eqb srcType "varchar" then value
  else if String.eqb srcType "datetime" then value
  else value.

(** The loop [for j, column := range schema] of [GenerateSQL]; [n] is
    [len(schema)], [None] the panic of [row[headerIndex]]. *)
Fixpoint writeValues (columns : list Schema) (j n : nat)
    (headerIndexMap : gmap string nat) (row : list string) (outputSQL : string)
  : option string :=
  match columns with
  | [] => Some outputSQL
  | column :: rest =>
      let headerIndex := mapIndex headerIndexMap (ColumnFrom column) in
      value ← row !! headerIndex;
      let convertedValue :=
        convertData value (DataTypeFrom column) (DataTypeTo column) in
      let outputSQL := outputSQL +:+ ("'" +:+ convertedValue +:+ "'") in
      let outputSQL := if j <? n - 1 then outputSQL +:+ ", " else outputSQL in
      writeValues rest (S j) n headerIndexMap row outputSQL
  end.

(** The loop [for i := 0; ; i++] of [GenerateSQL].  A read of the CSV
    reader always gives its result ([csvRead_Some]); the loop is running
    when its own rounds are used up. *)
Fixpoint GenerateSQL_loop (rounds : nat) (i : nat) (schema : list Schema)
    (headerIndexMap : gmap string nat) (inputReader : csvReader) (w : world)
    (outputSQL : string) : result (string * world) :=
  match rounds with
  | 0 => Running
  | S k =>
      match csvRead inputReader (handles w) with
      | None => Running
      | Some (row, err, inputReader', hs') =>
          let w' := set_handles hs' w in
          if isEOF err then Returns (outputSQL +:+ (";" +:+ nl), w')
          else match err with
               | Some e =>
                   GenerateSQL_loop k (S i) schema headerIndexMap inputReader'
                     (Println (FailedToReadRow i e) w') outputSQL
               | None =>
                   let outputSQL :=
                     if 0 <? i then outputSQL +:+ ("," +:+ nl) else outputSQL in
                   let outputSQL := outputSQL +:+ "(" in
                   match writeValues schema 0 (length schema) headerIndexMap row
                           outputSQL with
                   | None => Panics
                   | Some outputSQL =>
                       GenerateSQL_loop k (S i) schema headerIndexMap inputReader'
                         w' (outputSQL +:+ ")")
                   end
               end
      end
  end.

Definition GenerateSQL (rounds : nat) (tableName : string) (schema : list Schema)
    (headerIndexMap : gmap string nat) (rdr : reader) (w : world)
  : result (string * world) :=
  let inputReader := NewReader rdr in
  let outputSQL := "INSERT INTO `" +:+ tableName +:+ "` (" in
  let columns := map (fun column => "`" +:+ ColumnTo column +:+ "`") schema in
  let outputSQL := outputSQL +:+ Join columns ", " in
  let outputSQL := outputSQL +:+ (")" +:+ nl +:+ "VALUES" +:+ nl) in
  GenerateSQL_loop rounds 0 schema headerIndexMap inputReader w outputSQL.

(** [WriteSQLToFile]; the file system here takes every write. *)
Definition WriteSQLToFile (sql tableName : string) (w : world) : option error * world :=
  let outputFileName := tableName +:+ ".SQL" in
  (None, World (<[outputFileName := bytes_of sql]> (files w)) (handles w) (console w)).

(** [main] with [os.Args] and the number of rounds the row loop may run. *)
Definition main (rounds : nat) (osArgs : list string) (w : world) : result world :=
  match ParseArgs osArgs with
  | inr err => Returns (Println (PrintErr err) w)
  | inl args =>
      match ReadSchema (SchemaFileName args) w with
      | Panics => Panics
      | Running => Running
      | Returns (inr err, w1) => Returns (Println (PrintErr err) w1)
      | Returns (inl schema, w1) =>
          match ReadInputFile (InputFileName args) w1 with
          | (inr err, w2) => Returns (Println (PrintErr err) w2)
          | (inl rdr, w2) =>
              match ParseHeaders rdr (handles w2) with
              | None => Running
              | Some (inr err, _, hs3) =>
                  Returns (Println (PrintErr err) (set_handles hs3 w2))
              | Some (inl headers, rdr', hs3) =>
                  let headerIndexMap := MapHeadersToSchema headers schema in
                  match GenerateSQL rounds (TableName args) schema headerIndexMap
                          rdr' (set_handles hs3 w2) with
                  | Panics => Panics
                  | Running => Running
                  | Returns (outputSQL, w4) =>
                      match WriteSQLToFile outputSQL (TableName args) w4 with
                      | (Some err, w5) => Returns (Println (PrintErr err) w5)
                      | (None, w5) =>
                          Returns (Println (Generated (TableName args)) w5)
                      end
                  end
              end
          end
      end
  end.

(** ** What a run reads and writes

    The vocabulary of the statements below. *)

(** One read of a CSV reader: the record and the error, neither of them
    EOF. *)
Abbreviation outcome := (list string * option error)%type.

(** [stream c hs outs hs']: read after read, the CSV reader [c] gives
    the outcomes [outs] and then EOF, and leaves the open files as
    [hs']. *)
Inductive stream : csvReader -> fdtable -> list outcome -> fdtable -> Prop :=
| stream_EOF c hs row c' hs' :
    csvRead c hs = Some (row, Some EOF, c', hs') ->
    stream c hs [] hs'
| stream_next c hs row err c' hs' outs hs'' :
    csvRead c hs = Some (row, err, c', hs') ->
    isEOF err = false ->
    stream c' hs' outs hs'' ->
    stream c hs ((row, err) :: outs) hs''.

(** What the first part of [readRecord] gives for a record: the fields,
    the error so far, and the line the record starts on. *)
Abbreviation rawOutcome := (list string * option error * nat)%type.

(** The same for the first part of [readRecord], which does not look at
    the number of fields. *)
Inductive rawstream : bufio -> nat -> fdtable -> list rawOutcome -> fdtable -> Prop :=
| rawstream_EOF b n hs b' n' hs' :
    parseRecord b n hs = Some (RawEOF, b', n', hs') ->
    rawstream b n hs [] hs'
| rawstream_next b n hs dst err recLine b' n' hs' outs hs'' :
    parseRecord b n hs = Some (RawRecord dst err recLine, b', n', hs') ->
    rawstream b' n' hs' outs hs'' ->
    rawstream b n hs ((dst, err, recLine) :: outs) hs''.

(** A record judged against [k] fields: one that has no error so far
    and another number of fields gets the field-count error. *)
Definition judge (k : nat) (raw : rawOutcome) : outcome :=
  let '(dst, err, recLine) := raw in
  (dst,
   match err with
   | Some e => Some e
   | None => if length dst =? k then None
             else Some (ParseError recLine ErrFieldCount)
   end).

(** Records that all have no error and [k] fields. *)
Definition uniform (k : nat) (raws : list rawOutcome) : Prop :=
  forall dst err recLine,
    (dst, err, recLine) ∈ raws -> err = None /\ length dst = k.

Definition good (row : list string) : outcome := (row, None).

(** The value of a row for a schema entry. *)
Definition resolved (headerIndexMap : gmap string nat) (row : list string)
    (column : Schema) : string :=
  default "" (row !! mapIndex headerIndexMap (ColumnFrom column)).

(** A value tuple: the resolved values in schema order, each in single
    quotes, joined by comma and space, in parentheses. *)
Definition tupleText (schema : list Schema) (headerIndexMap : gmap string nat)
    (row : list string) : string :=
  "(" +:+ Join (map (fun column => "'" +:+ resolved headerIndexMap row column +:+ "'")
                  schema) ", " +:+ ")".

(** The column list: the destination names in schema order, each in
    backticks, joined by comma and space. *)
Definition columnsText (schema : list Schema) : string :=
  Join (map (fun column => "`" +:+ ColumnTo column +:+ "`") schema) ", ".

(** What the row loop writes for the outcomes from position [i] on: a
    tuple for each record read without error, with comma and newline
    before it unless its position is 0, and nothing for the others. *)
Fixpoint rowsText (i : nat) (schema : list Schema)
    (headerIndexMap : gmap string nat) (outs : list outcome) : string :=
  match outs with
  | [] => ""
  | (row, None) :: rest =>
      (if 0 <? i then "," +:+ nl else "") +:+ tupleText schema headerIndexMap row
      +:+ rowsText (S i) schema headerIndexMap rest
  | (_, Some _) :: rest => rowsText (S i) schema headerIndexMap rest
  end.

(** The warnings for the outcomes from position [i] on: one for each
    read that failed, with its position. *)
Fixpoint warnings (i : nat) (outs : list outcome) : list logline :=
  match outs with
  | [] => []
  | (_, None) :: rest => warnings (S i) rest
  | (_, Some e) :: rest => FailedToReadRow i e :: warnings (S i) rest
  end.

(** Every record read without error has a field at the position each
    schema entry resolves to. *)
Definition inRange (schema : list Schema) (headerIndexMap : gmap string nat)
    (outs : list outcome) : Prop :=
  forall row column,
    (row, None) ∈ outs -> column ∈ schema ->
    mapIndex headerIndexMap (ColumnFrom column) < length row.

(** The statement for a table, a schema and the rows read. *)
Definition statementText (tableName : string) (schema : list Schema)
    (headerIndexMap : gmap string nat) (rows : list (list string)) : string :=
  "INSERT INTO `" +:+ tableName +:+ "` (" +:+ columnsText schema
  +:+ ")" +:+ nl +:+ "VALUES" +:+ nl
  +:+ Join (map (tupleText schema headerIndexMap) rows) ("," +:+ nl)
  +:+ ";" +:+ nl.


(** The outcomes of the reads up to EOF, computed; [rounds] bounds the
    number of reads. *)
Fixpoint readOutcomes (rounds : nat) (c : csvReader) (hs : fdtable)
  : option (list outcome * fdtable) :=
  match rounds with
  | 0 => None
  | S k =>
      '(row, err, c', hs') ← csvRead c hs;
      if isEOF err then Some ([], hs')
      else '(outs, hs'') ← readOutcomes k c' hs'; Some ((row, err) :: outs, hs'')
  end.

Fixpoint readRaws (rounds : nat) (b : bufio) (n : nat) (hs : fdtable)
  : option (list rawOutcome * fdtable) :=
  match rounds with
  | 0 => None
  | S k =>
      '(rec, b', n', hs') ← parseRecord b n hs;
      match rec with
      | RawEOF => Some ([], hs')
      | RawRecord dst err recLine =>
          '(outs, hs'') ← readRaws k b' n' hs';
          Some ((dst, err, recLine) :: outs, hs'')
      end
  end.

(** The outcomes of a reader whose expected number of fields is [fpr],
    from what the first part of [readRecord] gives. *)
Fixpoint judgeFrom (fpr : nat) (raws : list rawOutcome) : list outcome :=
  match raws with
  | [] => []
  | (dst, err, recLine) :: rest =>
      (dst, (checkFields fpr dst err recLine).1)
      :: judgeFrom (checkFields fpr dst err recLine).2 rest
  end.

(** The first record read without error. *)
Fixpoint firstGood (outs : list outcome) : option (list string) :=
  match outs with
  | [] => None
  | (row, None) :: _ => Some row
  | (_, Some _) :: rest => firstGood rest
  end.

(** A buffered reader as [bufio.NewReader] makes it and its methods keep
    it: the buffer has a size, and the pending error is not the error of
    a full buffer, which [ReadSlice] makes up itself. *)
Definition sound (b : bufio) : Prop :=
  0 < size b /\ isBufferFull (berr b) = false.

(** A reader all of whose files are open: a [bytes.Reader], an open
    file, or a MultiReader of such readers. *)
Fixpoint healthy (rdr : reader) (hs : fdtable) {struct rdr} : Prop :=
  match rdr with
  | BytesReader _ => True
  | FileReader fd => exists f, hs !! fd = Some f /\ f_closed f = false
  | MultiReader rs =>
      (fix all (rs : list reader) : Prop :=
         match rs with
         | [] => True
         | r0 :: rest => healthy r0 hs /\ all rest
         end) rs
  end.

(** No error, or EOF. *)
Definition eofOrNone (err : option error) : Prop :=
  err = None \/ err = Some EOF.

(** Two runs with the same effect: from [w1] to [w1'] and from [w2] to
    [w2'] the same lines were printed, the same file was written or none,
    and the open files are left the same. *)
Definition sameEffect (w1 w1' w2 w2' : world) : Prop :=
  handles w1' = handles w2'
  /\ (exists lines,
        console w1' = console w1 ++ lines /\ console w2' = console w2 ++ lines)
  /\ ((files w1' = files w1 /\ files w2' = files w2)
      \/ exists out sql,
           files w1' = <[out := sql]> (files w1)
           /\ files w2' = <[out := sql]> (files w2)).

(** Two results that are the same up to the worlds they started in. *)
Definition sameResult (w1 w2 : world) (r1 r2 : result world) : Prop :=
  match r1, r2 with
  | Returns w1', Returns w2' => sameEffect w1 w1' w2 w2'
  | Panics, Panics => True
  | Running, Running => True
  | _, _ => False
  end.

(** ** Sample data *)

(** Lines of text, each ended by a newline. *)
Fixpoint textLines (ls : list string) : string :=
  match ls with
  | [] => ""
  | l :: rest => l +:+ nl +:+ textLines rest
  end.

Definition emptyWorld : world := World ∅ [] [].

(** A file system with an input file and a schema file. *)
Definition sampleWorld (input schema : string) : world :=
  World (<["in.csv" := bytes_of input]> (<["schema.csv" := bytes_of schema]> ∅))
        [] [].

Definition usersSchema : list Schema :=
  [mkSchema "id" "int" "user_id" "BIGINT";
   mkSchema "name" "varchar" "full_name" "VARCHAR"].

Definition usersSchemaText : string :=
  textLines ["id,int,user_id,BIGINT"; "name,varchar,full_name,VARCHAR"].

Definition usersHeaders : list string := ["id"; "name"].

(** The statement of the specification's example. *)
Definition usersStatement : string :=
  "INSERT INTO `users` (`user_id`, `full_name`)" +:+ nl
  +:+ "VALUES" +:+ nl +:+ "('1', 'Alice');" +:+ nl.

Definition usersInput : string := textLines ["id,name"; "1,Alice"].

(** The byte-order mark. *)
Definition BOM : bytes := [xef; xbb; xbf].

(** A reader made of some bytes and a file whose handle is closed, or of
    the closed file alone: what [ReadInputFile] returns, and what is left
    of it as it is read. *)
Definition closedStream (rdr : reader) (hs : fdtable) : Prop :=
  exists fd f,
    hs !! fd = Some f /\ f_closed f = true
    /\ (rdr = MultiReader [FileReader fd]
        \/ exists s, rdr = MultiReader [BytesReader s; FileReader fd]).

(** The schema entry of a record. *)
Definition schemaOf (column : list string) : Schema :=
  mkSchema (default "" (column !! 0)) (default "" (column !! 1))
    (default "" (column !! 2)) (default "" (column !! 3)).

(** * Properties *)

(** ** The conversion rule *)

Lemma convertData_id value srcType destType :
  convertData value srcType destType = value.
Proof.
  unfold convertData.
  repeat match goal with |- context [if ?c then _ else _] => destruct c end;
    reflexivity.
Qed.

(** C7: [convertData] returns its value argument unchanged for every pair
    of type tags, the documented pairs and every other pair alike. *)
Theorem convertData_identity :
  (forall value srcType destType, convertData value srcType destType = value)
  /\ (forall value, convertData value "int" "BIGINT" = value
                 /\ convertData value "int" "VARCHAR" = value)
  /\ (forall value destType,
        convertData value "nvarchar" destType = value
        /\ convertData value "varchar" destType = value
        /\ convertData value "datetime" destType = value).
Proof.
  repeat split; intros; apply convertData_id.
Qed.

(** ** The header index map *)

Section HeaderIndexMap.

Implicit Types (headers : list string) (m : gmap string nat).

(** A name the loop does not meet keeps its binding. *)
Lemma MapHeaders_loop_notin headers i m name :
  name ∉ headers ->
  MapHeaders_loop i headers m !! name = m !! name.
Proof.
  revert i m; induction headers as [|h t IH]; intros i m Hn; simpl; [done|].
  apply not_elem_of_cons in Hn as [Hne Hn].
  rewrite IH by done. by rewrite lookup_insert_ne.
Qed.

(** The loop started at position [i] binds [name] to [i + k] exactly
    when [k] is the position of the last [name] in the list. *)
Lemma MapHeaders_loop_last headers i m name k :
  headers !! k = Some name ->
  (forall j, k < j -> headers !! j <> Some name) ->
  MapHeaders_loop i headers m !! name = Some (i + k).
Proof.
  revert i m k; induction headers as [|h t IH]; intros i m k Hk Hlast; [done|].
  simpl. destruct k as [|k].
  - simpl in Hk. injection Hk as ->.
    rewrite MapHeaders_loop_notin.
    + rewrite lookup_insert_eq. f_equal; lia.
    + intros Hin. apply list_elem_of_lookup in Hin as [j Hj].
      apply (Hlast (S j)); [lia | done].
  - simpl in Hk. rewrite (IH (S i) _ k Hk).
    + f_equal; lia.
    + intros j Hj. apply (Hlast (S j)). lia.
Qed.

(** Every header name has a last position. *)
Lemma last_position headers name :
  name ∈ headers ->
  exists k, headers !! k = Some name
            /\ forall j, k < j -> headers !! j <> Some name.
Proof.
  induction headers as [|h t IH]; intros Hin; [by apply elem_of_nil in Hin|].
  destruct (decide (name ∈ t)) as [Ht|Ht].
  - destruct (IH Ht) as (k & Hk & Hl). exists (S k). split; [done|].
    intros [|j] Hj; [lia|]. simpl. apply Hl. lia.
  - apply elem_of_cons in Hin as [->|Hin]; [|done].
    exists 0. split; [done|].
    intros [|j] Hj; [lia|]. simpl. intros Hj'.
    apply Ht. apply list_elem_of_lookup. eauto.
Qed.

Lemma MapHeadersToSchema_lookup headers schema name i :
  MapHeadersToSchema headers schema !! name = Some i <->
  headers !! i = Some name /\ forall j, i < j -> headers !! j <> Some name.
Proof.
  unfold MapHeadersToSchema. split.
  - intros Hm. destruct (decide (name ∈ headers)) as [Hin|Hin].
    + destruct (last_position _ _ Hin) as (k & Hk & Hl).
      rewrite (MapHeaders_loop_last _ 0 ∅ _ k Hk Hl) in Hm.
      simpl in Hm. injection Hm as <-. done.
    + rewrite MapHeaders_loop_notin in Hm by done.
      by rewrite lookup_empty in Hm.
  - intros [Hk Hl]. by rewrite (MapHeaders_loop_last _ 0 ∅ _ i Hk Hl).
Qed.

Lemma MapHeadersToSchema_None headers schema name :
  MapHeadersToSchema headers schema !! name = None <-> name ∉ headers.
Proof.
  unfold MapHeadersToSchema. split.
  - intros Hm Hin. destruct (last_position _ _ Hin) as (k & Hk & Hl).
    by rewrite (MapHeaders_loop_last _ 0 ∅ _ k Hk Hl) in Hm.
  - intros Hn. rewrite MapHeaders_loop_notin by done. apply lookup_empty.
Qed.

End HeaderIndexMap.

(** C8: [MapHeadersToSchema] goes through the header list once and binds
    each name to its zero-based position; a name that occurs several times
    is bound to the position of its last occurrence, and a name that is no
    header is not bound. *)
Theorem MapHeadersToSchema_last_wins (headers : list string) (schema : list Schema) :
  MapHeadersToSchema headers schema = MapHeaders_loop 0 headers ∅
  /\ (forall name i,
        MapHeadersToSchema headers schema !! name = Some i <->
        headers !! i = Some name /\ forall j, i < j -> headers !! j <> Some name)
  /\ (forall name,
        MapHeadersToSchema headers schema !! name = None <-> name ∉ headers).
Proof.
  split; [reflexivity|]. split.
  - intros. apply MapHeadersToSchema_lookup.
  - intros. apply MapHeadersToSchema_None.
Qed.

(** ** Strings *)

Lemma sapp_cons (x : ascii) (a b : string) :
  String x a +:+ b = String x (a +:+ b).
Proof. reflexivity. Qed.

Lemma sapp_nil_l (a : string) : "" +:+ a = a.
Proof. reflexivity. Qed.

Lemma sapp_assoc (a b c : string) : (a +:+ b) +:+ c = a +:+ (b +:+ c).
Proof.
  induction a as [|x a IH]; [done|]. by rewrite !sapp_cons, IH.
Qed.

Lemma sapp_nil_r (a : string) : a +:+ "" = a.
Proof.
  induction a as [|x a IH]; [done|]. by rewrite sapp_cons, IH.
Qed.

(** ** The value loop *)

Section ValueLoop.

Variables (headerIndexMap : gmap string nat) (row : list string).

Let quoted (column : Schema) : string :=
  "'" +:+ resolved headerIndexMap row column +:+ "'".

(** With every position in range the loop writes the quoted values with
    a separator between them. *)
Lemma writeValues_text columns j n outputSQL :
  j + length columns = n ->
  (forall column, column ∈ columns ->
     mapIndex headerIndexMap (ColumnFrom column) < length row) ->
  writeValues columns j n headerIndexMap row outputSQL
  = Some (outputSQL +:+ Join (map quoted columns) ", ").
Proof.
  revert j outputSQL.
  induction columns as [|column rest IH]; intros j out Hn Hr.
  - simpl. by rewrite sapp_nil_r.
  - cbn [writeValues].
    assert (Hc : mapIndex headerIndexMap (ColumnFrom column) < length row)
      by (apply Hr; left).
    apply lookup_lt_is_Some_2 in Hc as [v Hv].
    rewrite Hv. cbn [mbind option_bind]. rewrite convertData_id.
    assert (Hq : quoted column = "'" +:+ v +:+ "'").
    { unfold quoted, resolved. by rewrite Hv. }
    simpl in Hn.
    destruct rest as [|column' rest'].
    + replace (j <? n - 1) with false
        by (symmetry; apply Nat.ltb_ge; simpl in Hn; lia).
      simpl. by rewrite Hq.
    + replace (j <? n - 1) with true
        by (symmetry; apply Nat.ltb_lt; simpl in Hn; lia).
      rewrite IH.
      * f_equal. change (map quoted (column :: column' :: rest'))
          with (quoted column :: map quoted (column' :: rest')).
        cbn [Join map]. rewrite Hq. by rewrite !sapp_assoc.
      * simpl in *. lia.
      * intros c Hc. apply Hr. by right.
Qed.

(** A position out of range stops the loop with a panic. *)
Lemma writeValues_panic columns j n outputSQL column :
  column ∈ columns ->
  length row <= mapIndex headerIndexMap (ColumnFrom column) ->
  writeValues columns j n headerIndexMap row outputSQL = None.
Proof.
  revert j outputSQL.
  induction columns as [|c rest IH]; intros j out Hin Hr.
  - by apply elem_of_nil in Hin.
  - cbn [writeValues].
    destruct (row !! mapIndex headerIndexMap (ColumnFrom c)) as [v|] eqn:Hv;
      [|done].
    cbn [mbind option_bind].
    apply elem_of_cons in Hin as [->|Hin].
    + apply lookup_lt_Some in Hv. lia.
    + by apply IH.
Qed.

End ValueLoop.

(** ** Streams of records *)

Lemma readOutcomes_stream rounds c hs outs hs' :
  readOutcomes rounds c hs = Some (outs, hs') -> stream c hs outs hs'.
Proof.
  revert c hs outs hs'.
  induction rounds as [|k IH]; intros c hs outs hs' H; [done|].
  cbn [readOutcomes] in H.
  destruct (csvRead c hs) as [[[[row err] c1] hs1]|] eqn:Hr; [|done].
  cbn [mbind option_bind] in H.
  destruct (isEOF err) eqn:He.
  - injection H as <- <-.
    destruct err as [[]|]; try discriminate He. eapply stream_EOF; eauto.
  - destruct (readOutcomes k c1 hs1) as [[outs1 hs2]|] eqn:Hk; [|done].
    cbn [mbind option_bind] in H. injection H as <- <-.
    eapply stream_next; eauto.
Qed.

Lemma readRaws_rawstream rounds b n hs outs hs' :
  readRaws rounds b n hs = Some (outs, hs') -> rawstream b n hs outs hs'.
Proof.
  revert b n hs outs hs'.
  induction rounds as [|k IH]; intros b n hs outs hs' H; [done|].
  cbn [readRaws] in H.
  destruct (parseRecord b n hs) as [[[[rec b1] n1] hs1]|] eqn:Hr; [|done].
  cbn [mbind option_bind] in H.
  destruct rec as [|dst err recLine].
  - injection H as <- <-. eapply rawstream_EOF; eauto.
  - destruct (readRaws k b1 n1 hs1) as [[outs1 hs2]|] eqn:Hk; [|done].
    cbn [mbind option_bind] in H. injection H as <- <-.
    eapply rawstream_next; eauto.
Qed.

(** ** The row loop *)

Lemma inRange_cons schema him out outs :
  inRange schema him (out :: outs) -> inRange schema him outs.
Proof. intros H row column Hin. apply H. by right. Qed.

(** On a stream that ends, with every good row in range, the loop
    returns: the text so far, the rows' text, and the end of the
    statement; the console has the warnings. *)
Lemma GenerateSQL_loop_stream schema him c w outs hs' :
  stream c (handles w) outs hs' ->
  inRange schema him outs ->
  forall rounds i outputSQL,
    length outs < rounds ->
    GenerateSQL_loop rounds i schema him c w outputSQL
    = Returns (outputSQL +:+ rowsText i schema him outs +:+ ";" +:+ nl,
               World (files w) hs' (console w ++ warnings i outs)).
Proof.
  intros Hs. remember (handles w) as hs eqn:Hhs. revert w Hhs.
  induction Hs as [c hs row c' hs' Hread
                  |c hs row err c' hs' outs hs'' Hread Hne Hs IH];
    intros w -> Hr rounds i out Hlt.
  - destruct rounds as [|k]; [simpl in Hlt; lia|].
    cbn [GenerateSQL_loop]. rewrite Hread. cbn [isEOF rowsText warnings].
    rewrite sapp_nil_l, app_nil_r. reflexivity.
  - destruct rounds as [|k]; [simpl in Hlt; lia|].
    cbn [GenerateSQL_loop]. rewrite Hread, Hne.
    assert (Hk : length outs < k) by (simpl in Hlt; lia).
    destruct err as [e|].
    + rewrite (IH (Println (FailedToReadRow i e) (set_handles hs' w)) eq_refl
                 (inRange_cons _ _ _ _ Hr) k (S i) out Hk).
      cbn [rowsText warnings Println set_handles files handles console].
      by rewrite <- app_assoc.
    + rewrite (writeValues_text him row schema 0 (length schema)); [|done|].
      * rewrite (IH (set_handles hs' w) eq_refl
                   (inRange_cons _ _ _ _ Hr) k (S i) _ Hk).
        cbn [rowsText warnings set_handles files handles console].
        f_equal. f_equal. unfold tupleText.
        destruct (0 <? i); by rewrite ?sapp_assoc, ?sapp_nil_l.
      * intros column Hc. apply Hr; [by left | done].
Qed.

(** A stream of good rows: the tuples joined by comma and newline, and
    no warning. *)
Lemma rowsText_good schema him rows i :
  rowsText i schema him (map good rows)
  = match rows with
    | [] => ""
    | _ => (if 0 <? i then "," +:+ nl else "")
           +:+ Join (map (tupleText schema him) rows) ("," +:+ nl)
    end.
Proof.
  revert i. induction rows as [|row rest IH]; intros i; [done|].
  cbn [map good rowsText]. rewrite (IH (S i)).
  destruct rest as [|row' rest']; cbn [map Join].
  - by rewrite sapp_nil_r.
  - change (0 <? S i) with true. cbv iota. by rewrite ?sapp_assoc.
Qed.

Lemma warnings_good rows i : warnings i (map good rows) = [].
Proof. revert i; induction rows as [|row rest IH]; intros i; [done|]. apply IH. Qed.

Lemma elem_of_map_good row rows : good row ∈ map good rows -> row ∈ rows.
Proof.
  intros H. apply list_elem_of_fmap in H as (row' & Heq & Hin).
  injection Heq as ->. done.
Qed.

(** The text before the first tuple. *)
Lemma GenerateSQL_unfold rounds tableName schema him rdr w :
  GenerateSQL rounds tableName schema him rdr w
  = GenerateSQL_loop rounds 0 schema him (NewReader rdr) w
      (("INSERT INTO `" +:+ tableName +:+ "` (") +:+ columnsText schema
       +:+ (")" +:+ nl +:+ "VALUES" +:+ nl)).
Proof. unfold GenerateSQL, columnsText. by rewrite !sapp_assoc. Qed.

Lemma GenerateSQL_stream tableName schema him rdr w outs hs' rounds :
  stream (NewReader rdr) (handles w) outs hs' ->
  inRange schema him outs ->
  length outs < rounds ->
  GenerateSQL rounds tableName schema him rdr w
  = Returns ("INSERT INTO `" +:+ tableName +:+ "` (" +:+ columnsText schema
             +:+ ")" +:+ nl +:+ "VALUES" +:+ nl
             +:+ rowsText 0 schema him outs +:+ ";" +:+ nl,
             World (files w) hs' (console w ++ warnings 0 outs)).
Proof.
  intros Hs Hr Hlt. rewrite GenerateSQL_unfold.
  rewrite (GenerateSQL_loop_stream _ _ _ _ _ _ Hs Hr _ _ _ Hlt).
  by rewrite !sapp_assoc.
Qed.

(** Good rows in range: the statement. *)
Lemma GenerateSQL_good_rows tableName schema him rdr w rows hs' rounds :
  stream (NewReader rdr) (handles w) (map good rows) hs' ->
  (forall row column,
     row ∈ rows -> column ∈ schema ->
     mapIndex him (ColumnFrom column) < length row) ->
  length rows < rounds ->
  GenerateSQL rounds tableName schema him rdr w
  = Returns (statementText tableName schema him rows, set_handles hs' w).
Proof.
  intros Hs Hr Hlt.
  rewrite (GenerateSQL_stream _ _ _ _ _ _ _ _ Hs).
  - rewrite rowsText_good, warnings_good, app_nil_r.
    unfold statementText, set_handles. f_equal. f_equal.
    destruct rows; [done|]. cbv iota. by rewrite sapp_nil_l.
  - intros row column Hin Hc. apply Hr; [|done]. by apply elem_of_map_good.
  - by rewrite length_map.
Qed.




(** ** Absent columns *)

(** C2 as stated fails: "email" is no header, the lookup gives 0, and the
    tuple has the row's first field; nothing is logged. *)
Lemma absent_column_resolves_to_zero :
  let schema := [mkSchema "email" "varchar" "mail" "VARCHAR"] in
  let him := MapHeadersToSchema usersHeaders schema in
  him !! "email" = None
  /\ mapIndex him "email" = 0
  /\ GenerateSQL 2 "users" schema him
       (BytesReader (bytes_of (textLines ["1,Alice"]))) emptyWorld
     = Returns ("INSERT INTO `users` (`mail`)" +:+ nl
                +:+ "VALUES" +:+ nl +:+ "('1');" +:+ nl, emptyWorld).
Proof. vm_compute. repeat split; reflexivity. Qed.

(** C2 (amended): for a schema entry whose ColumnFrom is absent from the
    header index map the lookup gives position 0, nothing fails, and the
    value written for the entry is the first field of the row. *)
Theorem absent_column_takes_first_field
    (him : gmap string nat) column rest j n row outputSQL value :
  him !! ColumnFrom column = None ->
  row !! 0 = Some value ->
  mapIndex him (ColumnFrom column) = 0
  /\ resolved him row column = value
  /\ writeValues (column :: rest) j n him row outputSQL
     = writeValues rest (S j) n him row
         (if j <? n - 1 then (outputSQL +:+ ("'" +:+ value +:+ "'")) +:+ ", "
          else outputSQL +:+ ("'" +:+ value +:+ "'")).
Proof.
  intros Habs Hrow.
  assert (H0 : mapIndex him (ColumnFrom column) = 0)
    by (unfold mapIndex; by rewrite Habs).
  split; [done|]. split.
  - unfold resolved. by rewrite H0, Hrow.
  - cbn [writeValues]. rewrite H0, Hrow. cbn [mbind option_bind].
    by rewrite convertData_id.
Qed.

Lemma absent_column_takes_first_field_email :
  let him := MapHeadersToSchema usersHeaders [] in
  let column := mkSchema "email" "varchar" "mail" "VARCHAR" in
  him !! "email" = None
  /\ resolved him ["1"; "Alice"] column = "1"
  /\ writeValues [column] 0 1 him ["1"; "Alice"] "(" = Some "('1'".
Proof.
  intros him column.
  assert (Habs : him !! ColumnFrom column = None) by (vm_compute; reflexivity).
  destruct (absent_column_takes_first_field him column [] 0 1 ["1"; "Alice"]
              "(" "1" Habs eq_refl) as (_ & Hres & Hw).
  split; [exact Habs|]. split; [exact Hres|]. rewrite Hw. reflexivity.
Defined.

(** ** Bad rows *)

(** The warnings are the failed reads, each with its position. *)
Lemma warnings_spec outs i j e :
  FailedToReadRow j e ∈ warnings i outs
  <-> exists k row, j = i + k /\ outs !! k = Some (row, Some e).
Proof.
  revert i. induction outs as [|[row [e'|]] rest IH]; intros i; cbn [warnings].
  - split; [intros H; by apply elem_of_nil in H | intros (k & row & _ & H); done].
  - rewrite elem_of_cons, IH. split.
    + intros [Heq|(k & row' & -> & Hk)].
      * injection Heq as -> ->. exists 0, row. split; [lia | done].
      * exists (S k), row'. split; [lia | done].
    + intros (k & row' & -> & Hk). destruct k as [|k].
      * left. simpl in Hk. injection Hk as -> ->. f_equal. lia.
      * right. exists k, row'. split; [lia | done].
  - rewrite IH. split.
    + intros (k & row' & -> & Hk). exists (S k), row'. split; [lia | done].
    + intros (k & row' & -> & Hk). destruct k as [|k]; [done|].
      exists k, row'. split; [lia | done].
Qed.

(** ** The schema file *)

Lemma schemaOfRecords_short records result record :
  record ∈ records -> length record < 4 ->
  schemaOfRecords records result = None.
Proof.
  revert result. induction records as [|column rest IH]; intros result Hin Hlen.
  - by apply elem_of_nil in Hin.
  - cbn [schemaOfRecords].
    destruct (column !! 0) as [c0|]; [|done].
    destruct (column !! 1) as [c1|]; [|done].
    destruct (column !! 2) as [c2|]; [|done].
    destruct (column !! 3) as [c3|] eqn:H3; [|done].
    cbn [mbind option_bind].
    apply elem_of_cons in Hin as [->|Hin].
    + apply lookup_lt_Some in H3. lia.
    + by apply IH.
Qed.

(** C6 (what the code does): when the records of the schema file all
    pass the CSV reader, which takes the number of fields of the first
    record as the number for all, and one of them has fewer than four
    fields, [ReadSchema] panics on [column[k]]; it returns no error. *)
Theorem ReadSchema_short_record_panics name w data records hs' :
  files w !! name = Some data ->
  ReadAll (NewReader (FileReader (length (handles w))))
    (handles w ++ [File name data false]) = Some (records, None, hs') ->
  (exists record, record ∈ records /\ length record < 4) ->
  ReadSchema name w = Panics.
Proof.
  intros Hf Hall (record & Hin & Hlen).
  unfold ReadSchema, Open. rewrite Hf.
  cbn [set_handles handles]. rewrite Hall.
  by rewrite (schemaOfRecords_short _ _ _ Hin Hlen).
Qed.

Lemma ReadSchema_three_fields_panics :
  ReadSchema "schema.csv" (sampleWorld "" (textLines ["id,int,user_id"])) = Panics.
Proof.
  apply (ReadSchema_short_record_panics "schema.csv" _
           (bytes_of (textLines ["id,int,user_id"]))
           [["id"; "int"; "user_id"]]
           [File "schema.csv" [] false]).
  - vm_compute. reflexivity.
  - vm_compute. reflexivity.
  - exists ["id"; "int"; "user_id"]. split; [by left | simpl; lia].
Defined.

(** A short record behind a record of four fields is turned down by the
    CSV reader, and [ReadSchema] returns the error. *)
Example ReadSchema_mixed_records_error :
  ReadSchema "schema.csv"
    (sampleWorld "" (textLines ["id,int,user_id,BIGINT"; "name,varchar,full_name"]))
  = Returns (inr (Errorf "failed to read schema file" (ParseError 2 ErrFieldCount)),
             World (files (sampleWorld "" (textLines ["id,int,user_id,BIGINT";
                                                      "name,varchar,full_name"])))
                   [File "schema.csv" [] true] []).
Proof. vm_compute. reflexivity. Qed.

(** ** Determinism *)

(** The row loop reads the open files and nothing else of the world, and
    what it returns does not depend on the rounds it was allowed. *)
Lemma GenerateSQL_loop_deterministic rounds1 :
  forall rounds2 i schema him c w1 w2 outputSQL sql1 w1' sql2 w2',
    handles w1 = handles w2 ->
    GenerateSQL_loop rounds1 i schema him c w1 outputSQL = Returns (sql1, w1') ->
    GenerateSQL_loop rounds2 i schema him c w2 outputSQL = Returns (sql2, w2') ->
    sql1 = sql2 /\ handles w1' = handles w2'.
Proof.
  induction rounds1 as [|k1 IH];
    intros [|k2] i schema him c w1 w2 out sql1 w1' sql2 w2' Hh H1 H2;
    try discriminate.
  cbn [GenerateSQL_loop] in H1, H2. rewrite <- Hh in H2.
  destruct (csvRead c (handles w1)) as [[[[row err] c'] hs']|]; [|discriminate].
  destruct (isEOF err).
  - injection H1 as <- <-. injection H2 as <- <-. done.
  - destruct err as [e|].
    + eapply IH; [|exact H1|exact H2]. reflexivity.
    + destruct (writeValues schema 0 (length schema) him row _) as [out'|];
        [|discriminate].
      eapply IH; [|exact H1|exact H2]. reflexivity.
Qed.

(** ** The input file handle *)

Lemma Read_MultiReader n rs hs :
  Read (MultiReader rs) n hs = multiRead n rs hs.
Proof.
  revert hs. induction rs as [|r0 rest IH]; intros hs; [done|].
  cbn [multiRead Read].
  destruct (Read r0 n hs) as [[[p err] r0'] hs'].
  destruct (negb (length p =? 0) || negb (isEOF err)); [reflexivity|].
  exact (IH hs').
Qed.

(** A read of a closed file fails and changes nothing. *)
Lemma FileRead_closed fd n hs f :
  hs !! fd = Some f -> f_closed f = true ->
  FileRead fd n hs = ([], Some (PathError "read" (f_name f) ErrClosed), hs).
Proof. intros Hf Hc. unfold FileRead. by rewrite Hf, Hc. Qed.

(** What [ReadInputFile] returns for a file that is there and not empty:
    the at most three peeked bytes without the mark, then the file, whose
    handle is closed. *)
Lemma ReadInputFile_result name w data :
  files w !! name = Some data -> data <> [] ->
  ReadInputFile name w
  = (inl (MultiReader
            [BytesReader (removeBOM (copyInto [x00; x00; x00] (take 3 data)));
             FileReader (length (handles w))]),
     set_handles (handles w ++ [File name (drop 3 data) true]) w).
Proof.
  intros Hf Hne. unfold ReadInputFile, Open. rewrite Hf.
  cbn [set_handles handles files console].
  unfold ReadInputFile_body, FileRead.
  rewrite list_lookup_middle by done.
  cbn [f_closed f_rest f_name length Nat.eqb].
  destruct data as [|b0 data']; [done|].
  unfold Close.
  rewrite list_lookup_insert_eq by (rewrite length_app; simpl; lia).
  cbn [f_name f_rest].
  rewrite list_insert_insert_eq.
  replace (length (handles w)) with (length (handles w) + 0) at 2 by lia.
  rewrite insert_app_r. reflexivity.
Qed.

(** C1 (what the code does): the handle that [ReadInputFile] opens and
    peeks is the one inside the reader it returns, and it is closed by the
    time [ReadInputFile] has returned: every later read of it fails, so
    nothing of the file behind the peeked bytes can be read. *)
Theorem ReadInputFile_closes_before_return name w data :
  files w !! name = Some data -> data <> [] ->
  exists b hs',
    ReadInputFile name w
    = (inl (MultiReader [BytesReader b; FileReader (length (handles w))]),
       set_handles hs' w)
    /\ hs' !! length (handles w) = Some (File name (drop 3 data) true)
    /\ forall n,
         Read (FileReader (length (handles w))) n hs'
         = ([], Some (PathError "read" name ErrClosed),
            FileReader (length (handles w)), hs').
Proof.
  intros Hf Hne. eexists _, _. split; [by apply ReadInputFile_result|].
  assert (Hl : (handles w ++ [File name (drop 3 data) true]) !! length (handles w)
               = Some (File name (drop 3 data) true))
    by (by rewrite list_lookup_middle).
  split; [done|]. intros n. cbn [Read].
  by rewrite (FileRead_closed _ _ _ _ Hl eq_refl).
Qed.

Lemma ReadInputFile_closes_users :
  exists b hs',
    ReadInputFile "in.csv" (sampleWorld usersInput usersSchemaText)
    = (inl (MultiReader [BytesReader b; FileReader 0]),
       set_handles hs' (sampleWorld usersInput usersSchemaText))
    /\ hs' !! 0 = Some (File "in.csv" (drop 3 (bytes_of usersInput)) true)
    /\ forall n,
         Read (FileReader 0) n hs'
         = ([], Some (PathError "read" "in.csv" ErrClosed), FileReader 0, hs').
Proof.
  apply (ReadInputFile_closes_before_return "in.csv"
           (sampleWorld usersInput usersSchemaText) (bytes_of usersInput)).
  - vm_compute. reflexivity.
  - vm_compute. discriminate.
Defined.

(** The run on the specification's example: the header cannot be read,
    and no SQL file is written. *)
Example main_users_fails :
  main 5 ["convert"; "users"; "in.csv"; "schema.csv"]
    (sampleWorld usersInput usersSchemaText)
  = Returns
      (World (files (sampleWorld usersInput usersSchemaText))
         [File "schema.csv" [] true;
          File "in.csv" (drop 3 (bytes_of usersInput)) true]
         [PrintErr (Errorf "failed to read headers from input file"
                      (PathError "read" "in.csv" ErrClosed))]).
Proof. vm_compute. reflexivity. Qed.

(** ** The logical stream *)

Lemma removeBOM_length data : length (removeBOM data) <= length data.
Proof.
  unfold removeBOM. destruct (_ && _); [rewrite length_drop|]; lia.
Qed.

Lemma peek_length (data : bytes) :
  length (removeBOM (copyInto [x00; x00; x00] (take 3 data))) <= 3.
Proof.
  etrans; [apply removeBOM_length|]. unfold copyInto.
  rewrite length_app, length_drop, length_take. cbn [length]. lia.
Qed.

(** With the mark in front the peeked bytes are all dropped; with three
    other bytes in front they are all kept. *)
Lemma peek_BOM (rest : bytes) :
  removeBOM (copyInto [x00; x00; x00] (take 3 (BOM ++ rest))) = [].
Proof. reflexivity. Qed.

Lemma removeBOM_BOM (rest : bytes) : removeBOM (BOM ++ rest) = rest.
Proof. reflexivity. Qed.

(** Reading to the end a stream of a few bytes and a closed file: the
    bytes, and the error of the closed file. *)
Lemma ioReadAll_closed b fd hs f rounds :
  hs !! fd = Some f -> f_closed f = true ->
  length b <= 512 -> 2 <= rounds ->
  ioReadAll rounds (MultiReader [BytesReader b; FileReader fd]) hs []
  = Some (b, Some (PathError "read" (f_name f) ErrClosed),
          MultiReader [FileReader fd], hs).
Proof.
  intros Hf Hc Hb Hr.
  destruct rounds as [|[|k]]; [lia|lia|].
  destruct b as [|b0 b'].
  - cbn [ioReadAll]. rewrite Read_MultiReader.
    cbn [multiRead Read BytesRead isEOF length Nat.eqb negb orb].
    rewrite (FileRead_closed _ _ _ _ Hf Hc).
    reflexivity.
  - cbn [ioReadAll]. rewrite Read_MultiReader.
    cbn [multiRead Read BytesRead isEOF].
    rewrite take_ge, drop_ge by done.
    cbn [length Nat.eqb negb orb andb app].
    rewrite Read_MultiReader.
    cbn [multiRead Read BytesRead isEOF length Nat.eqb negb orb].
    rewrite (FileRead_closed _ _ _ _ Hf Hc).
    cbn [isEOF length Nat.eqb negb orb andb]. by rewrite app_nil_r.
Qed.

(** C5 (what the code does): the logical stream that [ReadInputFile]
    returns holds the at most three peeked bytes, without the mark, and then
    fails with the error of the closed file: the bytes of the input behind
    the first three are not in it. *)
Theorem ReadInputFile_stream_cut name w data rounds :
  files w !! name = Some data -> data <> [] -> 2 <= rounds ->
  exists rdr hs',
    ReadInputFile name w = (inl rdr, set_handles hs' w)
    /\ ioReadAll rounds rdr hs' []
       = Some (removeBOM (copyInto [x00; x00; x00] (take 3 data)),
               Some (PathError "read" name ErrClosed),
               MultiReader [FileReader (length (handles w))], hs').
Proof.
  intros Hf Hne Hr. eexists _, _. split; [by apply ReadInputFile_result|].
  apply (ioReadAll_closed _ _ _ (File name (drop 3 data) true)); try done.
  - by rewrite list_lookup_middle.
  - etrans; [apply peek_length|]. lia.
Qed.

Lemma ReadInputFile_stream_cut_BOM :
  exists rdr hs',
    ReadInputFile "in.csv"
      (World {["in.csv" := BOM ++ bytes_of usersInput]} [] [])
    = (inl rdr,
       set_handles hs' (World {["in.csv" := BOM ++ bytes_of usersInput]} [] []))
    /\ ioReadAll 2 rdr hs' []
       = Some ([], Some (PathError "read" "in.csv" ErrClosed),
               MultiReader [FileReader 0], hs').
Proof.
  apply (ReadInputFile_stream_cut "in.csv"
           (World {["in.csv" := BOM ++ bytes_of usersInput]} [] [])
           (BOM ++ bytes_of usersInput) 2).
  - vm_compute. reflexivity.
  - discriminate.
  - lia.
Defined.

(** Without the mark: the first three bytes and no more. *)
Example ReadInputFile_stream_cut_users :
  let w := sampleWorld usersInput usersSchemaText in
  match ReadInputFile "in.csv" w with
  | (inl rdr, w') =>
      ioReadAll 2 rdr (handles w') []
      = Some (bytes_of "id,", Some (PathError "read" "in.csv" ErrClosed),
              MultiReader [FileReader 0], handles w')
  | _ => False
  end.
Proof. vm_compute. reflexivity. Qed.

(** A file of one byte: the peek buffer keeps its two zero bytes, and
    they are in the stream. *)
Example ReadInputFile_short_file_padded :
  let w := World {["in.csv" := bytes_of "a"]} [] [] in
  fst (ReadInputFile "in.csv" w)
  = inl (MultiReader [BytesReader [x61; x00; x00]; FileReader 0]).
Proof. vm_compute. reflexivity. Qed.

(** ** Reads consume what is available *)

(** Induction over readers, through the list of a MultiReader. *)
Lemma reader_induction (P : reader -> Prop) :
  (forall s, P (BytesReader s)) ->
  (forall fd, P (FileReader fd)) ->
  (forall rs, Forall P rs -> P (MultiReader rs)) ->
  forall rdr, P rdr.
Proof.
  intros Hb Hf Hm. fix IH 1. intros [s|fd|rs].
  - apply Hb.
  - apply Hf.
  - apply Hm. induction rs as [|r0 rest IHrs]; constructor; [apply IH | exact IHrs].
Qed.

Lemma avail_MultiReader_cons r0 rest hs :
  avail (MultiReader (r0 :: rest)) hs = avail r0 hs + avail (MultiReader rest) hs.
Proof. reflexivity. Qed.

(** Open files only get shorter: what any reader can still deliver does
    not grow. *)
Lemma avail_mono hs hs' :
  (forall fd, avail (FileReader fd) hs' <= avail (FileReader fd) hs) ->
  forall rdr, avail rdr hs' <= avail rdr hs.
Proof.
  intros Hle. induction rdr as [s|fd|rs IH] using reader_induction.
  - done.
  - apply Hle.
  - induction IH as [|r0 rest H0 _ IHrest]; [done|].
    rewrite !avail_MultiReader_cons. lia.
Qed.

Lemma FileRead_avail fd n hs p err hs' :
  FileRead fd n hs = (p, err, hs') ->
  length p + avail (FileReader fd) hs' <= avail (FileReader fd) hs
  /\ (forall fd', avail (FileReader fd') hs' <= avail (FileReader fd') hs)
  /\ isBufferFull err = false
  /\ (0 < n -> err = None -> 0 < length p).
Proof.
  unfold FileRead. cbn [avail].
  destruct (hs !! fd) as [f|] eqn:Hf.
  2: { intros [= <- <- <-]. rewrite Hf. repeat split; [simpl; lia|done|done]. }
  destruct (f_closed f) eqn:Hc.
  { intros [= <- <- <-]. rewrite Hf, Hc. repeat split; [simpl; lia|done|done]. }
  destruct (n =? 0) eqn:Hn.
  { intros [= <- <- <-]. rewrite Hf, Hc. apply Nat.eqb_eq in Hn.
    repeat split; [simpl; lia|done|lia]. }
  destruct (f_rest f) as [|b0 rest] eqn:Hr.
  { intros [= <- <- <-]. rewrite Hf, Hc, Hr. repeat split; [simpl; lia|done|done]. }
  intros [= <- <- <-].
  assert (Hfd : fd < length hs) by (by eapply lookup_lt_Some).
  split; [|split; [|split]].
  - rewrite list_lookup_insert_eq by done. cbn [f_closed f_rest].
    rewrite length_take, length_drop. lia.
  - intros fd'. destruct (decide (fd = fd')) as [<-|Hne].
    + rewrite list_lookup_insert_eq, Hf, Hc by done. cbn [f_closed f_rest].
      rewrite Hr, length_drop. lia.
    + by rewrite list_lookup_insert_ne.
  - done.
  - intros _ _. apply Nat.eqb_neq in Hn. rewrite length_take. simpl. lia.
Qed.

(** A read gives bytes out of what was available, never the error of a
    full buffer, and with room in its buffer never nothing without an
    error. *)
Lemma Read_avail rdr :
  forall n hs p err rdr' hs',
    Read rdr n hs = (p, err, rdr', hs') ->
    length p + avail rdr' hs' <= avail rdr hs
    /\ (forall fd, avail (FileReader fd) hs' <= avail (FileReader fd) hs)
    /\ isBufferFull err = false
    /\ (0 < n -> err = None -> 0 < length p).
Proof.
  induction rdr as [s|fd|rs IH] using reader_induction;
    intros n hs p err rdr' hs' H.
  - cbn [Read BytesRead] in H. destruct s as [|b0 s'].
    + injection H as <- <- <- <-. repeat split; [simpl; lia|done|done].
    + injection H as <- <- <- <-. cbn [avail].
      rewrite length_take, length_drop.
      repeat split; [lia|done|]. intros Hn _. simpl. lia.
  - cbn [Read] in H.
    destruct (FileRead fd n hs) as [[p1 e1] hs1] eqn:Hfr.
    injection H as <- <- <- <-. by apply FileRead_avail in Hfr.
  - rewrite Read_MultiReader in H. revert hs H.
    induction IH as [|r0 rest H0 _ IHrest]; intros hs H.
    + injection H as <- <- <- <-. repeat split; [simpl; lia|done|done].
    + cbn [multiRead] in H.
      destruct (Read r0 n hs) as [[[p1 e1] r1] hs1] eqn:Hr0.
      destruct (H0 _ _ _ _ _ _ Hr0) as (Ha & Hm & Hb & Hp).
      pose proof (avail_mono _ _ Hm (MultiReader rest)) as Hrest.
      rewrite avail_MultiReader_cons.
      destruct (negb (length p1 =? 0) || negb (isEOF e1)) eqn:Hret.
      * injection H as <- <- <- <-. split; [|split; [done|split]].
        -- destruct (isEOF e1); [|rewrite avail_MultiReader_cons]; lia.
        -- destruct (isEOF e1 && _); [done|exact Hb].
        -- intros Hn Herr. destruct e1 as [e|]; [|by apply Hp].
           destruct e; try discriminate Herr.
           cbn [isEOF negb orb] in Hret. rewrite orb_false_r in Hret.
           apply negb_true_iff, Nat.eqb_neq in Hret. lia.
      * destruct (IHrest _ H) as (Ha' & Hm' & Hb' & Hp').
        split; [lia|]. split; [|done].
        intros fd. etrans; [apply Hm'|apply Hm].
Qed.

(** ** One step of the loops *)

Lemma fill_loop_S i b hs :
  fill_loop (S i) b hs
  = let '(p, err, r', hs') := Read (rd b) (size b - length (buf b)) hs in
    match err with
    | Some e => (Bufio r' (buf b ++ p) (Some e) (size b), hs')
    | None =>
        if 0 <? length p then (Bufio r' (buf b ++ p) (berr b) (size b), hs')
        else fill_loop i (Bufio r' (buf b ++ p) (berr b) (size b)) hs'
    end.
Proof. reflexivity. Qed.

Ltac parseField_cases H k IH :=
  repeat match type of H with
         | Some _ = Some _ => injection H as <-; cbn; intros; first [done | lia]
         | None = Some _ => discriminate H
         | parseField k _ _ _ _ _ _ _ _ = Some _ =>
             eapply IH; [..|exact H]; first [done | lia]
         | context [match ?x with _ => _ end] =>
             lazymatch x with
             | readLine _ _ _ => fail
             | _ => destruct x eqn:?
             end
         end.

(** The field loop never hands on EOF as an error. *)
Lemma parseField_not_EOF rounds :
  forall mode recLine line errRead fields b n hs p,
    isEOF errRead = false ->
    parseField rounds mode recLine line errRead fields b n hs = Some p ->
    isEOF (p_err p) = false /\ isEOF (p_errRead p) = false.
Proof.
  induction rounds as [|k IH];
    intros mode recLine line errRead fields b n hs p Her H; [done|].
  cbn [parseField] in H.
  parseField_cases H k IH.
  destruct (readLine b n hs) as [[[[[l1 e1] b1] n1] hs1]|]; [|done].
  cbn [mbind option_bind] in H.
  eapply IH; [|exact H]. by destruct e1 as [[]|].
Qed.

(** A record without error has a field more than the loop started with. *)
Lemma parseField_good_fields rounds :
  forall mode recLine line errRead fields b n hs p,
    parseField rounds mode recLine line errRead fields b n hs = Some p ->
    p_err p = None -> p_errRead p = None ->
    length fields < length (p_fields p).
Proof.
  induction rounds as [|k IH];
    intros mode recLine line errRead fields b n hs p H; [done|].
  cbn [parseField] in H.
  repeat match type of H with
         | Some _ = Some _ =>
             injection H as <-; cbn [p_err p_errRead p_fields]; intros;
             first [done | rewrite length_app; simpl; lia]
         | None = Some _ => discriminate H
         | parseField k _ _ _ _ (?fs ++ _) _ _ _ = Some _ =>
             intros He Hr; pose proof (IH _ _ _ _ _ _ _ _ _ H He Hr) as Hlt;
             rewrite length_app in Hlt; simpl in Hlt; lia
         | parseField k _ _ _ _ _ _ _ _ = Some _ =>
             intros He Hr; exact (IH _ _ _ _ _ _ _ _ _ H He Hr)
         | context [match ?x with _ => _ end] =>
             lazymatch x with
             | readLine _ _ _ => fail
             | _ => destruct x eqn:?
             end
         end.
  destruct (readLine b n hs) as [[[[[l1 e1] b1] n1] hs1]|]; [|done].
  cbn [mbind option_bind] in H.
  intros He Hr. exact (IH _ _ _ _ _ _ _ _ _ H He Hr).
Qed.

Lemma parseRecord_record b n hs dst err recLine b' n' hs' :
  parseRecord b n hs = Some (RawRecord dst err recLine, b', n', hs') ->
  isEOF err = false /\ (err = None -> 0 < length dst).
Proof.
  intros H. unfold parseRecord in H.
  destruct (skipEmpty _ b n hs) as [[[[[l1 e1] b1] n1] hs1]|]; [|done].
  cbn [mbind option_bind] in H.
  destruct (isEOF e1) eqn:He1; [done|].
  destruct (parseField _ _ _ _ _ _ _ _ _) as [p|] eqn:Hp; [|done].
  cbn [mbind option_bind] in H. injection H as <- <- <- <- <- <-.
  destruct (parseField_not_EOF _ _ _ _ _ _ _ _ _ _ He1 Hp) as [Hpe Hpr].
  pose proof (parseField_good_fields _ _ _ _ _ _ _ _ _ _ Hp) as Hlen.
  destruct (p_err p) as [e|].
  - split; [done|]. discriminate.
  - split; [done|]. intros Hr. specialize (Hlen eq_refl Hr). simpl in Hlen. lia.
Qed.

(** [readRecord] is its first part followed by the look at the number
    of fields. *)
Lemma readRecord_unfold c hs :
  csvRead c hs
  = match parseRecord (r c) (numLine c) hs with
    | Some (RawEOF, b', n', hs') =>
        Some ([], Some EOF, CsvReader b' (FieldsPerRecord c) n', hs')
    | Some (RawRecord dst err recLine, b', n', hs') =>
        Some (dst, (checkFields (FieldsPerRecord c) dst err recLine).1,
              CsvReader b' (checkFields (FieldsPerRecord c) dst err recLine).2 n',
              hs')
    | None => None
    end.
Proof.
  unfold csvRead, readRecord.
  destruct (parseRecord (r c) (numLine c) hs) as [[[[rec b'] n'] hs']|]; [|done].
  cbn [mbind option_bind]. destruct rec as [|dst err recLine]; [done|].
  by destruct (checkFields _ _ _ _).
Qed.

(** ** The errors of the reader under the buffer *)

Section ReadErrors.

(** A property [Inv] of the reader under the buffer that every read
    keeps, and a set [E] of results for the error, with "no error"
    among them, that every read under [Inv] stays in. *)
Variable Inv : reader -> fdtable -> Prop.
Variable E : option error -> Prop.

Hypothesis Read_Inv :
  forall rdr n hs p err rdr' hs',
    Inv rdr hs -> Read rdr n hs = (p, err, rdr', hs') ->
    Inv rdr' hs' /\ E err.

Hypothesis E_None : E None.

(** With room in the buffer the first read of [fill] gives bytes or an
    error; the other tries are not needed. *)
Lemma fill_Inv b hs b' hs' :
  Inv (rd b) hs -> E (berr b) -> length (buf b) < size b ->
  fill b hs = (b', hs') ->
  Inv (rd b') hs' /\ E (berr b').
Proof.
  intros HI He Hroom. unfold fill, maxConsecutiveEmptyReads.
  rewrite fill_loop_S.
  destruct (Read (rd b) (size b - length (buf b)) hs)
    as [[[p err] rdr'] hs1] eqn:Hread.
  destruct (Read_Inv _ _ _ _ _ _ _ HI Hread) as [HI' Herr].
  destruct (Read_avail _ _ _ _ _ _ _ Hread) as (_ & _ & _ & Hp).
  destruct err as [e|].
  - intros [= <- <-]. done.
  - replace (0 <? length p) with true
      by (symmetry; apply Nat.ltb_lt, Hp; [lia | done]).
    intros [= <- <-]. done.
Qed.

Lemma ReadSlice_loop_Inv rounds delim : forall b hs line err b' hs',
  Inv (rd b) hs -> E (berr b) ->
  ReadSlice_loop rounds delim b hs = Some (line, err, b', hs') ->
  Inv (rd b') hs' /\ E (berr b') /\ (E err \/ isBufferFull err = true).
Proof.
  induction rounds as [|k IH]; intros b hs line err b' hs' HI He H; [done|].
  cbn [ReadSlice_loop] in H.
  destruct (IndexByte (buf b) delim) as [i|].
  { injection H as <- <- <- <-. eauto. }
  destruct (berr b) as [e|] eqn:Hb.
  { injection H as <- <- <- <-. eauto. }
  destruct (size b <=? length (buf b)) eqn:Hfull.
  { injection H as <- <- <- <-. eauto. }
  apply Nat.leb_gt in Hfull.
  destruct (fill b hs) as [b1 hs1] eqn:Hfill.
  assert (He0 : E (berr b)) by (by rewrite Hb).
  destruct (fill_Inv _ _ _ _ HI He0 Hfull Hfill) as [HI1 He1].
  eapply IH; [..|exact H]; done.
Qed.

Lemma ReadSlice_Inv delim b hs line err b' hs' :
  Inv (rd b) hs -> E (berr b) ->
  ReadSlice delim b hs = Some (line, err, b', hs') ->
  Inv (rd b') hs' /\ E (berr b') /\ (E err \/ isBufferFull err = true).
Proof. apply ReadSlice_loop_Inv. Qed.

Lemma readLine_more_Inv rounds : forall b hs line err b' hs',
  Inv (rd b) hs -> E (berr b) ->
  readLine_more rounds b hs = Some (line, err, b', hs') ->
  Inv (rd b') hs' /\ E (berr b') /\ E err.
Proof.
  induction rounds as [|k IH]; intros b hs line err b' hs' HI He H; [done|].
  cbn [readLine_more] in H.
  destruct (ReadSlice LF b hs) as [[[[l1 e1] b1] hs1]|] eqn:Hs; [|done].
  cbn [mbind option_bind] in H.
  destruct (ReadSlice_Inv _ _ _ _ _ _ _ HI He Hs) as (HI1 & He1 & Herr1).
  destruct (isBufferFull e1) eqn:Hfull.
  - destruct (readLine_more k b1 hs1) as [[[[l2 e2] b2] hs2]|] eqn:Hm; [|done].
    cbn [mbind option_bind] in H. injection H as <- <- <- <-.
    eapply IH; [..|exact Hm]; done.
  - injection H as <- <- <- <-. destruct Herr1 as [Herr1|Herr1]; [done|congruence].
Qed.

Lemma readLine_Inv b n hs line err b' n' hs' :
  Inv (rd b) hs -> E (berr b) ->
  readLine b n hs = Some (line, err, b', n', hs') ->
  Inv (rd b') hs' /\ E (berr b') /\ E err.
Proof.
  intros HI He H. unfold readLine in H.
  destruct (readLine_more _ b hs) as [[[[l1 e1] b1] hs1]|] eqn:Hm; [|done].
  cbn [mbind option_bind] in H.
  destruct (readLine_more_Inv _ _ _ _ _ _ _ HI He Hm) as (HI1 & He1 & Herr1).
  destruct ((0 <? length l1) && isEOF e1);
    injection H as <- <- <- <- <-; done.
Qed.

Lemma skipEmpty_Inv rounds : forall b n hs line err b' n' hs',
  Inv (rd b) hs -> E (berr b) ->
  skipEmpty rounds b n hs = Some (line, err, b', n', hs') ->
  Inv (rd b') hs' /\ E (berr b') /\ E err.
Proof.
  induction rounds as [|k IH]; intros b n hs line err b' n' hs' HI He H; [done|].
  cbn [skipEmpty] in H.
  destruct (readLine b n hs) as [[[[[l1 e1] b1] n1] hs1]|] eqn:Hl; [|done].
  cbn [mbind option_bind] in H.
  destruct (readLine_Inv _ _ _ _ _ _ _ _ HI He Hl) as (HI1 & He1 & Herr1).
  destruct e1 as [e|].
  - injection H as <- <- <- <- <-. done.
  - destruct (length l1 =? lengthNL l1).
    + eapply IH; [..|exact H]; done.
    + injection H as <- <- <- <- <-. done.
Qed.

Lemma parseField_Inv rounds :
  forall mode recLine line errRead fields b n hs p,
    Inv (rd b) hs -> E (berr b) -> E errRead ->
    parseField rounds mode recLine line errRead fields b n hs = Some p ->
    Inv (rd (p_r p)) (p_handles p) /\ E (berr (p_r p)) /\ E (p_errRead p).
Proof.
  induction rounds as [|k IH];
    intros mode recLine line errRead fields b n hs p HI He Her H; [done|].
  cbn [parseField] in H.
  repeat match type of H with
         | Some _ = Some _ => injection H as <-; cbn; done
         | None = Some _ => discriminate H
         | parseField k _ _ _ _ _ _ _ _ = Some _ =>
             eapply IH; [..|exact H]; done
         | context [match ?x with _ => _ end] =>
             lazymatch x with
             | readLine _ _ _ => fail
             | _ => destruct x eqn:?
             end
         end.
  destruct (readLine b n hs) as [[[[[l1 e1] b1] n1] hs1]|] eqn:Hl; [|done].
  cbn [mbind option_bind] in H.
  destruct (readLine_Inv _ _ _ _ _ _ _ _ HI He Hl) as (HI1 & He1 & Herr1).
  eapply IH; [..|exact H]; try done. by destruct (isEOF e1).
Qed.

(** The first part of [readRecord]: the reader is kept, and a record
    comes from a line whose read error was in [E] and not EOF. *)
Lemma parseRecord_Inv b n hs rec b' n' hs' :
  Inv (rd b) hs -> E (berr b) ->
  parseRecord b n hs = Some (rec, b', n', hs') ->
  Inv (rd b') hs' /\ E (berr b')
  /\ exists line errRead b1 n1 hs1,
       skipEmpty (S (pending b hs)) b n hs = Some (line, errRead, b1, n1, hs1)
       /\ E errRead
       /\ (rec = RawEOF <-> isEOF errRead = true).
Proof.
  intros HI He H. unfold parseRecord in H.
  destruct (skipEmpty _ b n hs) as [[[[[l1 e1] b1] n1] hs1]|] eqn:Hs; [|done].
  cbn [mbind option_bind] in H.
  destruct (skipEmpty_Inv _ _ _ _ _ _ _ _ _ HI He Hs) as (HI1 & He1 & Herr1).
  destruct (isEOF e1) eqn:Heof.
  - injection H as <- <- <- <-. split; [done|]. split; [done|].
    eexists _, _, _, _, _. split; [reflexivity|]. split; [done|]. by rewrite Heof.
  - destruct (parseField _ _ _ _ _ _ _ _ _) as [p|] eqn:Hp; [|done].
    cbn [mbind option_bind] in H. injection H as <- <- <- <-.
    destruct (parseField_Inv _ _ _ _ _ _ _ _ _ _ HI1 He1 Herr1 Hp)
      as (HI2 & He2 & _).
    split; [done|]. split; [done|].
    eexists _, _, _, _, _. split; [reflexivity|]. split; [done|].
    rewrite Heof. split; discriminate.
Qed.

Lemma csvRead_Inv c hs row err c' hs' :
  Inv (rd (r c)) hs -> E (berr (r c)) ->
  csvRead c hs = Some (row, err, c', hs') ->
  Inv (rd (r c')) hs' /\ E (berr (r c')).
Proof.
  intros HI He H. rewrite readRecord_unfold in H.
  destruct (parseRecord (r c) (numLine c) hs) as [[[[rec b1] n1] hs1]|] eqn:Hp;
    [|done].
  destruct (parseRecord_Inv _ _ _ _ _ _ _ HI He Hp) as (HI1 & He1 & _).
  destruct rec; injection H as <- <- <- <-; done.
Qed.

End ReadErrors.

(** ** Readers that never reach EOF *)

Section NeverEOF.

(** A property of the reader under the buffer that every read keeps, and
    under which no read returns EOF. *)
Variable Inv : reader -> fdtable -> Prop.

Hypothesis Read_Inv :
  forall rdr n hs p err rdr' hs',
    Inv rdr hs -> Read rdr n hs = (p, err, rdr', hs') ->
    Inv rdr' hs' /\ isEOF err = false.

Lemma csvRead_never_EOF c hs row err c' hs' :
  Inv (rd (r c)) hs -> isEOF (berr (r c)) = false ->
  csvRead c hs = Some (row, err, c', hs') ->
  Inv (rd (r c')) hs' /\ isEOF (berr (r c')) = false /\ isEOF err = false.
Proof.
  intros HI He H.
  destruct (csvRead_Inv Inv (fun err => isEOF err = false) Read_Inv eq_refl
              _ _ _ _ _ _ HI He H) as [HI1 He1].
  split; [done|]. split; [done|].
  rewrite readRecord_unfold in H.
  destruct (parseRecord (r c) (numLine c) hs) as [[[[rec b1] n1] hs1]|] eqn:Hp;
    [|done].
  destruct (parseRecord_Inv Inv (fun err => isEOF err = false) Read_Inv eq_refl
              _ _ _ _ _ _ _ HI He Hp)
    as (_ & _ & line & errRead & b2 & n2 & hs2 & _ & Herr & Heof).
  destruct rec as [|dst e l].
  - destruct Heof as [Heof _]. rewrite Heof in Herr; done.
  - injection H as <- <- <- <-.
    destruct (parseRecord_record _ _ _ _ _ _ _ _ _ Hp) as [Hne _].
    unfold checkFields. destruct (0 <? FieldsPerRecord c); cbn [fst]; [|done].
    by destruct (negb _ && negb _).
Qed.

(** On such a reader the row loop never finds the end of its input: it
    does not return. *)
Lemma GenerateSQL_loop_Inv rounds :
  forall i schema him c w outputSQL res,
    Inv (rd (r c)) (handles w) -> isEOF (berr (r c)) = false ->
    GenerateSQL_loop rounds i schema him c w outputSQL <> Returns res.
Proof.
  induction rounds as [|k IH]; intros i schema him c w out res HI He; [done|].
  cbn [GenerateSQL_loop].
  destruct (csvRead c (handles w)) as [[[[row err] c'] hs']|] eqn:Hread; [|done].
  destruct (csvRead_never_EOF _ _ _ _ _ _ HI He Hread) as (HI1 & He1 & Herr).
  rewrite Herr. destruct err as [e|].
  - by apply IH.
  - destruct (writeValues _ _ _ _ _ _); [|done]. by apply IH.
Qed.

End NeverEOF.

(** ** The run never writes its file *)

(** A read of a stream over a closed file keeps it one, and is never at
    EOF: it gives bytes or the error of the closed file. *)
Lemma Read_closedStream rdr n hs p err rdr' hs' :
  closedStream rdr hs -> Read rdr n hs = (p, err, rdr', hs') ->
  closedStream rdr' hs' /\ isEOF err = false.
Proof.
  intros (fd & f & Hf & Hc & [->|[s ->]]) H; rewrite Read_MultiReader in H.
  - cbn [multiRead Read] in H. rewrite (FileRead_closed _ _ _ _ Hf Hc) in H.
    cbn [isEOF length Nat.eqb negb orb andb] in H.
    injection H as <- <- <- <-. split; [|done].
    exists fd, f. eauto.
  - cbn [multiRead Read] in H. destruct s as [|b0 s'].
    + cbn [BytesRead isEOF length Nat.eqb negb orb andb] in H.
      rewrite (FileRead_closed _ _ _ _ Hf Hc) in H.
      cbn [isEOF length Nat.eqb negb orb andb] in H.
      injection H as <- <- <- <-. split; [|done].
      exists fd, f. eauto.
    + cbn [BytesRead isEOF negb orb andb] in H.
      rewrite orb_true_r in H.
      injection H as <- <- <- <-. split; [|done].
      exists fd, f. eauto 6.
Qed.

(** [ReadSchema] and [ReadInputFile] leave the file system and the
    console as they are. *)
Lemma ReadSchema_frame name w x w1 :
  ReadSchema name w = Returns (x, w1) ->
  files w1 = files w /\ console w1 = console w.
Proof.
  unfold ReadSchema, Open. destruct (files w !! name) as [data|].
  - destruct (ReadAll _ _) as [[[schema [e|]] hs2]|]; try discriminate.
    + intros [= <- <-]. done.
    + destruct (schemaOfRecords schema []); [|discriminate].
      intros [= <- <-]. done.
  - intros [= <- <-]. done.
Qed.

Lemma ReadInputFile_frame name w res w2 :
  ReadInputFile name w = (res, w2) ->
  files w2 = files w /\ console w2 = console w
  /\ forall rdr, res = inl rdr -> closedStream rdr (handles w2).
Proof.
  destruct (files w !! name) as [data|] eqn:Hf.
  - destruct data as [|b0 data'].
    + unfold ReadInputFile, Open. rewrite Hf.
      cbn [set_handles handles files console].
      unfold ReadInputFile_body, FileRead.
      rewrite list_lookup_middle by done.
      cbn [f_closed f_rest f_name length Nat.eqb].
      intros [= <- <-]. done.
    + rewrite (ReadInputFile_result _ _ _ Hf) by done.
      intros [= <- <-]. repeat split.
      intros rdr [= <-]. cbn [set_handles handles].
      eexists _, _. split; [by apply list_lookup_middle|].
      split; [done|]. right. eauto.
  - unfold ReadInputFile, Open. rewrite Hf. intros [= <- <-]. done.
Qed.

Lemma ParseHeaders_unfold rdr hs :
  ParseHeaders rdr hs
  = match csvRead (NewReader rdr) hs with
    | Some (headers, Some e, c', hs') =>
        Some (inr (Errorf "failed to read headers from input file" e),
              rd (r c'), hs')
    | Some (headers, None, c', hs') => Some (inl headers, rd (r c'), hs')
    | None => None
    end.
Proof.
  unfold ParseHeaders.
  by destruct (csvRead (NewReader rdr) hs) as [[[[headers [e|]] c'] hs']|].
Qed.

(** [ParseHeaders] on such a stream leaves such a stream. *)
Lemma ParseHeaders_closedStream rdr hs res rdr' hs' :
  closedStream rdr hs ->
  ParseHeaders rdr hs = Some (res, rdr', hs') ->
  closedStream rdr' hs'.
Proof.
  intros HI H. rewrite ParseHeaders_unfold in H.
  destruct (csvRead (NewReader rdr) hs) as [[[[headers err] c'] hs1]|] eqn:Hread;
    [|done].
  destruct (csvRead_never_EOF closedStream Read_closedStream (NewReader rdr)
              _ _ _ _ _ HI eq_refl Hread)
    as (HI1 & _ & _).
  destruct err; injection H as <- <- <-; done.
Qed.

Lemma GenerateSQL_closedStream rounds tableName schema him rdr w res :
  closedStream rdr (handles w) ->
  GenerateSQL rounds tableName schema him rdr w <> Returns res.
Proof.
  intros HI. unfold GenerateSQL.
  by apply (GenerateSQL_loop_Inv closedStream Read_closedStream).
Qed.

(** Whatever the arguments and the files: when [main] returns it has
    printed an error and has written no file.  (When it does not return,
    the row loop is reading the closed file over and over.) *)
Theorem main_never_generates rounds osArgs w w' :
  main rounds osArgs w = Returns w' ->
  files w' = files w /\ exists err, console w' = console w ++ [PrintErr err].
Proof.
  unfold main. destruct (ParseArgs osArgs) as [args|err].
  2: { intros [= <-]. eauto. }
  destruct (ReadSchema (SchemaFileName args) w) as [[[schema|err] w1]| |] eqn:Hs;
    try discriminate.
  2: { apply ReadSchema_frame in Hs as [Hf Hc].
       intros [= <-]. cbn [Println files console]. rewrite Hf, Hc. eauto. }
  apply ReadSchema_frame in Hs as [Hf Hc].
  destruct (ReadInputFile (InputFileName args) w1) as [[rdr|err] w2] eqn:Hi.
  2: { apply ReadInputFile_frame in Hi as (Hf2 & Hc2 & _).
       intros [= <-]. cbn [Println files console].
       rewrite Hf2, Hc2, Hf, Hc. eauto. }
  apply ReadInputFile_frame in Hi as (Hf2 & Hc2 & Hcl).
  specialize (Hcl rdr eq_refl).
  destruct (ParseHeaders rdr (handles w2)) as [[[[headers|err] rdr'] hs3]|] eqn:Hp;
    try discriminate.
  2: { intros [= <-]. cbn [Println set_handles files console].
       rewrite Hf2, Hc2, Hf, Hc. eauto. }
  apply (ParseHeaders_closedStream _ _ _ _ _ Hcl) in Hp.
  destruct (GenerateSQL _ _ _ _ _ _) as [res| |] eqn:Hg; try discriminate.
  exfalso. revert Hg. by apply GenerateSQL_closedStream.
Qed.

(** ** The row loop on a closed file *)

Section ClosedFile.

(** A reader whose every read fails with [e] and leaves [rdr']. *)
Variables (rdr rdr' : reader) (hs : fdtable) (e : error).

Hypothesis Read_fails : forall n, Read rdr n hs = ([], Some e, rdr', hs).

Hypothesis e_not_special : isEOF (Some e) = false /\ isBufferFull (Some e) = false.

Lemma fill_fails sz :
  fill (Bufio rdr [] None sz) hs = (Bufio rdr' [] (Some e) sz, hs).
Proof.
  unfold fill, maxConsecutiveEmptyReads.
  rewrite fill_loop_S. cbn [rd buf size berr]. by rewrite Read_fails.
Qed.

Lemma ReadSlice_fails sz :
  0 < sz ->
  ReadSlice LF (Bufio rdr [] None sz) hs
  = Some ([], Some e, Bufio rdr' [] None sz, hs).
Proof.
  intros Hsz. unfold ReadSlice. cbn [size]. rewrite (Nat.add_comm sz 2).
  cbn [Nat.add ReadSlice_loop buf IndexByte berr size length].
  replace (sz <=? 0) with false by (symmetry; apply Nat.leb_gt; lia).
  rewrite fill_fails. reflexivity.
Qed.

Lemma readLine_fails sz n :
  0 < sz ->
  readLine (Bufio rdr [] None sz) n hs
  = Some ([], Some e, Bufio rdr' [] None sz, S n, hs).
Proof.
  intros Hsz. destruct e_not_special as [He Hb].
  unfold readLine. cbn [readLine_more].
  rewrite (ReadSlice_fails _ Hsz). cbn [mbind option_bind]. rewrite Hb.
  reflexivity.
Qed.

Lemma parseRecord_fails sz n :
  0 < sz ->
  parseRecord (Bufio rdr [] None sz) n hs
  = Some (RawRecord [""] (Some e) (S n), Bufio rdr' [] None sz, S n, hs).
Proof.
  intros Hsz. destruct e_not_special as [He Hb].
  unfold parseRecord. cbn [skipEmpty].
  rewrite (readLine_fails _ _ Hsz). cbn [mbind option_bind]. rewrite He.
  reflexivity.
Qed.

Lemma csvRead_fails sz fpr n :
  0 < sz ->
  csvRead (CsvReader (Bufio rdr [] None sz) fpr n) hs
  = Some ([""], Some e,
          CsvReader (Bufio rdr' [] None sz) (if 0 <? fpr then fpr else 1) (S n),
          hs).
Proof.
  intros Hsz. unfold csvRead, readRecord. cbn [r numLine FieldsPerRecord].
  rewrite (parseRecord_fails _ _ Hsz). cbn [mbind option_bind].
  unfold checkFields. destruct (0 <? fpr); [|reflexivity].
  rewrite bool_decide_eq_true_2 by eauto. by rewrite andb_false_r.
Qed.

End ClosedFile.

Lemma Read_closed_file fd f hs n :
  hs !! fd = Some f -> f_closed f = true ->
  Read (MultiReader [FileReader fd]) n hs
  = ([], Some (PathError "read" (f_name f) ErrClosed),
     MultiReader [FileReader fd], hs).
Proof.
  intros Hf Hc. rewrite Read_MultiReader. cbn [multiRead Read].
  by rewrite (FileRead_closed _ _ _ _ Hf Hc).
Qed.

Lemma Read_closed_file_after_bytes fd f hs n :
  hs !! fd = Some f -> f_closed f = true ->
  Read (MultiReader [BytesReader []; FileReader fd]) n hs
  = ([], Some (PathError "read" (f_name f) ErrClosed),
     MultiReader [FileReader fd], hs).
Proof.
  intros Hf Hc. rewrite Read_MultiReader. cbn [multiRead Read BytesRead].
  cbn [isEOF length Nat.eqb negb orb].
  by rewrite (FileRead_closed _ _ _ _ Hf Hc).
Qed.

(** With the file closed the row loop gets the same error from every
    read, logs it and reads again: it is running after any number of
    rounds. *)
Lemma GenerateSQL_loop_closed_file rounds fd f :
  forall i schema him fpr n w outputSQL,
    handles w !! fd = Some f -> f_closed f = true ->
    GenerateSQL_loop rounds i schema him
      (CsvReader (Bufio (MultiReader [FileReader fd]) [] None defaultBufSize) fpr n)
      w outputSQL
    = Running.
Proof.
  induction rounds as [|k IH]; intros i schema him fpr n w out Hf Hc; [done|].
  cbn [GenerateSQL_loop].
  rewrite (csvRead_fails _ _ _ _ (fun n => Read_closed_file fd f _ n Hf Hc)
             (conj eq_refl eq_refl) defaultBufSize fpr n)
    by (unfold defaultBufSize; lia).
  cbn [isEOF]. by apply IH.
Qed.

Lemma GenerateSQL_closed_file rounds tableName schema him fd f w :
  handles w !! fd = Some f -> f_closed f = true ->
  GenerateSQL rounds tableName schema him
    (MultiReader [BytesReader []; FileReader fd]) w
  = Running.
Proof.
  intros Hf Hc. rewrite GenerateSQL_unfold.
  destruct rounds as [|k]; [done|].
  cbn [GenerateSQL_loop]. unfold NewReader, NewBufio.
  rewrite (csvRead_fails _ _ _ _
             (fun n => Read_closed_file_after_bytes fd f _ n Hf Hc)
             (conj eq_refl eq_refl) defaultBufSize 0 0)
    by (unfold defaultBufSize; lia).
  cbn [isEOF]. by apply (GenerateSQL_loop_closed_file _ _ f).
Qed.

(** An input whose header is within the first three bytes: the header is
    read, and the row loop does not end, however many rounds it gets. *)
Example main_short_header_runs_on rounds :
  main rounds ["convert"; "t"; "in.csv"; "schema.csv"]
    (sampleWorld (textLines ["a"; "1"]) (textLines ["a,int,b,BIGINT"]))
  = Running.
Proof.
  unfold main.
  replace (ParseArgs _) with (@inl Args error (mkArgs "t" "in.csv" "schema.csv"))
    by reflexivity.
  cbn [SchemaFileName InputFileName TableName].
  destruct (ReadSchema _ _) as [[[schema|err] w1]| |] eqn:Hs;
    vm_compute in Hs; try discriminate Hs.
  injection Hs as <- <-.
  destruct (ReadInputFile "in.csv" _) as [[rdr|err] w2] eqn:Hi;
    vm_compute in Hi; try discriminate Hi.
  injection Hi as <- <-.
  destruct (ParseHeaders _ _) as [[[[headers|err] rdr1] hs3]|] eqn:Hp;
    vm_compute in Hp; try discriminate Hp.
  injection Hp as <- <- <-.
  rewrite (GenerateSQL_closed_file _ _ _ _ 1 (File "in.csv" [LF] true));
    reflexivity.
Qed.

(** ** The expected number of fields *)

Lemma checkFields_judge k dst err recLine :
  0 < k ->
  checkFields k dst err recLine = ((judge k (dst, err, recLine)).2, k).
Proof.
  intros Hk. unfold checkFields, judge.
  replace (0 <? k) with true by (symmetry; by apply Nat.ltb_lt).
  destruct err as [e|]; cbn [snd].
  - by rewrite andb_false_r.
  - by destruct (length dst =? k).
Qed.

(** Once the expected number is set, every record is judged against it,
    and it stays. *)
Lemma stream_judged b n hs raws hs' :
  rawstream b n hs raws hs' ->
  forall k, 0 < k ->
    stream (CsvReader b k n) hs (map (judge k) raws) hs'.
Proof.
  induction 1 as [b n hs b' n' hs' Hp
                 |b n hs dst err recLine b' n' hs' outs hs'' Hp Hs IH];
    intros k Hk.
  - eapply stream_EOF. rewrite readRecord_unfold. cbn [r numLine].
    rewrite Hp. reflexivity.
  - cbn [map]. eapply (stream_next _ _ dst _ (CsvReader b' k n')).
    + rewrite readRecord_unfold. cbn [r numLine FieldsPerRecord].
      rewrite Hp, (checkFields_judge _ _ _ _ Hk). cbn [fst snd].
      unfold judge. reflexivity.
    + destruct (parseRecord_record _ _ _ _ _ _ _ _ _ Hp) as [He _].
      destruct err as [e|]; [done|]. by destruct (length dst =? k).
    + by apply IH.
Qed.

Lemma judge_uniform k raws :
  uniform k raws -> map (judge k) raws = map good (map (fun raw => raw.1.1) raws).
Proof.
  induction raws as [|[[dst err] recLine] rest IH]; intros Hu; [done|].
  cbn [map]. destruct (Hu dst err recLine) as [-> Hlen]; [by left|].
  rewrite IH.
  - unfold judge, good. cbn [fst]. by rewrite Hlen, Nat.eqb_refl.
  - intros d e l Hin. apply (Hu d e l). by right.
Qed.

(** Whatever the expected number is, the outcomes are the records
    judged one after the other. *)
Lemma stream_judgeFrom b n hs raws hs' :
  rawstream b n hs raws hs' ->
  forall fpr, stream (CsvReader b fpr n) hs (judgeFrom fpr raws) hs'.
Proof.
  induction 1 as [b n hs b' n' hs' Hp
                 |b n hs dst err recLine b' n' hs' outs hs'' Hp Hs IH];
    intros fpr.
  - eapply stream_EOF. rewrite readRecord_unfold. cbn [r numLine].
    rewrite Hp. reflexivity.
  - cbn [judgeFrom].
    eapply (stream_next _ _ dst _ (CsvReader b' (checkFields fpr dst err recLine).2 n')).
    + rewrite readRecord_unfold. cbn [r numLine FieldsPerRecord].
      rewrite Hp. reflexivity.
    + destruct (parseRecord_record _ _ _ _ _ _ _ _ _ Hp) as [He _].
      unfold checkFields. destruct (0 <? fpr); cbn [fst]; [|done].
      by destruct (negb _ && negb _).
    + apply IH.
Qed.

(** A record without error has a field. *)
Lemma rawstream_fields b n hs raws hs' :
  rawstream b n hs raws hs' ->
  forall dst recLine, (dst, None, recLine) ∈ raws -> 0 < length dst.
Proof.
  induction 1 as [|b n hs dst err recLine b' n' hs' outs hs'' Hp Hs IH];
    intros d l Hin.
  - by apply elem_of_nil in Hin.
  - apply elem_of_cons in Hin as [Heq|Hin]; [|by eapply IH].
    injection Heq as -> <- ->.
    destruct (parseRecord_record _ _ _ _ _ _ _ _ _ Hp) as [_ Hlen]. by apply Hlen.
Qed.

Lemma judgeFrom_set k raws :
  0 < k -> judgeFrom k raws = map (judge k) raws.
Proof.
  intros Hk. induction raws as [|[[dst err] recLine] rest IH]; [done|].
  cbn [judgeFrom map]. rewrite (checkFields_judge _ _ _ _ Hk). cbn [fst snd].
  rewrite IH. unfold judge. reflexivity.
Qed.

(** With the number set to [k]: the records accepted are those without
    error and with [k] fields. *)
Lemma judge_good k dst err recLine :
  judge k (dst, err, recLine) = good dst <-> err = None /\ length dst = k.
Proof.
  unfold judge, good. destruct err as [e|].
  - split; [discriminate | by intros [? _]].
  - destruct (length dst =? k) eqn:Hk.
    + apply Nat.eqb_eq in Hk. done.
    + apply Nat.eqb_neq in Hk. split; [discriminate | by intros [_ ?]].
Qed.

Lemma firstGood_judge k raws row :
  firstGood (map (judge k) raws) = Some row -> length row = k.
Proof.
  induction raws as [|[[dst err] recLine] rest IH]; [done|].
  cbn [map judge firstGood]. destruct err as [e|]; [done|].
  destruct (length dst =? k) eqn:Hk; [|done].
  intros [= <-]. by apply Nat.eqb_eq.
Qed.

Lemma judged_lookup k raws j dst err recLine (row : list string) :
  raws !! j = Some (dst, err, recLine) ->
  length row = k ->
  map (judge k) raws !! j = Some (good dst)
  <-> err = None /\ length dst = length row.
Proof.
  intros Hj Hk. rewrite list_lookup_fmap, Hj. cbn [fmap option_fmap option_map].
  rewrite Hk. split.
  - intros H%(inj Some). by apply (judge_good k dst err recLine).
  - intros H. f_equal. by apply judge_good.
Qed.

(** From a reader whose number is not yet set: the records accepted are
    those without error and with as many fields as the first record
    accepted. *)
Lemma judgeFrom_first raws :
  (forall dst recLine, (dst, None, recLine) ∈ raws -> 0 < length dst) ->
  forall row,
    firstGood (judgeFrom 0 raws) = Some row ->
    forall j dst err recLine,
      raws !! j = Some (dst, err, recLine) ->
      judgeFrom 0 raws !! j = Some (good dst)
      <-> err = None /\ length dst = length row.
Proof.
  induction raws as [|[[d e] l] rest IH]; intros Hwf row Hfirst j dst err recLine Hj;
    [done|].
  cbn [judgeFrom checkFields Nat.ltb Nat.leb fst snd] in Hfirst |- *.
  assert (Hwf' : forall dst recLine, (dst, None, recLine) ∈ rest -> 0 < length dst)
    by (intros; eapply Hwf; by right).
  destruct e as [e|].
  - (* the first record fails: it sets the number to the fields it got *)
    cbn [firstGood] in Hfirst.
    destruct j as [|j].
    + injection Hj as <- <- <-. split; [discriminate | by intros [? _]].
    + cbn [lookup list_lookup] in Hj |- *.
      destruct (length d) as [|p] eqn:Hp.
      * exact (IH Hwf' row Hfirst j dst err recLine Hj).
      * rewrite judgeFrom_set in Hfirst |- * by lia.
        apply (judged_lookup _ _ _ _ _ _ _ Hj).
        by apply firstGood_judge in Hfirst.
  - (* the first record is read: it sets the number *)
    cbn [firstGood] in Hfirst. injection Hfirst as <-.
    assert (Hd : 0 < length d) by (eapply Hwf; by left).
    destruct j as [|j].
    + injection Hj as <- <- <-. done.
    + cbn [lookup list_lookup] in Hj |- *.
      rewrite judgeFrom_set by done.
      by apply (judged_lookup _ _ _ _ _ _ _ Hj).
Qed.

Lemma judgeFrom_records fpr raws :
  map fst (judgeFrom fpr raws) = map (fun raw => raw.1.1) raws.
Proof.
  revert fpr. induction raws as [|[[d e] l] rest IH]; intros fpr; [done|].
  cbn [judgeFrom map fst]. by rewrite IH.
Qed.

Lemma judgeFrom_uniform k raws :
  0 < k -> uniform k raws ->
  judgeFrom 0 raws = map good (map (fun raw => raw.1.1) raws).
Proof.
  intros Hk Hu. destruct raws as [|[[d e] l] rest]; [done|].
  destruct (Hu d e l) as [-> Hd]; [by left|].
  cbn [judgeFrom checkFields Nat.ltb Nat.leb fst snd map].
  rewrite Hd, judgeFrom_set by done.
  rewrite judge_uniform; [done|].
  intros d' e' l' Hin. apply (Hu d' e' l'). by right.
Qed.

(** C10: [GenerateSQL] reads the rows with a CSV reader of its own, whose
    expected number of fields is not set; the header does not come into
    it.  The records it accepts are those without a parse error that have
    as many fields as the first record it accepts; a first data row without
    error is that record.  Rows that all have the same number of fields,
    whatever the length of the header, are all accepted: every row is
    written and nothing is logged. *)
Theorem field_count_fixed_by_first_row rdr hs raws hs' :
  rawstream (NewBufio rdr) 0 hs raws hs' ->
  FieldsPerRecord (NewReader rdr) = 0
  /\ stream (NewReader rdr) hs (judgeFrom 0 raws) hs'
  /\ map fst (judgeFrom 0 raws) = map (fun raw => raw.1.1) raws
  /\ (forall row,
        firstGood (judgeFrom 0 raws) = Some row ->
        forall j dst err recLine,
          raws !! j = Some (dst, err, recLine) ->
          judgeFrom 0 raws !! j = Some (good dst)
          <-> err = None /\ length dst = length row)
  /\ (forall row1 line1 rest,
        raws = (row1, None, line1) :: rest ->
        judgeFrom 0 raws = good row1 :: map (judge (length row1)) rest)
  /\ (forall k,
        uniform k raws ->
        judgeFrom 0 raws = map good (map (fun raw => raw.1.1) raws)
        /\ forall headers tableName schema w rounds,
             handles w = hs ->
             (forall column, column ∈ schema ->
                mapIndex (MapHeadersToSchema headers schema) (ColumnFrom column)
                < k) ->
             length raws < rounds ->
             GenerateSQL rounds tableName schema
               (MapHeadersToSchema headers schema) rdr w
             = Returns (statementText tableName schema
                          (MapHeadersToSchema headers schema)
                          (map (fun raw => raw.1.1) raws),
                        set_handles hs' w)).
Proof.
  intros Hraw.
  pose proof (stream_judgeFrom _ _ _ _ _ Hraw 0) as Hstream.
  pose proof (rawstream_fields _ _ _ _ _ Hraw) as Hwf.
  split; [reflexivity|]. split; [exact Hstream|].
  split; [apply judgeFrom_records|].
  split; [by apply judgeFrom_first|]. split.
  - intros row1 line1 rest ->.
    assert (H1 : 0 < length row1) by (eapply Hwf; by left).
    cbn [judgeFrom checkFields Nat.ltb Nat.leb fst snd].
    by rewrite judgeFrom_set.
  - intros k Hu.
    assert (Hgood : judgeFrom 0 raws = map good (map (fun raw => raw.1.1) raws)).
    { destruct raws as [|[[d e] l] rest] eqn:Hr; [done|]. rewrite <- Hr in *.
      apply (judgeFrom_uniform k); [|done].
      destruct (Hu d e l) as [-> <-]; [rewrite Hr; by left|].
      eapply Hwf. rewrite Hr. by left. }
    split; [exact Hgood|].
    intros headers tableName schema w rounds <- Hr Hlt.
    rewrite Hgood in Hstream.
    apply (GenerateSQL_good_rows tableName schema _ rdr w
             (map (fun raw => raw.1.1) raws) hs' rounds Hstream).
    + intros row column Hrow Hcol.
      apply list_elem_of_fmap in Hrow as ([[d e] l] & -> & Hin).
      destruct (Hu d e l Hin) as [_ Hd]. cbn [fst]. rewrite Hd. by apply Hr.
    + by rewrite length_map.
Qed.

(** A header of three fields and rows of two: both rows are written and
    nothing is logged. *)
Lemma field_count_fixed_users :
  GenerateSQL 3 "users" usersSchema
    (MapHeadersToSchema ["id"; "name"; "email"] usersSchema)
    (BytesReader (bytes_of (textLines ["1,Alice"; "2,Bob"]))) emptyWorld
  = Returns ("INSERT INTO `users` (`user_id`, `full_name`)" +:+ nl
             +:+ "VALUES" +:+ nl
             +:+ "('1', 'Alice')," +:+ nl
             +:+ "('2', 'Bob');" +:+ nl, emptyWorld).
Proof.
  assert (Hraw : rawstream
                   (NewBufio (BytesReader (bytes_of (textLines ["1,Alice"; "2,Bob"]))))
                   0 [] [(["1"; "Alice"], None, 1); (["2"; "Bob"], None, 2)] []).
  { apply (readRaws_rawstream 4). vm_compute. reflexivity. }
  destruct (field_count_fixed_by_first_row _ _ _ _ Hraw)
    as (_ & _ & _ & _ & _ & Hu).
  destruct (Hu 2) as [_ Hgen].
  - intros dst err recLine Hin.
    apply elem_of_cons in Hin as [Hin|Hin];
      [|apply list_elem_of_singleton in Hin]; injection Hin as -> -> ->; done.
  - rewrite (Hgen ["id"; "name"; "email"] "users" usersSchema emptyWorld 3).
    + reflexivity.
    + reflexivity.
    + intros column Hcol. unfold usersSchema in Hcol.
      apply elem_of_cons in Hcol as [->|Hcol];
        [|apply list_elem_of_singleton in Hcol as ->]; vm_compute; lia.
    + simpl. lia.
Defined.

(** Rows of two fields, then one of three: the third is judged against
    the first and turned down. *)
Example field_count_judged_users :
  readOutcomes 5
    (NewReader (BytesReader (bytes_of (textLines ["1,Alice"; "2,Bob,x"; "3,Carol"]))))
    []
  = Some ([good ["1"; "Alice"];
           (["2"; "Bob"; "x"], Some (ParseError 2 ErrFieldCount));
           good ["3"; "Carol"]], []).
Proof. vm_compute. reflexivity. Qed.

(** A first row that fails after its first field leaves 1 as the
    expected number: rows of two fields are then turned down. *)
Example field_count_after_bad_first_row :
  readOutcomes 5
    (NewReader (BytesReader
       (bytes_of (textLines ["1,Ali" +:+ String (ascii_of_nat 34) "ce"; "2,Bob"]))))
    []
  = Some ([(["1"], Some (ParseError 1 ErrBareQuote));
           (["2"; "Bob"], Some (ParseError 2 ErrFieldCount))], []).
Proof. vm_compute. reflexivity. Qed.

(** ** What the loops of the CSV reader consume *)

Ltac tidy :=
  repeat match goal with |- _ /\ _ => split end;
  try done; try lia; try congruence; try (simpl; lia).

Lemma IndexByte_lt l c i : IndexByte l c = Some i -> i < length l.
Proof.
  revert i. induction l as [|x t IH]; intros i; [done|].
  cbn [IndexByte]. destruct (Byte.eqb x c).
  - intros [= <-]. simpl. lia.
  - destruct (IndexByte t c) as [j|]; [|done].
    intros [= <-]. specialize (IH j eq_refl). simpl. lia.
Qed.

Lemma fill_pending b hs b' hs' :
  sound b -> length (buf b) < size b ->
  fill b hs = (b', hs') ->
  pending b' hs' <= pending b hs /\ sound b' /\ size b' = size b
  /\ (berr b' = None -> length (buf b) < length (buf b')).
Proof.
  intros [Hsz Hfull] Hroom. unfold fill, maxConsecutiveEmptyReads.
  rewrite fill_loop_S.
  destruct (Read (rd b) (size b - length (buf b)) hs)
    as [[[p err] rdr'] hs1] eqn:Hread.
  destruct (Read_avail _ _ _ _ _ _ _ Hread) as (Ha & _ & Hb & Hp).
  destruct err as [e|].
  - intros [= <- <-]. unfold pending, sound. cbn [buf rd size berr].
    rewrite length_app. tidy.
  - replace (0 <? length p) with true
      by (symmetry; apply Nat.ltb_lt, Hp; [lia | done]).
    intros [= <- <-]. unfold pending, sound. cbn [buf rd size berr].
    rewrite length_app. specialize (Hp ltac:(lia) eq_refl). tidy.
Qed.

Lemma ReadSlice_loop_pending rounds delim : forall b hs line err b' hs',
  sound b ->
  ReadSlice_loop rounds delim b hs = Some (line, err, b', hs') ->
  length line + pending b' hs' <= pending b hs /\ sound b' /\ size b' = size b
  /\ (err = None -> 0 < length line)
  /\ (isBufferFull err = true -> 0 < length line).
Proof.
  induction rounds as [|k IH]; intros b hs line err b' hs' Hsound H; [done|].
  cbn [ReadSlice_loop] in H.
  destruct (IndexByte (buf b) delim) as [i|] eqn:Hi.
  { apply IndexByte_lt in Hi. injection H as <- <- <- <-.
    unfold pending, sound. cbn [buf rd size berr].
    rewrite length_take, length_drop. destruct Hsound. tidy. }
  destruct Hsound as [Hsz Hfull].
  destruct (berr b) as [e|] eqn:Hb.
  { injection H as <- <- <- <-. unfold pending, sound. cbn [buf rd size berr].
    tidy. }
  destruct (size b <=? length (buf b)) eqn:Hroom.
  { apply Nat.leb_le in Hroom. injection H as <- <- <- <-.
    unfold pending, sound. cbn [buf rd size berr].
    tidy. }
  apply Nat.leb_gt in Hroom.
  destruct (fill b hs) as [b1 hs1] eqn:Hfill.
  assert (Hs0 : sound b) by (split; [done | by rewrite Hb]).
  destruct (fill_pending _ _ _ _ Hs0 Hroom Hfill) as (Hp1 & Hs1 & Hsz1 & _).
  destruct (IH _ _ _ _ _ _ Hs1 H) as (Hp2 & Hs2 & Hsz2 & Hn & Hf).
  tidy.
Qed.

Lemma ReadSlice_pending delim b hs line err b' hs' :
  sound b ->
  ReadSlice delim b hs = Some (line, err, b', hs') ->
  length line + pending b' hs' <= pending b hs /\ sound b' /\ size b' = size b
  /\ (err = None -> 0 < length line)
  /\ (isBufferFull err = true -> 0 < length line).
Proof. apply ReadSlice_loop_pending. Qed.

Lemma readLine_more_pending rounds : forall b hs line err b' hs',
  sound b ->
  readLine_more rounds b hs = Some (line, err, b', hs') ->
  length line + pending b' hs' <= pending b hs /\ sound b' /\ size b' = size b
  /\ (err = None -> 0 < length line).
Proof.
  induction rounds as [|k IH]; intros b hs line err b' hs' Hsound H; [done|].
  cbn [readLine_more] in H.
  destruct (ReadSlice LF b hs) as [[[[l1 e1] b1] hs1]|] eqn:Hs; [|done].
  cbn [mbind option_bind] in H.
  destruct (ReadSlice_pending _ _ _ _ _ _ _ Hsound Hs) as (Hp1 & Hs1 & Hsz1 & Hn1 & _).
  destruct (isBufferFull e1).
  - destruct (readLine_more k b1 hs1) as [[[[l2 e2] b2] hs2]|] eqn:Hm; [|done].
    cbn [mbind option_bind] in H. injection H as <- <- <- <-.
    destruct (IH _ _ _ _ _ _ Hs1 Hm) as (Hp2 & Hs2 & Hsz2 & Hn2).
    rewrite length_app. tidy. intros He. specialize (Hn2 He). lia.
  - injection H as <- <- <- <-. done.
Qed.

(** A line that came without error was cut from what was pending. *)
Lemma readLine_pending b n hs line err b' n' hs' :
  sound b ->
  readLine b n hs = Some (line, err, b', n', hs') ->
  length line + pending b' hs' <= pending b hs /\ sound b' /\ size b' = size b
  /\ (err = None -> pending b' hs' < pending b hs).
Proof.
  intros Hsound H. unfold readLine in H.
  destruct (readLine_more _ b hs) as [[[[l1 e1] b1] hs1]|] eqn:Hm; [|done].
  cbn [mbind option_bind] in H.
  destruct (readLine_more_pending _ _ _ _ _ _ _ Hsound Hm) as (Hp & Hs1 & Hsz & Hn).
  assert (Hlen : forall l : bytes,
             length (if (2 <=? length l) && Byte.eqb (byteAt l (length l - 2)) CR
                        && Byte.eqb (byteAt l (length l - 1)) LF
                     then take (length l - 2) l ++ [LF] else l) <= length l).
  { intros l.
    match goal with |- context [if ?c then _ else _] => destruct c eqn:Hc end;
      [|lia].
    apply andb_true_iff in Hc as [Hc _]. apply andb_true_iff in Hc as [Hc _].
    apply Nat.leb_le in Hc. rewrite length_app, length_take. simpl. lia. }
  destruct ((0 <? length l1) && isEOF e1) eqn:Hc.
  - apply andb_true_iff in Hc as [Hpos _]. apply Nat.ltb_lt in Hpos.
    injection H as <- <- <- <- <-.
    split; [|split; [done|split; [done|intros _; lia]]].
    etrans; [apply Nat.add_le_mono_r, Hlen|].
    destruct (Byte.eqb _ _); [rewrite length_take|]; lia.
  - injection H as <- <- <- <- <-.
    split; [|split; [done|split; [done|]]].
    + etrans; [apply Nat.add_le_mono_r, Hlen|]. lia.
    + intros He. specialize (Hn He). lia.
Qed.

Lemma skipEmpty_pending rounds : forall b n hs line err b' n' hs',
  sound b ->
  skipEmpty rounds b n hs = Some (line, err, b', n', hs') ->
  length line + pending b' hs' <= pending b hs /\ sound b' /\ size b' = size b
  /\ (err = None -> pending b' hs' < pending b hs).
Proof.
  induction rounds as [|k IH]; intros b n hs line err b' n' hs' Hsound H; [done|].
  cbn [skipEmpty] in H.
  destruct (readLine b n hs) as [[[[[l1 e1] b1] n1] hs1]|] eqn:Hl; [|done].
  cbn [mbind option_bind] in H.
  destruct (readLine_pending _ _ _ _ _ _ _ _ Hsound Hl) as (Hp1 & Hs1 & Hsz1 & Hn1).
  destruct e1 as [e|].
  - injection H as <- <- <- <- <-. done.
  - destruct (length l1 =? lengthNL l1).
    + destruct (IH _ _ _ _ _ _ _ _ Hs1 H) as (Hp2 & Hs2 & Hsz2 & Hn2).
      specialize (Hn1 eq_refl). tidy.
    + injection H as <- <- <- <- <-. done.
Qed.

Lemma parseField_pending rounds :
  forall mode recLine line errRead fields b n hs p,
    sound b ->
    parseField rounds mode recLine line errRead fields b n hs = Some p ->
    pending (p_r p) (p_handles p) <= pending b hs /\ sound (p_r p).
Proof.
  induction rounds as [|k IH];
    intros mode recLine line errRead fields b n hs p Hsound H; [done|].
  cbn [parseField] in H.
  repeat match type of H with
         | Some _ = Some _ => injection H as <-; cbn; done
         | None = Some _ => discriminate H
         | parseField k _ _ _ _ _ _ _ _ = Some _ =>
             eapply IH; [..|exact H]; done
         | context [match ?x with _ => _ end] =>
             lazymatch x with
             | readLine _ _ _ => fail
             | _ => destruct x eqn:?
             end
         end.
  destruct (readLine b n hs) as [[[[[l1 e1] b1] n1] hs1]|] eqn:Hl; [|done].
  cbn [mbind option_bind] in H.
  destruct (readLine_pending _ _ _ _ _ _ _ _ Hsound Hl) as (Hp1 & Hs1 & _).
  destruct (IH _ _ _ _ _ _ _ _ _ Hs1 H) as [Hp2 Hs2].
  split; [lia | done].
Qed.

(** ** The loops of the CSV reader end within their rounds *)

Lemma ReadSlice_loop_Some rounds delim : forall b hs,
  sound b -> 1 <= rounds ->
  (berr b = None -> size b - length (buf b) + 2 <= rounds) ->
  is_Some (ReadSlice_loop rounds delim b hs).
Proof.
  induction rounds as [|k IH]; intros b hs Hsound H1 Hr; [lia|].
  cbn [ReadSlice_loop].
  destruct (IndexByte (buf b) delim) as [i|]; [eauto|].
  destruct (berr b) as [e|] eqn:Hb; [eauto|].
  destruct (size b <=? length (buf b)) eqn:Hroom; [eauto|].
  apply Nat.leb_gt in Hroom. specialize (Hr eq_refl).
  destruct (fill b hs) as [b1 hs1] eqn:Hfill.
  assert (Hs0 : sound b) by (destruct Hsound; split; [done | by rewrite Hb]).
  destruct (fill_pending _ _ _ _ Hs0 Hroom Hfill) as (_ & Hs1 & Hsz1 & Hgrow).
  apply IH; [done | lia |].
  intros Hb1. specialize (Hgrow Hb1). lia.
Qed.

Lemma ReadSlice_Some delim b hs : sound b -> is_Some (ReadSlice delim b hs).
Proof.
  intros Hsound. apply ReadSlice_loop_Some; [done | lia | lia].
Qed.

Lemma readLine_more_Some rounds : forall b hs,
  sound b -> pending b hs < rounds -> is_Some (readLine_more rounds b hs).
Proof.
  induction rounds as [|k IH]; intros b hs Hsound Hlt; [lia|].
  cbn [readLine_more].
  destruct (ReadSlice_Some LF b hs Hsound) as [[[[l1 e1] b1] hs1] Hs].
  rewrite Hs. cbn [mbind option_bind].
  destruct (ReadSlice_pending _ _ _ _ _ _ _ Hsound Hs) as (Hp & Hs1 & _ & _ & Hfull).
  destruct (isBufferFull e1) eqn:He1; [|eauto].
  specialize (Hfull eq_refl).
  destruct (IH b1 hs1 Hs1 ltac:(lia)) as [[[[l2 e2] b2] hs2] Hm].
  rewrite Hm. cbn [mbind option_bind]. eauto.
Qed.

Lemma readLine_Some b n hs : sound b -> is_Some (readLine b n hs).
Proof.
  intros Hsound. unfold readLine.
  destruct (readLine_more_Some (S (pending b hs)) b hs Hsound ltac:(lia))
    as [[[[l1 e1] b1] hs1] Hm].
  rewrite Hm. cbn [mbind option_bind].
  destruct ((0 <? length l1) && isEOF e1); eauto.
Qed.

Lemma skipEmpty_Some rounds : forall b n hs,
  sound b -> pending b hs < rounds -> is_Some (skipEmpty rounds b n hs).
Proof.
  induction rounds as [|k IH]; intros b n hs Hsound Hlt; [lia|].
  cbn [skipEmpty].
  destruct (readLine_Some b n hs Hsound) as [[[[[l1 e1] b1] n1] hs1] Hl].
  rewrite Hl. cbn [mbind option_bind].
  destruct (readLine_pending _ _ _ _ _ _ _ _ Hsound Hl) as (_ & Hs1 & _ & Hn).
  destruct e1 as [e|]; [eauto|].
  destruct (length l1 =? lengthNL l1); [|eauto].
  specialize (Hn eq_refl). apply IH; [done | lia].
Qed.

Ltac lengths :=
  repeat match goal with
         | H : IndexByte _ _ = Some _ |- _ => apply IndexByte_lt in H
         | H : drop _ _ = _ :: _ |- _ =>
             apply (f_equal length) in H; rewrite length_drop in H
         end;
  rewrite ?length_drop; simpl in *; lia.

Lemma parseField_Some rounds :
  forall mode recLine line errRead fields b n hs,
    sound b -> length line + pending b hs < rounds ->
    is_Some (parseField rounds mode recLine line errRead fields b n hs).
Proof.
  induction rounds as [|k IH];
    intros mode recLine line errRead fields b n hs Hsound Hlt; [lia|].
  cbn [parseField].
  repeat match goal with
         | |- is_Some (Some _) => eauto
         | |- is_Some (parseField k _ _ _ _ _ _ _ _) =>
             apply IH; [done | lengths]
         | |- context [match ?x with _ => _ end] =>
             lazymatch x with
             | readLine _ _ _ => fail
             | _ => destruct x eqn:?
             end
         end.
  destruct (readLine_Some b n hs Hsound) as [[[[[l1 e1] b1] n1] hs1] Hl].
  rewrite Hl. cbn [mbind option_bind].
  destruct (readLine_pending _ _ _ _ _ _ _ _ Hsound Hl) as (Hp & Hs1 & _).
  apply IH; [done | simpl in *; lia].
Qed.

Lemma parseRecord_Some b n hs : sound b -> is_Some (parseRecord b n hs).
Proof.
  intros Hsound. unfold parseRecord.
  destruct (skipEmpty_Some (S (pending b hs)) b n hs Hsound ltac:(lia))
    as [[[[[l1 e1] b1] n1] hs1] Hs].
  rewrite Hs. cbn [mbind option_bind].
  destruct (skipEmpty_pending _ _ _ _ _ _ _ _ _ Hsound Hs) as (_ & Hs1 & _).
  destruct (isEOF e1); [eauto|].
  destruct (parseField_Some (S (length l1 + pending b1 hs1)) FieldStart n1 l1 e1 []
              b1 n1 hs1 Hs1 ltac:(lia)) as [p Hp].
  rewrite Hp. cbn [mbind option_bind]. eauto.
Qed.

(** Every read of a CSV reader gives its result within the rounds its
    loops are allowed. *)
Lemma csvRead_Some c hs : sound (r c) -> is_Some (csvRead c hs).
Proof.
  intros Hsound. rewrite readRecord_unfold.
  destruct (parseRecord_Some (r c) (numLine c) hs Hsound)
    as [[[[rec b1] n1] hs1] Hp].
  rewrite Hp. destruct rec; eauto.
Qed.

Lemma parseRecord_pending b n hs rec b' n' hs' :
  sound b ->
  parseRecord b n hs = Some (rec, b', n', hs') ->
  pending b' hs' <= pending b hs /\ sound b'.
Proof.
  intros Hsound H. unfold parseRecord in H.
  destruct (skipEmpty _ b n hs) as [[[[[l1 e1] b1] n1] hs1]|] eqn:Hs; [|done].
  cbn [mbind option_bind] in H.
  destruct (skipEmpty_pending _ _ _ _ _ _ _ _ _ Hsound Hs) as (Hp1 & Hs1 & _).
  destruct (isEOF e1).
  - injection H as <- <- <- <-. split; [lia | done].
  - destruct (parseField _ _ _ _ _ _ _ _ _) as [p|] eqn:Hp; [|done].
    cbn [mbind option_bind] in H. injection H as <- <- <- <-.
    destruct (parseField_pending _ _ _ _ _ _ _ _ _ _ Hs1 Hp) as [Hp2 Hs2].
    split; [lia | done].
Qed.

Lemma sound_NewBufio rdr : sound (NewBufio rdr).
Proof. split; [unfold NewBufio, defaultBufSize; cbn [size]; lia | done]. Qed.

(** ** Readers whose only error is EOF *)

Section EofOnly.

(** A property of the reader under the buffer that every read keeps, and
    under which a read gives no error but EOF. *)
Variable Inv : reader -> fdtable -> Prop.

Hypothesis Read_Inv :
  forall rdr n hs p err rdr' hs',
    Inv rdr hs -> Read rdr n hs = (p, err, rdr', hs') ->
    Inv rdr' hs' /\ eofOrNone err.

(** A record is cut from what was pending. *)
Lemma parseRecord_progress b n hs dst err recLine b' n' hs' :
  Inv (rd b) hs -> eofOrNone (berr b) -> sound b ->
  parseRecord b n hs = Some (RawRecord dst err recLine, b', n', hs') ->
  pending b' hs' < pending b hs.
Proof.
  intros HI He Hsound H.
  destruct (parseRecord_Inv Inv eofOrNone Read_Inv (or_introl eq_refl)
              _ _ _ _ _ _ _ HI He H)
    as (_ & _ & line & errRead & b1 & n1 & hs1 & Hs & Herr & Heof).
  assert (Hnone : errRead = None).
  { destruct Herr as [->| ->]; [done|].
    destruct Heof as [_ Heof]. by specialize (Heof eq_refl). }
  subst errRead.
  destruct (skipEmpty_pending _ _ _ _ _ _ _ _ _ Hsound Hs) as (_ & Hs1 & _ & Hlt).
  specialize (Hlt eq_refl).
  unfold parseRecord in H. rewrite Hs in H. cbn [mbind option_bind isEOF] in H.
  destruct (parseField _ _ _ _ _ _ _ _ _) as [p|] eqn:Hp; [|done].
  cbn [mbind option_bind] in H. injection H as <- <- <- <- <- <-.
  destruct (parseField_pending _ _ _ _ _ _ _ _ _ _ Hs1 Hp) as [Hp2 _]. lia.
Qed.

(** The records up to EOF are there, and they are no more than the bytes
    that were pending. *)
Lemma rawstream_exists m : forall b n hs,
  pending b hs <= m ->
  Inv (rd b) hs -> eofOrNone (berr b) -> sound b ->
  exists raws hs' rdr',
    rawstream b n hs raws hs' /\ length raws <= m /\ Inv rdr' hs'.
Proof.
  induction m as [|m IH]; intros b n hs Hm HI He Hsound;
    destruct (parseRecord_Some b n hs Hsound) as [[[[rec b1] n1] hs1] Hp];
    destruct (parseRecord_Inv Inv eofOrNone Read_Inv (or_introl eq_refl)
                _ _ _ _ _ _ _ HI He Hp) as (HI1 & He1 & _);
    destruct (parseRecord_pending _ _ _ _ _ _ _ Hsound Hp) as [_ Hs1];
    destruct rec as [|dst err recLine].
  - exists [], hs1, (rd b1). split; [by eapply rawstream_EOF|]. split; [simpl; lia|done].
  - apply parseRecord_progress in Hp; [lia|done..].
  - exists [], hs1, (rd b1). split; [by eapply rawstream_EOF|]. split; [simpl; lia|done].
  - pose proof (parseRecord_progress _ _ _ _ _ _ _ _ _ HI He Hsound Hp) as Hlt.
    destruct (IH b1 n1 hs1 ltac:(lia) HI1 He1 Hs1) as (raws & hs' & rdr' & Hr & Hlen & HI').
    exists ((dst, err, recLine) :: raws), hs', rdr'.
    split; [by eapply rawstream_next|]. split; [simpl; lia|done].
Qed.

(** A read of the CSV reader that is not at EOF has cut its record
    from what was pending. *)
Lemma csvRead_progress c hs row err c' hs' :
  Inv (rd (r c)) hs -> eofOrNone (berr (r c)) -> sound (r c) ->
  csvRead c hs = Some (row, err, c', hs') ->
  Inv (rd (r c')) hs' /\ eofOrNone (berr (r c')) /\ sound (r c')
  /\ (isEOF err = false -> pending (r c') hs' < pending (r c) hs).
Proof.
  intros HI He Hsound H.
  destruct (csvRead_Inv Inv eofOrNone Read_Inv (or_introl eq_refl)
              _ _ _ _ _ _ HI He H) as [HI1 He1].
  rewrite readRecord_unfold in H.
  destruct (parseRecord (r c) (numLine c) hs) as [[[[rec b1] n1] hs1]|] eqn:Hp;
    [|done].
  destruct (parseRecord_pending _ _ _ _ _ _ _ Hsound Hp) as [_ Hs1].
  destruct rec as [|dst e l]; injection H as <- <- <- <-.
  - done.
  - split; [done|]. split; [done|]. split; [done|]. intros _.
    by apply (parseRecord_progress _ _ _ _ _ _ _ _ _ HI He Hsound Hp).
Qed.

(** [ReadAll] ends within its rounds. *)
Lemma ReadAll_loop_Some rounds : forall c hs records,
  Inv (rd (r c)) hs -> eofOrNone (berr (r c)) -> sound (r c) ->
  pending (r c) hs < rounds ->
  is_Some (ReadAll_loop rounds c hs records).
Proof.
  induction rounds as [|k IH]; intros c hs records HI He Hsound Hlt; [lia|].
  cbn [ReadAll_loop].
  destruct (csvRead_Some c hs Hsound) as [[[[row err] c'] hs'] Hread].
  unfold csvRead in Hread. rewrite Hread. cbn [mbind option_bind].
  destruct (csvRead_progress _ _ _ _ _ _ HI He Hsound Hread)
    as (HI1 & He1 & Hs1 & Hprog).
  destruct (isEOF err) eqn:Heof; [eauto|].
  destruct err as [e|]; [eauto|].
  specialize (Hprog eq_refl). apply IH; [done..|lia].
Qed.

End EofOnly.

Lemma judgeFrom_length fpr raws : length (judgeFrom fpr raws) = length raws.
Proof.
  revert fpr. induction raws as [|[[d e] l] rest IH]; intros fpr; [done|].
  cbn [judgeFrom length]. by rewrite IH.
Qed.

(** ** Readers whose files are open *)

Lemma healthy_MultiReader_cons r0 rest hs :
  healthy (MultiReader (r0 :: rest)) hs
  <-> healthy r0 hs /\ healthy (MultiReader rest) hs.
Proof. reflexivity. Qed.

(** Reads leave open files open. *)
Lemma healthy_mono hs hs' :
  (forall fd, healthy (FileReader fd) hs -> healthy (FileReader fd) hs') ->
  forall rdr, healthy rdr hs -> healthy rdr hs'.
Proof.
  intros Hopen. induction rdr as [s|fd|rs IH] using reader_induction.
  - done.
  - apply Hopen.
  - induction IH as [|r0 rest H0 _ IHrest]; [done|].
    intros [Hr0 Hrest]. change (healthy (MultiReader rest) hs) in Hrest.
    split; [by apply H0 | by apply IHrest].
Qed.

Lemma FileRead_healthy fd n hs p err hs' :
  healthy (FileReader fd) hs ->
  FileRead fd n hs = (p, err, hs') ->
  eofOrNone err
  /\ forall fd', healthy (FileReader fd') hs -> healthy (FileReader fd') hs'.
Proof.
  intros (f & Hf & Hc). unfold FileRead. rewrite Hf, Hc.
  destruct (n =? 0).
  { intros [= <- <- <-]. split; [by left | done]. }
  destruct (f_rest f) as [|b0 rest].
  { intros [= <- <- <-]. split; [by right | done]. }
  intros [= <- <- <-]. split; [by left|].
  intros fd' (f' & Hf' & Hc'). cbn [healthy].
  destruct (decide (fd = fd')) as [<-|Hne].
  - eexists. split; [apply list_lookup_insert_eq; by eapply lookup_lt_Some|].
    reflexivity.
  - exists f'. by rewrite list_lookup_insert_ne.
Qed.

(** A read of such a reader leaves such a reader, and gives no error but
    EOF. *)
Lemma Read_healthy_open rdr :
  forall n hs p err rdr' hs',
    healthy rdr hs -> Read rdr n hs = (p, err, rdr', hs') ->
    healthy rdr' hs' /\ eofOrNone err
    /\ forall fd, healthy (FileReader fd) hs -> healthy (FileReader fd) hs'.
Proof.
  induction rdr as [s|fd|rs IH] using reader_induction;
    intros n hs p err rdr' hs' Hh H.
  - cbn [Read BytesRead] in H. destruct s as [|b0 s'];
      injection H as <- <- <- <-; (split; [done|]); (split; [|done]);
      [by right | by left].
  - cbn [Read] in H.
    destruct (FileRead fd n hs) as [[p1 e1] hs1] eqn:Hfr.
    injection H as <- <- <- <-.
    destruct (FileRead_healthy _ _ _ _ _ _ Hh Hfr) as [He Hopen].
    split; [by apply Hopen|]. done.
  - rewrite Read_MultiReader in H. revert hs Hh H.
    induction IH as [|r0 rest H0 _ IHrest]; intros hs Hh H.
    + injection H as <- <- <- <-. split; [done|]. split; [by right | done].
    + cbn [multiRead] in H. destruct Hh as [Hr0 Hrest].
      change (healthy (MultiReader rest) hs) in Hrest.
      destruct (Read r0 n hs) as [[[p1 e1] r1] hs1] eqn:Hread.
      destruct (H0 _ _ _ _ _ _ Hr0 Hread) as (Hr1 & He1 & Hopen).
      pose proof (healthy_mono _ _ Hopen _ Hrest) as Hrest1.
      destruct (negb (length p1 =? 0) || negb (isEOF e1)).
      * injection H as <- <- <- <-. split; [|split; [|done]].
        -- destruct (isEOF e1); [done|]. by apply healthy_MultiReader_cons.
        -- destruct (isEOF e1 && _); [by left | done].
      * destruct (IHrest _ Hrest1 H) as (Hr' & He' & Hopen').
        split; [done|]. split; [done|]. eauto.
Qed.

Lemma Read_healthy rdr n hs p err rdr' hs' :
  healthy rdr hs -> Read rdr n hs = (p, err, rdr', hs') ->
  healthy rdr' hs' /\ eofOrNone err.
Proof.
  intros Hh H. destruct (Read_healthy_open _ _ _ _ _ _ _ Hh H) as (? & ? & _).
  done.
Qed.

(** The rows of an input all of whose files are open: the reads of the
    CSV reader give their outcomes and then EOF; there are no more
    outcomes than bytes. *)
Lemma healthy_stream rdr hs :
  healthy rdr hs ->
  exists outs hs',
    stream (NewReader rdr) hs outs hs' /\ length outs <= avail rdr hs.
Proof.
  intros Hh.
  destruct (rawstream_exists healthy Read_healthy (avail rdr hs)
              (NewBufio rdr) 0 hs)
    as (raws & hs' & rdr' & Hraw & Hlen & _).
  - unfold pending, NewBufio. cbn [buf rd length]. lia.
  - done.
  - by left.
  - apply sound_NewBufio.
  - exists (judgeFrom 0 raws), hs'. split.
    + exact (stream_judgeFrom _ _ _ _ _ Hraw 0).
    + by rewrite judgeFrom_length.
Qed.

(** On a stream that ends the row loop ends: it returns, or it panics on
    a row that is too short. *)
Lemma GenerateSQL_loop_ends schema him c w outs hs' :
  stream c (handles w) outs hs' ->
  forall rounds i outputSQL,
    length outs < rounds ->
    GenerateSQL_loop rounds i schema him c w outputSQL <> Running.
Proof.
  intros Hs. remember (handles w) as hs eqn:Hhs. revert w Hhs.
  induction Hs as [c hs row c' hs' Hread
                  |c hs row err c' hs' outs hs'' Hread Hne Hs IH];
    intros w -> rounds i out Hlt.
  - destruct rounds as [|k]; [simpl in Hlt; lia|].
    cbn [GenerateSQL_loop]. rewrite Hread. done.
  - destruct rounds as [|k]; [simpl in Hlt; lia|].
    cbn [GenerateSQL_loop]. rewrite Hread, Hne.
    assert (Hk : length outs < k) by (simpl in Hlt; lia).
    destruct err as [e|].
    + by apply (IH (Println (FailedToReadRow i e) (set_handles hs' w))).
    + destruct (writeValues _ _ _ _ _ _); [|done].
      by apply (IH (set_handles hs' w)).
Qed.

(** For every input all of whose files are open [GenerateSQL] ends
    within as many rounds as the input has bytes, and one more. *)
Lemma GenerateSQL_ends rounds tableName schema him rdr w :
  healthy rdr (handles w) ->
  avail rdr (handles w) < rounds ->
  GenerateSQL rounds tableName schema him rdr w <> Running.
Proof.
  intros Hh Hlt. destruct (healthy_stream rdr (handles w) Hh) as (outs & hs' & Hs & Hlen).
  rewrite GenerateSQL_unfold.
  apply (GenerateSQL_loop_ends _ _ _ _ _ _ Hs). lia.
Qed.

(** ** The logical stream while the file is open *)

(** Reading an open file to its end gives the bytes from its offset on. *)
Lemma ioReadAll_open_file rounds fd : forall hs f acc,
  hs !! fd = Some f -> f_closed f = false ->
  length (f_rest f) < rounds ->
  exists hs',
    ioReadAll rounds (MultiReader [FileReader fd]) hs acc
    = Some (acc ++ f_rest f, None, MultiReader [], hs').
Proof.
  induction rounds as [|k IH]; intros hs f acc Hf Hc Hlt; [lia|].
  cbn [ioReadAll]. rewrite Read_MultiReader. cbn [multiRead Read].
  unfold FileRead. rewrite Hf, Hc. cbn [Nat.eqb].
  destruct (f_rest f) as [|b0 rest] eqn:Hr.
  - cbn [isEOF length Nat.eqb negb orb multiRead]. rewrite app_nil_r. eauto.
  - cbn [isEOF negb orb andb]. rewrite orb_true_r.
    assert (Hfd : fd < length hs) by (by eapply lookup_lt_Some).
    destruct (IH (<[fd := File (f_name f) (drop 512 (b0 :: rest)) false]> hs)
                (File (f_name f) (drop 512 (b0 :: rest)) false)
                (acc ++ take 512 (b0 :: rest))) as [hs' Heq].
    + by rewrite list_lookup_insert_eq.
    + done.
    + cbn [f_rest]. rewrite length_drop. simpl in *. lia.
    + rewrite Heq. cbn [f_rest]. rewrite <- app_assoc, take_drop. eauto.
Qed.

Lemma ioReadAll_bytes_then_file rounds b fd hs f :
  hs !! fd = Some f -> f_closed f = false ->
  length b <= 512 -> S (length (f_rest f)) < rounds ->
  exists hs',
    ioReadAll rounds (MultiReader [BytesReader b; FileReader fd]) hs []
    = Some (b ++ f_rest f, None, MultiReader [], hs').
Proof.
  intros Hf Hc Hb Hlt. destruct rounds as [|k]; [lia|].
  destruct b as [|b0 b'].
  - destruct (ioReadAll_open_file (S k) fd hs f [] Hf Hc ltac:(lia)) as [hs' Heq].
    exists hs'. rewrite <- Heq. cbn [ioReadAll]. rewrite !Read_MultiReader.
    reflexivity.
  - cbn [ioReadAll]. rewrite Read_MultiReader.
    cbn [multiRead Read BytesRead isEOF].
    rewrite take_ge, drop_ge by done.
    cbn [length Nat.eqb negb orb andb]. rewrite app_nil_l.
    destruct (ioReadAll_open_file k fd hs f (b0 :: b') Hf Hc ltac:(lia))
      as [hs' Heq].
    exists hs'. rewrite <- Heq. destruct k as [|k']; [lia|].
    cbn [ioReadAll]. rewrite !Read_MultiReader. reflexivity.
Qed.

Lemma removeBOM_peek (data : bytes) :
  3 <= length data ->
  removeBOM (copyInto [x00; x00; x00] (take 3 data)) ++ drop 3 data
  = removeBOM data.
Proof.
  destruct data as [|b0 [|b1 [|b2 rest]]]; simpl; try lia. intros _.
  unfold removeBOM, copyInto, byteAt. simpl.
  by destruct (Byte.eqb b0 xef), (Byte.eqb b1 xbb), (Byte.eqb b2 xbf).
Qed.

(** Between the peek and the deferred [Close] the stream of
    [ReadInputFile] is the input without the mark: the peeked bytes and
    the file go into the MultiReader the way C5 says.  The [Close] that
    runs at the return is what cuts it. *)
Lemma ReadInputFile_body_stream fd hs name data rounds :
  hs !! fd = Some (File name data false) ->
  3 <= length data -> S (length data) < rounds ->
  exists rdr hs1 hs',
    ReadInputFile_body fd hs = (inl rdr, hs1)
    /\ ioReadAll rounds rdr hs1 [] = Some (removeBOM data, None, MultiReader [], hs').
Proof.
  intros Hf Hlen Hr. unfold ReadInputFile_body, FileRead. rewrite Hf.
  cbn [f_closed f_rest f_name length Nat.eqb].
  destruct data as [|b0 data'] eqn:Hd; [simpl in Hlen; lia|]. rewrite <- Hd in *.
  assert (Hfd : fd < length hs) by (by eapply lookup_lt_Some).
  destruct (ioReadAll_bytes_then_file rounds
              (removeBOM (copyInto [x00; x00; x00] (take 3 data))) fd
              (<[fd := File name (drop 3 data) false]> hs)
              (File name (drop 3 data) false)) as [hs' Heq].
  - by rewrite list_lookup_insert_eq.
  - done.
  - etrans; [apply peek_length|]. lia.
  - cbn [f_rest]. rewrite length_drop. lia.
  - eexists _, _, hs'. split; [reflexivity|].
    rewrite Heq. cbn [f_rest]. by rewrite removeBOM_peek.
Qed.

(** With the mark in front, and without. *)
Example ReadInputFile_body_stream_users :
  let hs := [File "in.csv" (BOM ++ bytes_of usersInput) false] in
  let hs2 := [File "in.csv" (bytes_of usersInput) false] in
  (fst <$> ioReadAll 3 (MultiReader [BytesReader []; FileReader 0])
             (ReadInputFile_body 0 hs).2 [])
  = Some (bytes_of usersInput, None, MultiReader [])
  /\ (ReadInputFile_body 0 hs).1 = inl (MultiReader [BytesReader []; FileReader 0])
  /\ (fst <$> ioReadAll 3 (MultiReader [BytesReader (bytes_of "id,"); FileReader 0])
                (ReadInputFile_body 0 hs2).2 [])
     = Some (bytes_of usersInput, None, MultiReader [])
  /\ (ReadInputFile_body 0 hs2).1
     = inl (MultiReader [BytesReader (bytes_of "id,"); FileReader 0]).
Proof. vm_compute. repeat split; reflexivity. Qed.

(** ** Bad rows never stop the run *)


(** ** The schema file is read to its end *)

Lemma ReadAll_open_file_Some fd hs f :
  hs !! fd = Some f -> f_closed f = false ->
  is_Some (ReadAll (NewReader (FileReader fd)) hs).
Proof.
  intros Hf Hc. unfold ReadAll.
  apply (ReadAll_loop_Some healthy Read_healthy).
  - cbn [NewReader NewBufio r rd healthy]. eauto.
  - by left.
  - apply sound_NewBufio.
  - lia.
Qed.

(** [ReadSchema] returns or panics: reading the schema file ends. *)
Lemma ReadSchema_ends name w : ReadSchema name w <> Running.
Proof.
  unfold ReadSchema, Open. destruct (files w !! name) as [data|]; [|done].
  cbn [set_handles handles].
  destruct (ReadAll_open_file_Some (length (handles w))
              (handles w ++ [File name data false]) (File name data false))
    as [[[records err] hs'] Heq].
  - by apply list_lookup_middle.
  - done.
  - rewrite Heq. destruct err; [done|]. by destruct (schemaOfRecords records []).
Qed.

(** ** Two runs of the program *)

(** The row loop on two worlds with the same open files: the same text,
    the same lines printed, the same open files left. *)
Lemma GenerateSQL_loop_same rounds :
  forall i schema him c w1 w2 outputSQL,
    handles w1 = handles w2 ->
    match GenerateSQL_loop rounds i schema him c w1 outputSQL,
          GenerateSQL_loop rounds i schema him c w2 outputSQL with
    | Returns (sql1, w1'), Returns (sql2, w2') =>
        sql1 = sql2 /\ handles w1' = handles w2'
        /\ files w1' = files w1 /\ files w2' = files w2
        /\ exists lines,
             console w1' = console w1 ++ lines
             /\ console w2' = console w2 ++ lines
    | Panics, Panics => True
    | Running, Running => True
    | _, _ => False
    end.
Proof.
  induction rounds as [|k IH]; intros i schema him c w1 w2 out Hh; [done|].
  cbn [GenerateSQL_loop]. rewrite <- Hh.
  destruct (csvRead c (handles w1)) as [[[[row err] c'] hs']|]; [|done].
  destruct (isEOF err).
  { repeat split; try done. exists []. by rewrite !app_nil_r. }
  destruct err as [e|].
  - specialize (IH (S i) schema him c'
                  (Println (FailedToReadRow i e) (set_handles hs' w1))
                  (Println (FailedToReadRow i e) (set_handles hs' w2))
                  out eq_refl).
    destruct (GenerateSQL_loop k _ _ _ _ (Println _ (set_handles hs' w1)) _)
      as [[sql1 w1']| |];
      destruct (GenerateSQL_loop k _ _ _ _ (Println _ (set_handles hs' w2)) _)
      as [[sql2 w2']| |]; try done.
    destruct IH as (Hsql & Hhs & Hf1 & Hf2 & lines & Hc1 & Hc2).
    repeat split; try done.
    exists (FailedToReadRow i e :: lines).
    cbn [Println set_handles console] in Hc1, Hc2.
    by rewrite Hc1, Hc2, <- !app_assoc.
  - destruct (writeValues schema 0 (length schema) him row _) as [out'|]; [|done].
    specialize (IH (S i) schema him c' (set_handles hs' w1) (set_handles hs' w2)
                  (out' +:+ ")") eq_refl).
    destruct (GenerateSQL_loop k _ _ _ _ (set_handles hs' w1) _) as [[sql1 w1']| |];
      destruct (GenerateSQL_loop k _ _ _ _ (set_handles hs' w2) _)
      as [[sql2 w2']| |]; done.
Qed.

Lemma ReadSchema_same name w1 w2 :
  handles w1 = handles w2 -> files w1 !! name = files w2 !! name ->
  match ReadSchema name w1, ReadSchema name w2 with
  | Returns (x1, w1'), Returns (x2, w2') =>
      x1 = x2 /\ handles w1' = handles w2'
      /\ files w1' = files w1 /\ files w2' = files w2
      /\ console w1' = console w1 /\ console w2' = console w2
  | Panics, Panics => True
  | Running, Running => True
  | _, _ => False
  end.
Proof.
  intros Hh Hf. unfold ReadSchema, Open. rewrite <- Hf, <- Hh.
  destruct (files w1 !! name) as [data|]; [|done].
  cbn [set_handles handles].
  destruct (ReadAll _ _) as [[[schema [e|]] hs2]|]; try done.
  by destruct (schemaOfRecords schema []).
Qed.

Lemma ReadInputFile_same name w1 w2 :
  handles w1 = handles w2 -> files w1 !! name = files w2 !! name ->
  (ReadInputFile name w1).1 = (ReadInputFile name w2).1
  /\ handles (ReadInputFile name w1).2 = handles (ReadInputFile name w2).2
  /\ files (ReadInputFile name w1).2 = files w1
  /\ files (ReadInputFile name w2).2 = files w2
  /\ console (ReadInputFile name w1).2 = console w1
  /\ console (ReadInputFile name w2).2 = console w2.
Proof.
  intros Hh Hf. unfold ReadInputFile, Open. rewrite <- Hf, <- Hh.
  destruct (files w1 !! name) as [data|]; [|done].
  cbn [set_handles handles].
  by destruct (ReadInputFile_body _ _) as [res hs'].
Qed.

(** Two runs with the same arguments and rounds, from worlds with the
    same open files and the same contents of the files the arguments
    name: the same result, the same lines printed, the same file written
    or none. *)
Lemma main_deterministic rounds osArgs w1 w2 :
  handles w1 = handles w2 ->
  (forall name, name ∈ osArgs -> files w1 !! name = files w2 !! name) ->
  sameResult w1 w2 (main rounds osArgs w1) (main rounds osArgs w2).
Proof.
  intros Hh Hf. unfold main, ParseArgs.
  destruct (length osArgs <? 4) eqn:Hlen.
  { unfold sameResult, sameEffect. cbn [Println handles console files].
    split; [done|]. split; [by exists [PrintErr Usage]|]. left. done. }
  apply Nat.ltb_ge in Hlen.
  assert (Hin : forall k, k < 4 -> default "" (osArgs !! k) ∈ osArgs).
  { intros k Hk. destruct (osArgs !! k) as [x|] eqn:Hx.
    - apply list_elem_of_lookup. eauto.
    - apply lookup_ge_None in Hx. lia. }
  cbn [SchemaFileName InputFileName TableName].
  pose proof (ReadSchema_same _ _ _ Hh (Hf _ (Hin 3 ltac:(lia)))) as Hs.
  destruct (ReadSchema _ w1) as [[[schema|err] w1a]| |];
    destruct (ReadSchema _ w2) as [[[schema2|err2] w2a]| |]; try done;
    destruct Hs as (Hx & Hha & Hf1 & Hf2 & Hc1 & Hc2); try done;
    injection Hx as <-.
  2: { unfold sameResult, sameEffect. cbn [Println handles console files].
       split; [done|]. split; [|by left].
       exists [PrintErr err]. by rewrite Hc1, Hc2. }
  assert (Hfa : files w1a !! default "" (osArgs !! 2)
                = files w2a !! default "" (osArgs !! 2))
    by (rewrite Hf1, Hf2; apply Hf, Hin; lia).
  pose proof (ReadInputFile_same _ _ _ Hha Hfa) as Hi.
  destruct (ReadInputFile _ w1a) as [res1 w1b];
    destruct (ReadInputFile _ w2a) as [res2 w2b].
  cbn [fst snd] in Hi. destruct Hi as (<- & Hhb & Hfb1 & Hfb2 & Hcb1 & Hcb2).
  destruct res1 as [rdr|err].
  2: { unfold sameResult, sameEffect. cbn [Println handles console files].
       split; [done|]. split; [|left; split; congruence].
       exists [PrintErr err]. by rewrite Hcb1, Hcb2, Hc1, Hc2. }
  rewrite <- Hhb.
  destruct (ParseHeaders rdr (handles w1b)) as [[[[headers|err] rdr'] hs3]|];
    [| |done].
  2: { unfold sameResult, sameEffect.
       cbn [Println set_handles handles console files].
       split; [done|]. split; [|left; split; congruence].
       exists [PrintErr err]. by rewrite Hcb1, Hcb2, Hc1, Hc2. }
  rewrite !GenerateSQL_unfold.
  match goal with
  | |- context [GenerateSQL_loop rounds 0 schema ?him ?c (set_handles hs3 w1b) ?out] =>
      pose proof (GenerateSQL_loop_same rounds 0 schema him c
                    (set_handles hs3 w1b) (set_handles hs3 w2b) out eq_refl) as Hg
  end.
  destruct (GenerateSQL_loop rounds 0 _ _ _ (set_handles hs3 w1b) _)
    as [[sql1 w1c]| |];
    destruct (GenerateSQL_loop rounds 0 _ _ _ (set_handles hs3 w2b) _)
    as [[sql2 w2c]| |]; try done.
  destruct Hg as (<- & Hhc & Hfc1 & Hfc2 & lines & Hcc1 & Hcc2).
  unfold sameResult, sameEffect.
  cbn [WriteSQLToFile Println files handles console set_handles] in *.
  split; [done|]. split.
  - exists (lines ++ [Generated (default "" (osArgs !! 1))]).
    rewrite Hcc1, Hcc2, Hcb1, Hcb2, Hc1, Hc2. by rewrite !app_assoc.
  - right. eexists _, _. rewrite Hfc1, Hfc2, Hfb1, Hfb2, Hf1, Hf2. done.
Qed.

(** C9: the conversion is deterministic.  Two runs of [GenerateSQL] with
    the same table name, schema, header index map and reader, over the
    same open files, return the same SQL text, whatever else differs (the
    rest of the file system, the console, the rounds allowed).  Two runs
    of [main] with the same arguments, from worlds in which the files the
    arguments name have the same contents, have the same result: the same
    lines printed and the same file written, or none. *)
Theorem conversion_deterministic :
  (forall rounds1 rounds2 tableName schema him rdr w1 w2 sql1 w1' sql2 w2',
      handles w1 = handles w2 ->
      GenerateSQL rounds1 tableName schema him rdr w1 = Returns (sql1, w1') ->
      GenerateSQL rounds2 tableName schema him rdr w2 = Returns (sql2, w2') ->
      sql1 = sql2)
  /\ (forall rounds osArgs w1 w2,
        handles w1 = handles w2 ->
        (forall name, name ∈ osArgs -> files w1 !! name = files w2 !! name) ->
        sameResult w1 w2 (main rounds osArgs w1) (main rounds osArgs w2)).
Proof.
  split.
  - intros rounds1 rounds2 tableName schema him rdr w1 w2 sql1 w1' sql2 w2'
      Hh H1 H2.
    unfold GenerateSQL in H1, H2.
    by destruct (GenerateSQL_loop_deterministic _ _ _ _ _ _ _ _ _ _ _ _ _ Hh H1 H2).
  - apply main_deterministic.
Qed.

(** Two runs on the example of the specification, one with other files
    around and more rounds. *)
Lemma conversion_deterministic_users :
  GenerateSQL 7 "users" usersSchema (MapHeadersToSchema usersHeaders usersSchema)
    (BytesReader (bytes_of (textLines ["1,Alice"]))) (sampleWorld "other" "files")
  = Returns (usersStatement, sampleWorld "other" "files")
  /\ GenerateSQL 2 "users" usersSchema (MapHeadersToSchema usersHeaders usersSchema)
       (BytesReader (bytes_of (textLines ["1,Alice"]))) emptyWorld
     = Returns (usersStatement, emptyWorld)
  /\ usersStatement = usersStatement.
Proof.
  assert (H1 : GenerateSQL 7 "users" usersSchema
                 (MapHeadersToSchema usersHeaders usersSchema)
                 (BytesReader (bytes_of (textLines ["1,Alice"])))
                 (sampleWorld "other" "files")
               = Returns (usersStatement, sampleWorld "other" "files"))
    by (vm_compute; reflexivity).
  assert (H2 : GenerateSQL 2 "users" usersSchema
                 (MapHeadersToSchema usersHeaders usersSchema)
                 (BytesReader (bytes_of (textLines ["1,Alice"]))) emptyWorld
               = Returns (usersStatement, emptyWorld))
    by (vm_compute; reflexivity).
  split; [exact H1|]. split; [exact H2|].
  exact (proj1 conversion_deterministic 7 2 _ _ _ _ (sampleWorld "other" "files")
           emptyWorld _ _ _ _ eq_refl H1 H2).
Defined.

(** ** The arguments *)

(** X1: [ParseArgs] gives the usage error exactly when there are fewer
    than three arguments behind the program name; otherwise the table
    name, the input file and the schema file are the first three of them,
    whatever follows. *)
Theorem ParseArgs_takes_three (args : list string) :
  (ParseArgs args = inr Usage <-> length args < 4)
  /\ (forall prog tableName inputFile schemaFile more,
        args = prog :: tableName :: inputFile :: schemaFile :: more ->
        ParseArgs args = inl (mkArgs tableName inputFile schemaFile))
  /\ (forall a, ParseArgs args = inl a ->
        args !! 1 = Some (TableName a) /\ args !! 2 = Some (InputFileName a)
        /\ args !! 3 = Some (SchemaFileName a)).
Proof.
  unfold ParseArgs. split; [|split].
  - destruct (length args <? 4) eqn:Hl.
    + apply Nat.ltb_lt in Hl. done.
    + apply Nat.ltb_ge in Hl. split; [done|lia].
  - intros prog t i s more ->. reflexivity.
  - destruct args as [|a0 [|a1 [|a2 [|a3 more]]]]; try done.
    cbn. intros a [= <-]. done.
Qed.

(** ** The early exits of [main] *)

(** X2: with too few arguments [main] prints the usage line, and with a
    schema file that is not there it prints that this file could not be
    opened; in both cases nothing is opened or written, and the input
    file is not looked at.  The program name and what follows the third
    argument have no effect on the run. *)
Theorem main_stops_before_the_input rounds osArgs w :
  (length osArgs < 4 -> main rounds osArgs w = Returns (Println (PrintErr Usage) w))
  /\ (forall args,
        ParseArgs osArgs = inl args ->
        files w !! SchemaFileName args = None ->
        main rounds osArgs w
        = Returns (Println
                     (PrintErr (Errorf "failed to open schema file"
                                  (PathError "open" (SchemaFileName args) ENOENT)))
                     w))
  /\ (forall prog tableName inputFile schemaFile more,
        osArgs = prog :: tableName :: inputFile :: schemaFile :: more ->
        main rounds osArgs w
        = main rounds [""; tableName; inputFile; schemaFile] w).
Proof.
  split; [|split].
  - intros Hl. unfold main, ParseArgs.
    by replace (length osArgs <? 4) with true by (symmetry; by apply Nat.ltb_lt).
  - intros args Ha Hf. unfold main. rewrite Ha.
    unfold ReadSchema, Open. by rewrite Hf.
  - intros prog t i s more ->. reflexivity.
Qed.

Lemma main_stops_before_the_input_users :
  main 5 ["convert"; "users"] (sampleWorld usersInput usersSchemaText)
  = Returns (Println (PrintErr Usage) (sampleWorld usersInput usersSchemaText))
  /\ main 5 ["convert"; "users"; "in.csv"; "none.csv"]
       (sampleWorld usersInput usersSchemaText)
     = Returns (Println
                  (PrintErr (Errorf "failed to open schema file"
                               (PathError "open" "none.csv" ENOENT)))
                  (sampleWorld usersInput usersSchemaText)).
Proof.
  split.
  - apply (proj1 (main_stops_before_the_input 5 ["convert"; "users"]
                    (sampleWorld usersInput usersSchemaText))).
    simpl. lia.
  - apply (proj1 (proj2 (main_stops_before_the_input 5
                           ["convert"; "users"; "in.csv"; "none.csv"]
                           (sampleWorld usersInput usersSchemaText)))
             (mkArgs "users" "in.csv" "none.csv")).
    + reflexivity.
    + vm_compute. reflexivity.
Defined.

(** ** The byte-order mark *)

(** X3: [removeBOM] takes one leading mark off and nothing else: data
    that starts with the mark loses these three bytes, any other data
    (shorter than three bytes or with other bytes in front) comes back as
    it is, and a second mark behind the first one stays. *)
Theorem removeBOM_strips_one_mark (data : bytes) :
  (forall rest, data = BOM ++ rest -> removeBOM data = rest)
  /\ ((forall rest, data <> BOM ++ rest) -> removeBOM data = data)
  /\ (forall rest, removeBOM (BOM ++ BOM ++ rest) = BOM ++ rest)
  /\ (removeBOM data = data \/ data = BOM ++ removeBOM data).
Proof.
  assert (Hcases : (exists rest, data = BOM ++ rest /\ removeBOM data = rest)
                   \/ ((forall rest, data <> BOM ++ rest) /\ removeBOM data = data)).
  { unfold removeBOM.
    destruct ((3 <=? length data) && Byte.eqb (byteAt data 0) xef
              && Byte.eqb (byteAt data 1) xbb && Byte.eqb (byteAt data 2) xbf)
      eqn:Hc.
    - left. exists (drop 3 data). split; [|done].
      destruct data as [|b0 [|b1 [|b2 rest]]]; try discriminate Hc.
      unfold byteAt in Hc. simpl in Hc.
      apply andb_true_iff in Hc as [Hc H2]. apply andb_true_iff in Hc as [H0 H1].
      apply byte_dec_bl in H0 as ->. apply byte_dec_bl in H1 as ->.
      by apply byte_dec_bl in H2 as ->.
    - right. split; [|done]. intros rest ->. discriminate Hc. }
  split; [|split; [|split]].
  - intros rest ->. reflexivity.
  - intros Hno. destruct Hcases as [(rest & -> & _)|[_ Heq]]; [|done].
    by destruct (Hno rest).
  - reflexivity.
  - destruct Hcases as [(rest & -> & Heq)|[_ Heq]]; [|by left].
    right. by rewrite Heq.
Qed.

(** ** The errors of [ReadInputFile] *)

Lemma ReadInputFile_missing name w :
  files w !! name = None ->
  ReadInputFile name w
  = (inr (Errorf "failed to open input file" (PathError "open" name ENOENT)), w).
Proof. intros Hf. unfold ReadInputFile, Open. by rewrite Hf. Qed.

Lemma ReadInputFile_empty name w :
  files w !! name = Some [] ->
  ReadInputFile name w
  = (inr (Errorf "failed to read first 3 bytes of input file" EOF),
     set_handles (handles w ++ [File name [] true]) w).
Proof.
  intros Hf. unfold ReadInputFile, Open. rewrite Hf.
  cbn [set_handles handles files console].
  unfold ReadInputFile_body, FileRead.
  rewrite list_lookup_middle by done.
  cbn [f_closed f_rest f_name length Nat.eqb]. unfold Close.
  rewrite list_lookup_middle by done. cbn [f_name f_rest].
  replace (length (handles w)) with (length (handles w) + 0) at 1 by lia.
  by rewrite insert_app_r.
Qed.

(** The reader [ReadInputFile] returns, when it returns one. *)
Lemma ReadInputFile_reader name w rdr w2 :
  ReadInputFile name w = (inl rdr, w2) ->
  exists data,
    files w !! name = Some data /\ data <> []
    /\ rdr = MultiReader
               [BytesReader (removeBOM (copyInto [x00; x00; x00] (take 3 data)));
                FileReader (length (handles w))]
    /\ w2 = set_handles (handles w ++ [File name (drop 3 data) true]) w.
Proof.
  destruct (files w !! name) as [[|b0 data']|] eqn:Hf.
  - by rewrite ReadInputFile_empty.
  - rewrite (ReadInputFile_result _ _ _ Hf) by done.
    intros [= <- <-]. by exists (b0 :: data').
  - by rewrite ReadInputFile_missing.
Qed.

(** X4: [ReadInputFile] returns a reader exactly for a file that is
    there and not empty.  For a file that is not there it returns the
    error of [os.Open] and opens nothing; for an empty file it returns
    the EOF of its first read as an error, and leaves the handle
    closed. *)
Theorem ReadInputFile_needs_a_byte name w :
  ((exists rdr, (ReadInputFile name w).1 = inl rdr)
   <-> exists data, files w !! name = Some data /\ data <> [])
  /\ (files w !! name = None ->
      ReadInputFile name w
      = (inr (Errorf "failed to open input file" (PathError "open" name ENOENT)), w))
  /\ (files w !! name = Some [] ->
      ReadInputFile name w
      = (inr (Errorf "failed to read first 3 bytes of input file" EOF),
         set_handles (handles w ++ [File name [] true]) w)).
Proof.
  split; [|split; [apply ReadInputFile_missing | apply ReadInputFile_empty]].
  split.
  - intros [rdr Hr].
    destruct (ReadInputFile name w) as [res w2] eqn:Hi. cbn [fst] in Hr. subst res.
    apply ReadInputFile_reader in Hi as (data & Hf & Hne & _). eauto.
  - intros (data & Hf & Hne). rewrite (ReadInputFile_result _ _ _ Hf Hne). eauto.
Qed.

Lemma ReadInputFile_needs_a_byte_empty_file :
  ReadInputFile "in.csv" (World {["in.csv" := []]} [] [])
  = (inr (Errorf "failed to read first 3 bytes of input file" EOF),
     set_handles (handles (World {["in.csv" := []]} [] [])
                  ++ [File "in.csv" [] true])
       (World {["in.csv" := []]} [] [])).
Proof.
  apply (proj2 (proj2 (ReadInputFile_needs_a_byte "in.csv"
                         (World {["in.csv" := []]} [] [])))).
  vm_compute. reflexivity.
Defined.

(** X5: an input file of one or two bytes: the three-byte buffer of the
    peek is handed on whole, so the reader starts with the bytes of the
    file followed by the zero bytes the buffer was made with. *)
Theorem ReadInputFile_pads_short_file name w data :
  files w !! name = Some data ->
  0 < length data < 3 ->
  ReadInputFile name w
  = (inl (MultiReader [BytesReader (data ++ replicate (3 - length data) x00);
                       FileReader (length (handles w))]),
     set_handles (handles w ++ [File name [] true]) w).
Proof.
  intros Hf Hlen. rewrite (ReadInputFile_result _ _ _ Hf).
  - destruct data as [|b0 [|b1 [|b2 rest]]]; simpl in Hlen; try lia.
    + unfold removeBOM, copyInto, byteAt. simpl. by rewrite !andb_false_r.
    + unfold removeBOM, copyInto, byteAt. simpl. by rewrite !andb_false_r.
  - intros ->. simpl in Hlen. lia.
Qed.

Lemma ReadInputFile_pads_one_byte :
  ReadInputFile "in.csv" (World {["in.csv" := bytes_of "a"]} [] [])
  = (inl (MultiReader [BytesReader [x61; x00; x00]; FileReader 0]),
     World {["in.csv" := bytes_of "a"]} [File "in.csv" [] true] []).
Proof.
  assert (Hf : files (World {["in.csv" := bytes_of "a"]} [] []) !! "in.csv"
               = Some (bytes_of "a")) by (vm_compute; reflexivity).
  assert (Hlen : 0 < length (bytes_of "a") < 3) by (vm_compute; lia).
  exact (ReadInputFile_pads_short_file "in.csv" _ _ Hf Hlen).
Defined.

(** ** What every read keeps *)

Section KeptByReads.

(** A property [Inv] of the reader under the buffer that every read
    keeps. *)
Variable Inv : reader -> fdtable -> Prop.

Hypothesis Read_keeps :
  forall rdr n hs p err rdr' hs',
    Inv rdr hs -> Read rdr n hs = (p, err, rdr', hs') -> Inv rdr' hs'.

Lemma Read_keeps_any rdr n hs p err rdr' hs' :
  Inv rdr hs -> Read rdr n hs = (p, err, rdr', hs') ->
  Inv rdr' hs' /\ (fun _ : option error => True) err.
Proof. intros HI H. split; [by eapply Read_keeps|done]. Qed.

(** What every read keeps holds of some reader when [ReadAll] is done. *)
Lemma ReadAll_loop_keeps rounds : forall c hs records recs err hs',
  Inv (rd (r c)) hs ->
  ReadAll_loop rounds c hs records = Some (recs, err, hs') ->
  exists rdr', Inv rdr' hs'.
Proof.
  induction rounds as [|k IH]; intros c hs records recs err hs' HI H; [done|].
  cbn [ReadAll_loop] in H.
  destruct (readRecord c hs) as [[[[record e] c'] hs1]|] eqn:Hread; [|done].
  cbn [mbind option_bind] in H.
  destruct (csvRead_Inv Inv (fun _ => True) Read_keeps_any I
              _ _ _ _ _ _ HI I Hread) as [HI1 _].
  destruct (isEOF e).
  - injection H as <- <- <-. eauto.
  - destruct e as [e|].
    + injection H as <- <- <-. eauto.
    + by eapply IH.
Qed.

(** A reader with an empty buffer reads [size] bytes at once; [Inv] need
    only hold from there on. *)
Variables (rdr0 : reader) (hs0 : fdtable) (sz : nat).
Variables (p0 : bytes) (err0 : option error) (r1 : reader) (hs1 : fdtable).

Hypothesis size_pos : 0 < sz.
Hypothesis first_read : Read rdr0 sz hs0 = (p0, err0, r1, hs1).
Hypothesis Inv_first : Inv r1 hs1.

Lemma fill_first b' hs' :
  fill (Bufio rdr0 [] None sz) hs0 = (b', hs') -> Inv (rd b') hs'.
Proof.
  unfold fill, maxConsecutiveEmptyReads. rewrite fill_loop_S.
  cbn [rd buf size berr length]. rewrite Nat.sub_0_r, first_read.
  destruct (Read_avail _ _ _ _ _ _ _ first_read) as (_ & _ & _ & Hp).
  destruct err0 as [e|].
  - by intros [= <- <-].
  - replace (0 <? length p0) with true
      by (symmetry; apply Nat.ltb_lt, Hp; done).
    by intros [= <- <-].
Qed.

Lemma ReadSlice_first delim line err b' hs' :
  ReadSlice delim (Bufio rdr0 [] None sz) hs0 = Some (line, err, b', hs') ->
  Inv (rd b') hs'.
Proof.
  unfold ReadSlice. cbn [size]. rewrite (Nat.add_comm sz 2).
  change (2 + sz) with (S (S sz)). generalize (S sz) as k. intros k.
  cbn [ReadSlice_loop buf IndexByte berr size length].
  replace (sz <=? 0) with false by (symmetry; apply Nat.leb_gt; lia).
  destruct (fill (Bufio rdr0 [] None sz) hs0) as [b1 hs1'] eqn:Hfill.
  apply fill_first in Hfill. intros H.
  by destruct (ReadSlice_loop_Inv Inv (fun _ => True) Read_keeps_any I
                 _ _ _ _ _ _ _ _ Hfill I H).
Qed.

Lemma readLine_more_first rounds line err b' hs' :
  readLine_more rounds (Bufio rdr0 [] None sz) hs0 = Some (line, err, b', hs') ->
  Inv (rd b') hs'.
Proof.
  destruct rounds as [|k]; [done|]. cbn [readLine_more].
  destruct (ReadSlice LF _ hs0) as [[[[l1 e1] b1] hs1']|] eqn:Hs; [|done].
  cbn [mbind option_bind]. apply ReadSlice_first in Hs.
  destruct (isBufferFull e1).
  - destruct (readLine_more k b1 hs1') as [[[[l2 e2] b2] hs2]|] eqn:Hm; [|done].
    cbn [mbind option_bind]. intros [= <- <- <- <-].
    by destruct (readLine_more_Inv Inv (fun _ => True) Read_keeps_any I
                   _ _ _ _ _ _ _ Hs I Hm).
  - by intros [= <- <- <- <-].
Qed.

Lemma readLine_first n line err b' n' hs' :
  readLine (Bufio rdr0 [] None sz) n hs0 = Some (line, err, b', n', hs') ->
  Inv (rd b') hs'.
Proof.
  unfold readLine.
  destruct (readLine_more _ _ hs0) as [[[[l1 e1] b1] hs1']|] eqn:Hm; [|done].
  cbn [mbind option_bind]. apply readLine_more_first in Hm.
  by destruct ((0 <? length l1) && isEOF e1); intros [= <- <- <- <- <-].
Qed.

Lemma skipEmpty_first rounds n line err b' n' hs' :
  skipEmpty rounds (Bufio rdr0 [] None sz) n hs0 = Some (line, err, b', n', hs') ->
  Inv (rd b') hs'.
Proof.
  destruct rounds as [|k]; [done|]. cbn [skipEmpty].
  destruct (readLine _ n hs0) as [[[[[l1 e1] b1] n1] hs1']|] eqn:Hl; [|done].
  cbn [mbind option_bind]. apply readLine_first in Hl.
  destruct e1 as [e|].
  - by intros [= <- <- <- <- <-].
  - destruct (length l1 =? lengthNL l1).
    + intros H.
      by destruct (skipEmpty_Inv Inv (fun _ => True) Read_keeps_any I
                     _ _ _ _ _ _ _ _ _ Hl I H).
    + by intros [= <- <- <- <- <-].
Qed.

Lemma parseRecord_first n rec b' n' hs' :
  parseRecord (Bufio rdr0 [] None sz) n hs0 = Some (rec, b', n', hs') ->
  Inv (rd b') hs'.
Proof.
  unfold parseRecord.
  destruct (skipEmpty _ _ n hs0) as [[[[[l1 e1] b1] n1] hs1']|] eqn:Hs; [|done].
  cbn [mbind option_bind]. apply skipEmpty_first in Hs.
  destruct (isEOF e1).
  - by intros [= <- <- <- <-].
  - destruct (parseField _ _ _ _ _ _ _ _ _) as [p|] eqn:Hp; [|done].
    cbn [mbind option_bind]. intros [= <- <- <- <-].
    by destruct (parseField_Inv Inv (fun _ => True) Read_keeps_any I
                   _ _ _ _ _ _ _ _ _ _ Hs I I Hp).
Qed.

Lemma csvRead_first fpr n row err c' hs' :
  csvRead (CsvReader (Bufio rdr0 [] None sz) fpr n) hs0 = Some (row, err, c', hs') ->
  Inv (rd (r c')) hs'.
Proof.
  rewrite readRecord_unfold. cbn [r numLine FieldsPerRecord].
  destruct (parseRecord _ n hs0) as [[[[rec b1] n1] hs1']|] eqn:Hp; [|done].
  apply parseRecord_first in Hp.
  by destruct rec; intros [= <- <- <- <-].
Qed.

End KeptByReads.

(** ** The schema file and its handle *)

(** Reads of the file opened last move along its content and touch
    nothing else. *)
Lemma Read_last_file old name data rdr n hs p err rdr' hs' :
  (rdr = FileReader (length old)
   /\ exists k, hs = old ++ [File name (drop k data) false]) ->
  Read rdr n hs = (p, err, rdr', hs') ->
  rdr' = FileReader (length old)
  /\ exists k, hs' = old ++ [File name (drop k data) false].
Proof.
  intros [-> [k ->]]. cbn [Read]. unfold FileRead.
  rewrite list_lookup_middle by done. cbn [f_closed f_rest f_name].
  destruct (n =? 0); [intros [= <- <- <- <-]; eauto|].
  destruct (drop k data) as [|b0 rest] eqn:Hd; [intros [= <- <- <- <-]|].
  { split; [done|]. exists k. by rewrite Hd. }
  intros [= <- <- <- <-]. split; [done|]. exists (k + n).
  rewrite <- drop_drop, Hd.
  replace (length old) with (length old + 0) at 1 by lia.
  by rewrite insert_app_r.
Qed.

Lemma Close_last old name rest closed :
  Close (length old) (old ++ [File name rest closed]) = old ++ [File name rest true].
Proof.
  unfold Close. rewrite list_lookup_middle by done. cbn [f_name f_rest].
  replace (length old) with (length old + 0) at 1 by lia.
  by rewrite insert_app_r.
Qed.

Lemma ReadAll_keeps (Inv : reader -> fdtable -> Prop) c hs recs err hs' :
  (forall rdr n hs p err rdr' hs',
     Inv rdr hs -> Read rdr n hs = (p, err, rdr', hs') -> Inv rdr' hs') ->
  Inv (rd (r c)) hs ->
  ReadAll c hs = Some (recs, err, hs') ->
  exists rdr', Inv rdr' hs'.
Proof. intros HR. by apply ReadAll_loop_keeps. Qed.

(** [ReadSchema] once its file is open. *)
Lemma ReadSchema_open name w data :
  files w !! name = Some data ->
  ReadSchema name w
  = match ReadAll (NewReader (FileReader (length (handles w))))
            (handles w ++ [File name data false]) with
    | None => Running
    | Some (_, Some err, hs2) =>
        Returns (inr (Errorf "failed to read schema file" err),
                 set_handles (Close (length (handles w)) hs2) w)
    | Some (schema, None, hs2) =>
        match schemaOfRecords schema [] with
        | None => Panics
        | Some result =>
            Returns (inl result, set_handles (Close (length (handles w)) hs2) w)
        end
    end.
Proof. intros Hf. unfold ReadSchema, Open. rewrite Hf. reflexivity. Qed.

Lemma ReadAll_schema_file old name data recs err hs' :
  ReadAll (NewReader (FileReader (length old))) (old ++ [File name data false])
  = Some (recs, err, hs') ->
  exists k, hs' = old ++ [File name (drop k data) false].
Proof.
  intros Hall.
  assert (HI : (fun rdr hs =>
                  rdr = FileReader (length old)
                  /\ exists k, hs = old ++ [File name (drop k data) false])
                 (rd (r (NewReader (FileReader (length old)))))
                 (old ++ [File name data false]))
    by (split; [reflexivity | by exists 0]).
  destruct (ReadAll_keeps _ _ _ _ _ _ (Read_last_file old name data) HI Hall)
    as (rdr' & _ & k & ->).
  by exists k.
Qed.

(** X6: when [ReadSchema] returns, with the schema or with an error,
    the file it opened is closed again: its handle is the one new entry
    among the open files, marked closed, at some point of the file's
    content; the handles that were there, the file system and the console
    are as before.  For a file that is not there nothing is opened and
    the error is the one of [os.Open]. *)
Theorem ReadSchema_closes_its_file name w x w1 :
  ReadSchema name w = Returns (x, w1) ->
  files w1 = files w /\ console w1 = console w
  /\ match files w !! name with
     | Some data =>
         exists k, handles w1 = handles w ++ [File name (drop k data) true]
     | None =>
         handles w1 = handles w
         /\ x = inr (Errorf "failed to open schema file"
                       (PathError "open" name ENOENT))
     end.
Proof.
  intros H. destruct (ReadSchema_frame _ _ _ _ H) as [Hf Hc].
  split; [done|]. split; [done|].
  destruct (files w !! name) as [data|] eqn:Hd.
  - rewrite (ReadSchema_open _ _ _ Hd) in H.
    destruct (ReadAll _ _) as [[[schema err] hs2]|] eqn:Hall; [|done].
    apply ReadAll_schema_file in Hall as [k ->].
    rewrite Close_last in H. exists k.
    destruct err as [e|]; [by injection H as <- <-|].
    destruct (schemaOfRecords schema []); [|done]. by injection H as <- <-.
  - unfold ReadSchema, Open in H. rewrite Hd in H. by injection H as <- <-.
Qed.

Lemma ReadSchema_closes_users :
  ReadSchema "schema.csv" (sampleWorld usersInput usersSchemaText)
  = Returns (inl usersSchema,
             set_handles [File "schema.csv" [] true]
               (sampleWorld usersInput usersSchemaText))
  /\ exists k,
       [File "schema.csv" [] true]
       = [] ++ [File "schema.csv" (drop k (bytes_of usersSchemaText)) true].
Proof.
  assert (H : ReadSchema "schema.csv" (sampleWorld usersInput usersSchemaText)
              = Returns (inl usersSchema,
                         set_handles [File "schema.csv" [] true]
                           (sampleWorld usersInput usersSchemaText)))
    by (vm_compute; reflexivity).
  split; [exact H|].
  exact (proj2 (proj2 (ReadSchema_closes_its_file _ _ _ _ H))).
Defined.

(** ** The entries of the schema *)

(** The records [ReadAll] returns all have the same number of fields:
    the first one sets it, and another number is an error. *)
Lemma ReadAll_loop_uniform rounds : forall c hs records recs hs',
  (FieldsPerRecord c = 0 /\ records = []
   \/ 0 < FieldsPerRecord c
      /\ Forall (fun record => length record = FieldsPerRecord c) records) ->
  ReadAll_loop rounds c hs records = Some (recs, None, hs') ->
  exists k, Forall (fun record : list string => length record = k) recs.
Proof.
  induction rounds as [|k IH]; intros c hs records recs hs' Hinv H; [done|].
  cbn [ReadAll_loop] in H.
  destruct (readRecord c hs) as [[[[record e] c'] hs1]|] eqn:Hread; [|done].
  cbn [mbind option_bind] in H.
  destruct (isEOF e) eqn:Heof.
  { injection H as <- <-. destruct Hinv as [[_ ->]|[_ Hall]]; [by exists 0|eauto]. }
  destruct e as [e|]; [done|].
  change (readRecord c hs) with (csvRead c hs) in Hread.
  rewrite readRecord_unfold in Hread.
  destruct (parseRecord (r c) (numLine c) hs) as [[[[rec b1] n1] hs2]|] eqn:Hp;
    [|done].
  destruct rec as [|dst err recLine]; [done|].
  destruct (parseRecord_record _ _ _ _ _ _ _ _ _ Hp) as [_ Hlen].
  injection Hread as Hd Hnone <- <-. subst dst.
  apply (IH _ _ _ _ _) with (2 := H). cbn [FieldsPerRecord].
  unfold checkFields in Hnone |- *.
  destruct (0 <? FieldsPerRecord c) eqn:Hfpr; cbn [fst snd] in Hnone |- *.
  - apply Nat.ltb_lt in Hfpr. right. split; [done|].
    destruct Hinv as [[Hz _]|[_ Hall]]; [lia|].
    apply Forall_app. split; [done|]. constructor; [|done].
    destruct err as [e|]; [by rewrite andb_false_r in Hnone|].
    destruct (length record =? FieldsPerRecord c) eqn:Hk; [|done].
    by apply Nat.eqb_eq.
  - apply Nat.ltb_ge in Hfpr. subst err. right. split; [by apply Hlen|].
    destruct Hinv as [[_ ->]|[Hpos _]]; [|lia].
    by constructor.
Qed.

Lemma ReadAll_uniform rdr hs recs hs' :
  ReadAll (NewReader rdr) hs = Some (recs, None, hs') ->
  exists k, Forall (fun record : list string => length record = k) recs.
Proof. apply ReadAll_loop_uniform. by left. Qed.

Lemma schemaOfRecords_full records : forall result,
  Forall (fun column : list string => 4 <= length column) records ->
  schemaOfRecords records result = Some (result ++ map schemaOf records).
Proof.
  induction records as [|column rest IH]; intros result Hall.
  - simpl. by rewrite app_nil_r.
  - apply Forall_cons in Hall as [Hc Hrest].
    destruct column as [|c0 [|c1 [|c2 [|c3 more]]]]; simpl in Hc; try lia.
    cbn [schemaOfRecords lookup list_lookup mbind option_bind].
    rewrite (IH _ Hrest). cbn [map]. by rewrite <- app_assoc.
Qed.

(** X7: the schema file is judged by its first record.  When the file
    is read without error and its first record has at least four fields,
    [ReadSchema] returns one entry for each record, in the order of the
    file, made of the record's first four fields; what a record has
    beyond them is not looked at. *)
Theorem ReadSchema_entries name w data records hs' :
  files w !! name = Some data ->
  ReadAll (NewReader (FileReader (length (handles w))))
    (handles w ++ [File name data false]) = Some (records, None, hs') ->
  (forall first, head records = Some first -> 4 <= length first) ->
  ReadSchema name w
  = Returns (inl (map schemaOf records),
             set_handles (Close (length (handles w)) hs') w).
Proof.
  intros Hf Hall Hfirst. rewrite (ReadSchema_open _ _ _ Hf), Hall.
  rewrite schemaOfRecords_full; [done|].
  destruct (ReadAll_uniform _ _ _ _ Hall) as [k Hk].
  destruct records as [|first rest]; [done|].
  specialize (Hfirst first eq_refl).
  apply Forall_cons in Hk as [Hk1 Hk]. constructor; [done|].
  eapply Forall_impl; [exact Hk|]. intros column Hc. simpl in Hc. lia.
Qed.

Lemma ReadSchema_entries_users :
  ReadSchema "schema.csv" (sampleWorld usersInput usersSchemaText)
  = Returns (inl usersSchema,
             set_handles [File "schema.csv" [] true]
               (sampleWorld usersInput usersSchemaText)).
Proof.
  assert (Hf : files (sampleWorld usersInput usersSchemaText) !! "schema.csv"
               = Some (bytes_of usersSchemaText)) by (vm_compute; reflexivity).
  assert (Hall : ReadAll (NewReader (FileReader
                    (length (handles (sampleWorld usersInput usersSchemaText)))))
                   (handles (sampleWorld usersInput usersSchemaText)
                    ++ [File "schema.csv" (bytes_of usersSchemaText) false])
                 = Some ([["id"; "int"; "user_id"; "BIGINT"];
                          ["name"; "varchar"; "full_name"; "VARCHAR"]], None,
                         [File "schema.csv" [] false]))
    by (vm_compute; reflexivity).
  assert (Hfirst : forall first,
             head [["id"; "int"; "user_id"; "BIGINT"];
                   ["name"; "varchar"; "full_name"; "VARCHAR"]] = Some first ->
             4 <= length first)
    by (intros first [= <-]; simpl; lia).
  exact (ReadSchema_entries "schema.csv" _ _ _ _ Hf Hall Hfirst).
Defined.

(** ** The header *)

(** X8: at the end of the input there is no header: on a reader all of
    whose files are open and that has no byte left [ParseHeaders] returns
    the error of the CSV reader's EOF. *)
Theorem ParseHeaders_at_end_of_input rdr hs :
  healthy rdr hs -> avail rdr hs = 0 ->
  exists rdr' hs',
    ParseHeaders rdr hs
    = Some (inr (Errorf "failed to read headers from input file" EOF), rdr', hs').
Proof.
  intros Hh Ha. destruct (healthy_stream rdr hs Hh) as (outs & hs' & Hs & Hlen).
  destruct outs as [|out outs]; [|simpl in Hlen; lia].
  inversion Hs as [c hs0 row c' hs0' Hread|]; subst.
  rewrite ParseHeaders_unfold, Hread. eauto.
Qed.

Lemma ParseHeaders_at_end_of_open_file :
  exists rdr' hs',
    ParseHeaders (FileReader 0) [File "in.csv" [] false]
    = Some (inr (Errorf "failed to read headers from input file" EOF), rdr', hs').
Proof.
  apply ParseHeaders_at_end_of_input.
  - exists (File "in.csv" [] false). split; reflexivity.
  - reflexivity.
Defined.

(** ** What the header reader leaves for the row reader *)



Lemma csvRead_nothing hs :
  csvRead (NewReader (BytesReader [])) hs
  = Some ([], Some EOF,
          CsvReader (Bufio (BytesReader []) [] None defaultBufSize) 0 1, hs).
Proof. vm_compute. reflexivity. Qed.

Lemma GenerateSQL_nothing rounds tableName schema him w :
  0 < rounds ->
  GenerateSQL rounds tableName schema him (BytesReader []) w
  = Returns (statementText tableName schema him [], w).
Proof.
  intros Hr. rewrite GenerateSQL_unfold.
  destruct rounds as [|k]; [lia|]. cbn [GenerateSQL_loop].
  rewrite csvRead_nothing. cbn [isEOF]. destruct w as [fs hs c].
  unfold statementText, set_handles. cbn [files handles console map Join].
  by rewrite ?sapp_assoc, ?sapp_nil_l.
Qed.

(** X10: an input held in memory that fits the buffer of 4096 bytes: the
    reader that [ParseHeaders] leaves is at its end, whatever rows follow
    the header, and [GenerateSQL] on it returns the statement without a
    tuple: the rows were in the buffer of the header reader. *)
Theorem header_reader_takes_the_rows data hs res rdr' hs' :
  length data <= defaultBufSize ->
  ParseHeaders (BytesReader data) hs = Some (res, rdr', hs') ->
  rdr' = BytesReader [] /\ hs' = hs
  /\ forall rounds tableName schema him w,
       0 < rounds ->
       GenerateSQL rounds tableName schema him rdr' w
       = Returns (statementText tableName schema him [], w).
Proof.
  intros Hlen H. rewrite ParseHeaders_unfold in H.
  destruct (csvRead (NewReader (BytesReader data)) hs)
    as [[[[headers e] c'] hs2]|] eqn:Hc; [|done].
  assert (HI : rd (r c') = BytesReader [] /\ hs2 = hs).
  { refine (csvRead_first (fun rdr hs0 => rdr = BytesReader [] /\ hs0 = hs) _
              (BytesReader data) hs defaultBufSize
              (take defaultBufSize data) (match data with [] => Some EOF | _ => None end)
              (BytesReader []) hs _ _ _ 0 0 _ _ _ _ Hc).
    - intros rd0 n hs0 p0 e0 rd1 hs0' [-> ->]. cbn [Read BytesRead].
      by intros [= <- <- <- <-].
    - unfold defaultBufSize. lia.
    - destruct data as [|b0 data']; [done|].
      cbn [Read BytesRead]. by rewrite drop_ge.
    - done. }
  destruct HI as [Hrd ->].
  assert (Hr : rdr' = BytesReader [] /\ hs' = hs)
    by (by destruct e; injection H as <- <- <-).
  destruct Hr as [-> ->]. split; [done|]. split; [done|].
  intros. by apply GenerateSQL_nothing.
Qed.

Lemma header_reader_takes_the_rows_users :
  ParseHeaders (BytesReader (bytes_of usersInput)) []
  = Some (inl usersHeaders, BytesReader [], [])
  /\ GenerateSQL 5 "users" usersSchema
       (MapHeadersToSchema usersHeaders usersSchema) (BytesReader []) emptyWorld
     = Returns (statementText "users" usersSchema
                  (MapHeadersToSchema usersHeaders usersSchema) [], emptyWorld).
Proof.
  assert (H : ParseHeaders (BytesReader (bytes_of usersInput)) []
              = Some (inl usersHeaders, BytesReader [], []))
    by (vm_compute; reflexivity).
  split; [exact H|].
  apply (header_reader_takes_the_rows (bytes_of usersInput) []
           (inl usersHeaders) (BytesReader []) []).
  - vm_compute. lia.
  - exact H.
  - lia.
Defined.

(** ** Rows and the length of the header *)

(** The header [ParseHeaders] returns has a field. *)
Lemma ParseHeaders_fields rdr hs headers rdr' hs' :
  ParseHeaders rdr hs = Some (inl headers, rdr', hs') -> headers <> [].
Proof.
  intros H. rewrite ParseHeaders_unfold, readRecord_unfold in H.
  destruct (parseRecord _ _ hs) as [[[[rec b1] n1] hs1]|] eqn:Hp; [|done].
  destruct rec as [|dst err recLine]; [done|].
  destruct (parseRecord_record _ _ _ _ _ _ _ _ _ Hp) as [_ Hlen].
  cbn [NewReader FieldsPerRecord checkFields Nat.ltb Nat.leb fst snd] in H.
  destruct err as [e|]; [done|]. injection H as <- _ _.
  specialize (Hlen eq_refl). intros ->. simpl in Hlen. lia.
Qed.

(** A lookup in the header index map, for a name that is bound or not,
    gives a position of the header. *)
Lemma mapIndex_header headers schema name :
  headers <> [] ->
  mapIndex (MapHeadersToSchema headers schema) name < length headers.
Proof.
  intros Hne. unfold mapIndex.
  destruct (MapHeadersToSchema headers schema !! name) as [i|] eqn:Hi.
  - apply MapHeadersToSchema_lookup in Hi as [Hi _].
    by apply lookup_lt_Some in Hi.
  - destruct headers; [done|]. simpl. lia.
Qed.

Lemma firstGood_elem row outs :
  (row, None) ∈ outs -> is_Some (firstGood outs).
Proof.
  induction outs as [|[row' [e|]] rest IH]; intros Hin.
  - by apply elem_of_nil in Hin.
  - apply elem_of_cons in Hin as [Heq|Hin]; [done|]. by apply IH.
  - by eexists.
Qed.

(** X11: the first row decides whether [GenerateSQL] can panic.  The
    header [ParseHeaders] returns never is empty, and with the index map
    of a header every lookup, of a column of the input or of a name that
    is no column, gives a position of the header.  So when the first row
    that is read without error has at least as many fields as the header,
    no row is too short: [GenerateSQL] returns what it has written for
    the rows, and the rows it turned down are logged. *)
Theorem GenerateSQL_first_row_as_long_as_header
    headers schema tableName rdr w raws hs' rounds :
  headers <> [] ->
  rawstream (NewBufio rdr) 0 (handles w) raws hs' ->
  (forall row, firstGood (judgeFrom 0 raws) = Some row ->
     length headers <= length row) ->
  length raws < rounds ->
  (forall name, mapIndex (MapHeadersToSchema headers schema) name < length headers)
  /\ GenerateSQL rounds tableName schema (MapHeadersToSchema headers schema) rdr w
     = Returns ("INSERT INTO `" +:+ tableName +:+ "` (" +:+ columnsText schema
                +:+ ")" +:+ nl +:+ "VALUES" +:+ nl
                +:+ rowsText 0 schema (MapHeadersToSchema headers schema)
                      (judgeFrom 0 raws)
                +:+ ";" +:+ nl,
                World (files w) hs' (console w ++ warnings 0 (judgeFrom 0 raws))).
Proof.
  intros Hne Hraw Hfirst Hlt.
  split; [intros; by apply mapIndex_header|].
  apply GenerateSQL_stream.
  - exact (stream_judgeFrom _ _ _ _ _ Hraw 0).
  - intros row column Hin _.
    destruct (firstGood_elem _ _ Hin) as [row0 Hrow0].
    apply list_elem_of_lookup in Hin as [j Hj].
    assert (Hr : exists err recLine, raws !! j = Some (row, err, recLine)).
    { pose proof (judgeFrom_records 0 raws) as Hrec.
      apply (f_equal (fun l => l !! j)) in Hrec.
      rewrite !list_lookup_fmap, Hj in Hrec. cbn in Hrec.
      destruct (raws !! j) as [[[d e] l]|]; [|done].
      injection Hrec as <-. eauto. }
    destruct Hr as (err & recLine & Hr).
    destruct (judgeFrom_first raws (rawstream_fields _ _ _ _ _ Hraw) row0 Hrow0
                j row err recLine Hr) as [Hlen _].
    destruct (Hlen Hj) as [_ ->].
    specialize (Hfirst row0 Hrow0).
    pose proof (mapIndex_header headers schema (ColumnFrom column) Hne). lia.
  - by rewrite judgeFrom_length.
Qed.

Lemma GenerateSQL_first_row_as_long_as_header_users :
  GenerateSQL 4 "users" usersSchema (MapHeadersToSchema usersHeaders usersSchema)
    (BytesReader (bytes_of (textLines ["1,Alice"; "2"; "3,Carol"]))) emptyWorld
  = Returns ("INSERT INTO `users` (`user_id`, `full_name`)" +:+ nl
             +:+ "VALUES" +:+ nl
             +:+ "('1', 'Alice')," +:+ nl
             +:+ "('3', 'Carol');" +:+ nl,
             World ∅ [] [FailedToReadRow 1 (ParseError 2 ErrFieldCount)]).
Proof.
  assert (Hraw : rawstream
                   (NewBufio (BytesReader
                      (bytes_of (textLines ["1,Alice"; "2"; "3,Carol"]))))
                   0 (handles emptyWorld)
                   [(["1"; "Alice"], None, 1); (["2"], None, 2);
                    (["3"; "Carol"], None, 3)] [])
    by (apply (readRaws_rawstream 5); vm_compute; reflexivity).
  assert (Hfirst : forall row,
             firstGood (judgeFrom 0 [(["1"; "Alice"], None, 1); (["2"], None, 2);
                                     (["3"; "Carol"], None, 3)]) = Some row ->
             length usersHeaders <= length row)
    by (intros row [= <-]; simpl; lia).
  destruct (GenerateSQL_first_row_as_long_as_header usersHeaders usersSchema
              "users" _ emptyWorld _ [] 4 ltac:(discriminate) Hraw Hfirst
              ltac:(simpl; lia)) as [_ H].
  rewrite H. vm_compute. reflexivity.
Defined.

(** ** The type tags *)

Section TypeTags.

(** Two schemas with the same source and destination names, entry by
    entry. *)
Let sameNames (schema1 schema2 : list Schema) : Prop :=
  Forall2 (fun c1 c2 => ColumnFrom c1 = ColumnFrom c2 /\ ColumnTo c1 = ColumnTo c2)
    schema1 schema2.

Lemma writeValues_names columns1 columns2 :
  sameNames columns1 columns2 ->
  forall j n him row outputSQL,
    writeValues columns1 j n him row outputSQL
    = writeValues columns2 j n him row outputSQL.
Proof.
  induction 1 as [|c1 c2 rest1 rest2 [Hfrom _] _ IH]; intros j n him row out;
    [done|].
  cbn [writeValues]. rewrite Hfrom.
  destruct (row !! mapIndex him (ColumnFrom c2)) as [v|]; [|done].
  cbn [mbind option_bind]. rewrite !convertData_id. apply IH.
Qed.

Lemma columnsText_names schema1 schema2 :
  sameNames schema1 schema2 -> columnsText schema1 = columnsText schema2.
Proof.
  intros H. unfold columnsText. f_equal.
  induction H as [|c1 c2 rest1 rest2 [_ Hto] _ IH]; [done|].
  cbn [map]. by rewrite Hto, IH.
Qed.

Lemma GenerateSQL_loop_names schema1 schema2 rounds :
  sameNames schema1 schema2 ->
  forall i him c w outputSQL,
    GenerateSQL_loop rounds i schema1 him c w outputSQL
    = GenerateSQL_loop rounds i schema2 him c w outputSQL.
Proof.
  intros Hs. induction rounds as [|k IH]; intros i him c w out; [done|].
  cbn [GenerateSQL_loop].
  destruct (csvRead c (handles w)) as [[[[row err] c'] hs']|]; [|done].
  destruct (isEOF err); [done|]. destruct err as [e|]; [apply IH|].
  rewrite (Forall2_length _ _ _ Hs), (writeValues_names _ _ Hs).
  destruct (writeValues schema2 _ _ _ _ _); [apply IH|done].
Qed.

(** X12: the source and destination type tags of the schema have no
    effect.  Two schemas that agree, entry by entry, on the source and
    the destination names give the same result on every input, whatever
    their type tags are: the same text, the same lines logged, the same
    panic. *)
Theorem GenerateSQL_ignores_type_tags
    rounds tableName schema1 schema2 him rdr w :
  Forall2 (fun c1 c2 => ColumnFrom c1 = ColumnFrom c2 /\ ColumnTo c1 = ColumnTo c2)
    schema1 schema2 ->
  GenerateSQL rounds tableName schema1 him rdr w
  = GenerateSQL rounds tableName schema2 him rdr w.
Proof.
  intros Hs. rewrite !GenerateSQL_unfold.
  rewrite (columnsText_names _ _ Hs). by apply GenerateSQL_loop_names.
Qed.

End TypeTags.

Lemma GenerateSQL_ignores_type_tags_users :
  GenerateSQL 3 "users" usersSchema (MapHeadersToSchema usersHeaders usersSchema)
    (BytesReader (bytes_of (textLines ["1,Alice"]))) emptyWorld
  = GenerateSQL 3 "users"
      [mkSchema "id" "datetime" "user_id" "BLOB";
       mkSchema "name" "int" "full_name" "BIGINT"]
      (MapHeadersToSchema usersHeaders usersSchema)
      (BytesReader (bytes_of (textLines ["1,Alice"]))) emptyWorld.
Proof.
  apply GenerateSQL_ignores_type_tags.
  repeat constructor.
Defined.

(** ** A first row that fails *)

Lemma rowsText_failures schema him (failures : list (list string * error)) :
  forall i outs,
    rowsText i schema him (map (fun f => (f.1, Some f.2)) failures ++ outs)
    = rowsText (i + length failures) schema him outs.
Proof.
  induction failures as [|[row e] rest IH]; intros i outs.
  - by rewrite Nat.add_0_r.
  - cbn [map app rowsText fst snd length]. rewrite IH. f_equal. lia.
Qed.

(** X13: the separator goes by the number of reads, not by the number of
    tuples written.  When the reads before the first row that is written
    have failed, the tuple of that row has the comma and the newline in
    front of it, right behind VALUES. *)
Theorem GenerateSQL_separator_before_first_tuple
    tableName schema him rdr w failures row outs hs' rounds :
  failures <> [] ->
  stream (NewReader rdr) (handles w)
    (map (fun f => (f.1, Some f.2)) failures ++ good row :: outs) hs' ->
  inRange schema him (good row :: outs) ->
  length failures + S (length outs) < rounds ->
  exists rest w',
    GenerateSQL rounds tableName schema him rdr w
    = Returns ("INSERT INTO `" +:+ tableName +:+ "` (" +:+ columnsText schema
               +:+ ")" +:+ nl +:+ "VALUES" +:+ nl
               +:+ "," +:+ nl +:+ tupleText schema him row +:+ rest, w').
Proof.
  intros Hne Hs Hr Hlt. eexists _, _.
  rewrite (GenerateSQL_stream _ _ _ _ _ _ _ _ Hs).
  - rewrite rowsText_failures. cbn [good rowsText].
    replace (0 <? 0 + length failures) with true
      by (symmetry; apply Nat.ltb_lt; destruct failures; [done|simpl; lia]).
    by rewrite !sapp_assoc.
  - intros row' column Hin Hcol. apply Hr; [|done].
    apply elem_of_app in Hin as [Hin|Hin]; [|done].
    by apply list_elem_of_fmap in Hin as (f & [=] & _).
  - rewrite length_app, length_map. simpl. lia.
Qed.

Lemma GenerateSQL_separator_before_first_tuple_users :
  exists rest w',
    GenerateSQL 4 "users" usersSchema (MapHeadersToSchema usersHeaders usersSchema)
      (BytesReader (bytes_of (textLines
         ["a" +:+ String (ascii_of_nat 34) "b,c"; "2,Bob"])))
      emptyWorld
    = Returns ("INSERT INTO `users` (" +:+ columnsText usersSchema
               +:+ ")" +:+ nl +:+ "VALUES" +:+ nl
               +:+ "," +:+ nl
               +:+ tupleText usersSchema
                     (MapHeadersToSchema usersHeaders usersSchema) ["2"; "Bob"]
               +:+ rest, w').
Proof.
  apply (GenerateSQL_separator_before_first_tuple "users" usersSchema
           (MapHeadersToSchema usersHeaders usersSchema) _ emptyWorld
           [([], ParseError 1 ErrBareQuote)] ["2"; "Bob"] [] [] 4).
  - discriminate.
  - apply (readOutcomes_stream 4). vm_compute. reflexivity.
  - intros row column Hrow Hcol.
    apply list_elem_of_singleton in Hrow. injection Hrow as ->.
    unfold usersSchema in Hcol.
    apply elem_of_cons in Hcol as [->|Hcol];
      [|apply list_elem_of_singleton in Hcol as ->]; vm_compute; lia.
  - simpl. lia.
Defined.

(** ** The frame of the text *)

Lemma writeValues_appends columns : forall j n him row outputSQL out',
  writeValues columns j n him row outputSQL = Some out' ->
  exists text, out' = outputSQL +:+ text.
Proof.
  induction columns as [|column rest IH]; intros j n him row out out' H.
  - injection H as <-. exists "". by rewrite sapp_nil_r.
  - cbn [writeValues] in H.
    destruct (row !! mapIndex him (ColumnFrom column)) as [v|]; [|done].
    cbn [mbind option_bind] in H.
    apply IH in H as [text ->].
    destruct (j <? n - 1); eexists; by rewrite !sapp_assoc.
Qed.

Lemma GenerateSQL_loop_frame rounds : forall i schema him c w outputSQL sql w',
  GenerateSQL_loop rounds i schema him c w outputSQL = Returns (sql, w') ->
  (exists body, sql = outputSQL +:+ body +:+ ";" +:+ nl)
  /\ files w' = files w
  /\ exists lines,
       console w' = console w ++ lines
       /\ Forall (fun l => exists j e, l = FailedToReadRow j e) lines.
Proof.
  induction rounds as [|k IH]; intros i schema him c w out sql w' H; [done|].
  cbn [GenerateSQL_loop] in H.
  destruct (csvRead c (handles w)) as [[[[row err] c'] hs']|]; [|done].
  destruct (isEOF err).
  { injection H as <- <-. split; [exists ""; by rewrite sapp_nil_l|].
    split; [done|]. exists []. by rewrite app_nil_r. }
  destruct err as [e|].
  - apply IH in H as (Hb & Hf & lines & Hc & Hl). split; [done|]. split; [done|].
    exists (FailedToReadRow i e :: lines).
    cbn [Println console] in Hc. rewrite Hc, <- app_assoc. split; [done|].
    constructor; eauto.
  - destruct (writeValues _ _ _ _ _ _) as [out'|] eqn:Hv; [|done].
    apply writeValues_appends in Hv as [text ->].
    apply IH in H as ([body ->] & Hf & Hc). split; [|done].
    destruct (0 <? i).
    + exists (("," +:+ nl) +:+ "(" +:+ text +:+ ")" +:+ body).
      by rewrite !sapp_assoc.
    + exists ("(" +:+ text +:+ ")" +:+ body). by rewrite !sapp_assoc.
Qed.

(** X14: whatever the reader gives, a text that [GenerateSQL] returns has
    the table name and the column list in front and the semicolon and a
    newline at its end; the run has written no file, and the lines it has
    printed are lines for rows it could not read. *)
Theorem GenerateSQL_frame rounds tableName schema him rdr w sql w' :
  GenerateSQL rounds tableName schema him rdr w = Returns (sql, w') ->
  (exists body,
     sql = "INSERT INTO `" +:+ tableName +:+ "` (" +:+ columnsText schema
           +:+ ")" +:+ nl +:+ "VALUES" +:+ nl +:+ body +:+ ";" +:+ nl)
  /\ files w' = files w
  /\ exists lines,
       console w' = console w ++ lines
       /\ Forall (fun l => exists j e, l = FailedToReadRow j e) lines.
Proof.
  rewrite GenerateSQL_unfold. intros H.
  apply GenerateSQL_loop_frame in H as ([body ->] & Hf & Hc).
  split; [|done]. exists body. by rewrite !sapp_assoc.
Qed.

Lemma GenerateSQL_frame_users :
  (exists body,
     usersStatement
     = "INSERT INTO `users` (" +:+ columnsText usersSchema
       +:+ ")" +:+ nl +:+ "VALUES" +:+ nl +:+ body +:+ ";" +:+ nl)
  /\ files emptyWorld = files emptyWorld
  /\ exists lines,
       console emptyWorld = console emptyWorld ++ lines
       /\ Forall (fun l => exists j e, l = FailedToReadRow j e) lines.
Proof.
  apply (GenerateSQL_frame 2 "users" usersSchema
           (MapHeadersToSchema usersHeaders usersSchema)
           (BytesReader (bytes_of (textLines ["1,Alice"]))) emptyWorld).
  vm_compute. reflexivity.
Defined.

(** ** The output file *)

Lemma slength_app (a b : string) :
  String.length (a +:+ b) = String.length a + String.length b.
Proof.
  induction a as [|c a IH]; [done|].
  rewrite sapp_cons. cbn [String.length]. by rewrite IH.
Qed.

Lemma sapp_inj_r (x a b : string) : a +:+ x = b +:+ x -> a = b.
Proof.
  revert b. induction a as [|c a IH]; intros [|c' b] H.
  - done.
  - apply (f_equal String.length) in H.
    rewrite sapp_nil_l, sapp_cons in H. cbn [String.length] in H.
    rewrite slength_app in H. lia.
  - apply (f_equal String.length) in H.
    rewrite sapp_nil_l, sapp_cons in H. cbn [String.length] in H.
    rewrite slength_app in H. lia.
  - rewrite !sapp_cons in H. injection H as -> H. f_equal. by apply IH.
Qed.


(** ** The run once the header is read *)

(** The first read of the reader [ReadInputFile] returns, with the
    buffer of the CSV reader: the peeked bytes, or the error of the
    closed file. *)
Lemma Read_peeked b fd f hs :
  hs !! fd = Some f -> f_closed f = true -> length b <= defaultBufSize ->
  exists p err r1,
    Read (MultiReader [BytesReader b; FileReader fd]) defaultBufSize hs
    = (p, err, r1, hs)
    /\ (r1 = MultiReader [FileReader fd]
        \/ r1 = MultiReader [BytesReader []; FileReader fd]).
Proof.
  intros Hf Hc Hb. destruct b as [|b0 b'].
  - rewrite (Read_closed_file_after_bytes _ _ _ _ Hf Hc). eauto 6.
  - rewrite Read_MultiReader. cbn [multiRead Read BytesRead isEOF negb orb andb].
    rewrite orb_true_r, drop_ge by done. eauto 6.
Qed.

Lemma Read_closed_keeps fd f hs0 rdr n hs p err rdr' hs' :
  hs0 !! fd = Some f -> f_closed f = true ->
  ((rdr = MultiReader [FileReader fd]
    \/ rdr = MultiReader [BytesReader []; FileReader fd]) /\ hs = hs0) ->
  Read rdr n hs = (p, err, rdr', hs') ->
  (rdr' = MultiReader [FileReader fd]
   \/ rdr' = MultiReader [BytesReader []; FileReader fd]) /\ hs' = hs0.
Proof.
  intros Hf Hc [[-> | ->] ->].
  - rewrite (Read_closed_file _ _ _ _ Hf Hc). intros [= <- <- <- <-]. eauto.
  - rewrite (Read_closed_file_after_bytes _ _ _ _ Hf Hc).
    intros [= <- <- <- <-]. eauto.
Qed.

(** After the header the reader holds nothing but the closed file. *)
Lemma ParseHeaders_peeked b fd f hs res rdr' hs' :
  hs !! fd = Some f -> f_closed f = true -> length b <= defaultBufSize ->
  ParseHeaders (MultiReader [BytesReader b; FileReader fd]) hs
  = Some (res, rdr', hs') ->
  (rdr' = MultiReader [FileReader fd]
   \/ rdr' = MultiReader [BytesReader []; FileReader fd]) /\ hs' = hs.
Proof.
  intros Hf Hc Hb H. rewrite ParseHeaders_unfold in H.
  destruct (csvRead _ hs) as [[[[headers e] c'] hs2]|] eqn:Hread; [|done].
  destruct (Read_peeked b fd f hs Hf Hc Hb) as (p & err & r1 & Hfirst & Hr1).
  assert (HI : (rd (r c') = MultiReader [FileReader fd]
                \/ rd (r c') = MultiReader [BytesReader []; FileReader fd])
               /\ hs2 = hs).
  { refine (csvRead_first
              (fun rdr hs1 =>
                 (rdr = MultiReader [FileReader fd]
                  \/ rdr = MultiReader [BytesReader []; FileReader fd])
                 /\ hs1 = hs) _
              _ hs defaultBufSize p err r1 hs _ Hfirst _ 0 0 _ _ _ _ Hread).
    - intros rd0 n hs0 p0 e0 rd1 hs1. by apply (Read_closed_keeps fd f).
    - unfold defaultBufSize. lia.
    - done. }
  by destruct e; injection H as <- <- <-.
Qed.

Lemma GenerateSQL_closed_file_alone rounds tableName schema him fd f w :
  handles w !! fd = Some f -> f_closed f = true ->
  GenerateSQL rounds tableName schema him (MultiReader [FileReader fd]) w
  = Running.
Proof.
  intros Hf Hc. rewrite GenerateSQL_unfold.
  by apply (GenerateSQL_loop_closed_file _ _ f).
Qed.

(** With the reader of [ReadInputFile] and the header read from it the
    row loop is running after any number of rounds. *)
Lemma GenerateSQL_after_header name w1 rdr w2 headers rdr' hs3
    rounds tableName schema him :
  ReadInputFile name w1 = (inl rdr, w2) ->
  ParseHeaders rdr (handles w2) = Some (inl headers, rdr', hs3) ->
  GenerateSQL rounds tableName schema him rdr' (set_handles hs3 w2) = Running.
Proof.
  intros Hi Hp.
  apply ReadInputFile_reader in Hi as (data & Hf & Hne & -> & ->).
  cbn [set_handles handles] in Hp.
  set (f := File name (drop 3 data) true).
  assert (Hfd : (handles w1 ++ [f]) !! length (handles w1) = Some f)
    by (by apply list_lookup_middle).
  destruct (ParseHeaders_peeked _ _ f _ _ _ _ Hfd eq_refl
              ltac:(etrans; [apply peek_length | unfold defaultBufSize; lia]) Hp)
    as [[-> | ->] ->].
  - by rewrite (GenerateSQL_closed_file_alone _ _ _ _ _ f).
  - by rewrite (GenerateSQL_closed_file _ _ _ _ _ f).
Qed.

(** X16: once the header is read, the run does not end.  Whenever the
    arguments are there, the schema is read, [ReadInputFile] has returned
    its reader and [ParseHeaders] a header, the row loop of [GenerateSQL]
    reads the closed file, logs the error and reads again, for ever:
    [main] is still running after any number of rounds, and the SQL file
    is never written. *)
Theorem main_runs_on_once_header_is_read osArgs w args schema w1 rdr w2
    headers rdr' hs3 :
  ParseArgs osArgs = inl args ->
  ReadSchema (SchemaFileName args) w = Returns (inl schema, w1) ->
  ReadInputFile (InputFileName args) w1 = (inl rdr, w2) ->
  ParseHeaders rdr (handles w2) = Some (inl headers, rdr', hs3) ->
  forall rounds, main rounds osArgs w = Running.
Proof.
  intros Ha Hs Hi Hp rounds. unfold main. rewrite Ha, Hs, Hi, Hp.
  by rewrite (GenerateSQL_after_header _ _ _ _ _ _ _ _ _ _ _ Hi Hp).
Qed.

Lemma main_runs_on_short_header :
  main 100 ["convert"; "t"; "in.csv"; "schema.csv"]
    (sampleWorld (textLines ["a"; "1"]) (textLines ["a,int,b,BIGINT"]))
  = Running.
Proof.
  apply (main_runs_on_once_header_is_read
           ["convert"; "t"; "in.csv"; "schema.csv"]
           (sampleWorld (textLines ["a"; "1"]) (textLines ["a,int,b,BIGINT"]))
           (mkArgs "t" "in.csv" "schema.csv")
           [mkSchema "a" "int" "b" "BIGINT"]
           (World (files (sampleWorld (textLines ["a"; "1"])
                            (textLines ["a,int,b,BIGINT"])))
              [File "schema.csv" [] true] [])
           (MultiReader [BytesReader [x61; LF; x31]; FileReader 1])
           (World (files (sampleWorld (textLines ["a"; "1"])
                            (textLines ["a,int,b,BIGINT"])))
              [File "schema.csv" [] true; File "in.csv" [LF] true] [])
           ["a"] (MultiReader [BytesReader []; FileReader 1])
           [File "schema.csv" [] true; File "in.csv" [LF] true]).
  - reflexivity.
  - vm_compute. reflexivity.
  - vm_compute. reflexivity.
  - vm_compute. reflexivity.
Defined.

(** [ParseHeaders] always gives its result. *)
Lemma ParseHeaders_Some rdr hs : is_Some (ParseHeaders rdr hs).
Proof.
  rewrite ParseHeaders_unfold.
  destruct (csvRead_Some (NewReader rdr) hs (sound_NewBufio rdr))
    as [[[[headers [e|]] c'] hs'] ->]; eauto.
Qed.

(** X17: the three ways a run can go.  When [main] returns it has
    printed one error and has written no file; when it panics, it is
    [ReadSchema] that has panicked, on a record of the schema file; and
    when it is still running, the header has been read and the row loop
    is reading the closed file.  The row loop itself never panics and
    never ends in a run of [main]. *)
Theorem main_outcomes rounds osArgs w :
  match main rounds osArgs w with
  | Returns w' =>
      files w' = files w /\ exists err, console w' = console w ++ [PrintErr err]
  | Panics =>
      exists args,
        ParseArgs osArgs = inl args /\ ReadSchema (SchemaFileName args) w = Panics
  | Running =>
      exists args schema w1 rdr w2 headers rdr' hs3,
        ParseArgs osArgs = inl args
        /\ ReadSchema (SchemaFileName args) w = Returns (inl schema, w1)
        /\ ReadInputFile (InputFileName args) w1 = (inl rdr, w2)
        /\ ParseHeaders rdr (handles w2) = Some (inl headers, rdr', hs3)
  end.
Proof.
  destruct (main rounds osArgs w) as [w'| |] eqn:Hm.
  - by apply (main_never_generates rounds osArgs).
  - unfold main in Hm. destruct (ParseArgs osArgs) as [args|err]; [|done].
    exists args. split; [done|].
    destruct (ReadSchema (SchemaFileName args) w) as [[[schema|err] w1]| |];
      try done.
    destruct (ReadInputFile (InputFileName args) w1) as [[rdr|err] w2] eqn:Hi;
      [|done].
    destruct (ParseHeaders rdr (handles w2)) as [[[[headers|err] rdr'] hs3]|] eqn:Hp;
      try done.
    by rewrite (GenerateSQL_after_header _ _ _ _ _ _ _ _ _ _ _ Hi Hp) in Hm.
  - unfold main in Hm. destruct (ParseArgs osArgs) as [args|err]; [|done].
    exists args.
    destruct (ReadSchema (SchemaFileName args) w) as [[[schema|err] w1]| |] eqn:Hs;
      try done; [|by destruct (ReadSchema_ends _ _ Hs)].
    destruct (ReadInputFile (InputFileName args) w1) as [[rdr|err] w2] eqn:Hi;
      [|done].
    destruct (ParseHeaders_Some rdr (handles w2)) as [[[res rdr'] hs3] Hp].
    rewrite Hp in Hm. destruct res as [headers|err]; [|done].
    by exists schema, w1, rdr, w2, headers, rdr', hs3.
Qed.
